(** * tchaik: playlist store (UI) and websocket command handler (server)

    Shallow embedding of
    - [cmd/tchaik/ui/js/src/stores/PlaylistStore.js]: the playlist store
      with its dispatcher callback (module [PlaylistStore]), the playlist
      as the server sends it (module [ServerPlaylist]) and the path lists
      (module [PathListStore]),
    - [cmd/tchaik/websocket.go] (module [Websocket]),
    and the properties of the playlist traversal, removal and expansion
    algorithms, of the dispatcher callbacks, of the command field
    extraction and search suppression and of the command loop. *)

From stdpp Require Import base option list sorting gmap strings pretty fin_maps.
From Stdlib Require Import ZArith Lia DecimalString.

Open Scope Z_scope.
Set Warnings "-clear-no-such-hyp".


(** ** JavaScript values used by the store *)

(** An array slot of a path: a group key (string), a track index (number)
    or [undefined] (what reading past the end of an array yields, and what
    [Array.prototype.concat] appends when handed [undefined]). *)
Inductive Key : Type :=
  | KStr (s : string)
  | KNum (n : Z)
  | KUndef.

#[global] Instance Key_eq_dec : EqDecision Key.
Proof. solve_decision. Defined.

Abbreviation Path := (list Key).

(** [a[i]] for a JavaScript number [i]: [undefined] outside the array. *)
Definition index {A : Type} (l : list A) (i : Z) : option A :=
  if decide (0 ≤ i) then l !! Z.to_nat i else None.

(** [a.length] as a JavaScript number. *)
Definition len {A : Type} (l : list A) : Z := Z.of_nat (length l).

(** [root.concat(x)] where [x] is an array or [undefined]. *)
Definition concat (root : Path) (x : option Path) : Path :=
  match x with
  | Some p => root ++ p
  | None => root ++ [KUndef]
  end.

Module PlaylistStore.

(** [PlaylistConstants.TYPE_GROUP] and [PlaylistConstants.TYPE_TRACKS]. *)
Inductive NodeType : Type := TYPE_GROUP | TYPE_TRACKS.

(** The object [x] stored in [data] for a visited node: [{}] or
    [{type, keys}]. *)
Inductive Node : Type :=
  | NodeEmpty
  | NodeKeys (type : NodeType) (keys : list Key).

(** The object returned by [buildPlaylistItem]. *)
Record Item : Type := mkItem {
  root : Path;
  paths : list Path;
  data : gmap string Node;
  tracks : list Path;
}.

(** The object held in [_playlistCurrent]. *)
Record Current : Type := mkCurrent {
  item : Z;
  track : Z;
  path : option Path;
}.

(** Messages written with [console.error]. *)
Inductive ConsoleMsg : Type :=
  | ExpectedGroupsOrTracks
  | CouldNotFindTrack (p : Path).

(** The module-level variables, the two [localStorage] entries they are
    mirrored to (held here as the values [JSON.parse] gives back; [None]
    when the entry is absent) and the console. *)
Record Store : Type := mkStore {
  _playlistItems : option (list Item);
  _playlistCurrent : option Current;
  ls_playlistItems : option (list Item);
  ls_playlistCurrent : option (option Current);
  console : list ConsoleMsg;
}.

(** ** State and exception monad

    A computation either returns a value or throws (a [TypeError] on a
    property read of [undefined]); the store is threaded through both. *)
Definition M (A : Type) : Type := Store → option A * Store.

#[global] Instance M_ret : MRet M := λ A a st, (Some a, st).
#[global] Instance M_bind : MBind M := λ A B f m st,
  match m st with
  | (Some a, st') => f a st'
  | (None, st') => (None, st')
  end.

Definition throw {A : Type} : M A := λ st, (None, st).

(** [o.f] on a possibly [undefined] object [o]. *)
Definition defined {A : Type} (o : option A) : M A :=
  match o with
  | Some a => mret a
  | None => throw
  end.

Definition console_error (m : ConsoleMsg) : M unit := λ st,
  (Some tt, mkStore (_playlistItems st) (_playlistCurrent st)
              (ls_playlistItems st) (ls_playlistCurrent st)
              (console st ++ [m])).

(** ** Accessors of the module state *)

Definition setPlaylistItems (items : list Item) : M unit := λ st,
  (Some tt, mkStore (Some items) (_playlistCurrent st)
              (Some items) (ls_playlistCurrent st) (console st)).

Definition getPlaylistItems : M (list Item) := λ st,
  match _playlistItems st with
  | Some items => (Some items, st)
  | None =>
      let items := default [] (ls_playlistItems st) in
      (Some items, mkStore (Some items) (_playlistCurrent st)
                     (ls_playlistItems st) (ls_playlistCurrent st) (console st))
  end.

Definition getPlaylistItem (itemIndex : Z) : M (option Item) :=
  playlistItems ← getPlaylistItems;
  mret (index playlistItems itemIndex).

Definition setPlaylistCurrent (current : option Current) : M unit := λ st,
  (Some tt, mkStore (_playlistItems st) current
              (ls_playlistItems st) (Some current) (console st)).

Definition getPlaylistCurrent : M (option Current) := λ st,
  match _playlistCurrent st with
  | Some c => (Some (Some c), st)
  | None =>
      match ls_playlistCurrent st with
      | None => (Some None, st)
      | Some current =>
          (Some current, mkStore (_playlistItems st) current
                           (ls_playlistItems st) (ls_playlistCurrent st) (console st))
      end
  end.

(** ** Traversal *)

Definition reset : M unit :=
  items ← getPlaylistItems;
  let current :=
    match items with
    | [] => None
    | i0 :: _ => Some (mkCurrent 0 0 (tracks i0 !! 0%nat))
    end in
  setPlaylistCurrent current.

Definition next : M unit :=
  current ← getPlaylistCurrent;
  match current with
  | None => reset
  | Some current =>
      items ← getPlaylistItems;
      it ← defined (index items (item current));
      if bool_decide (track current + 1 < len (tracks it)) then
        let t := track current + 1 in
        setPlaylistCurrent
          (Some (mkCurrent (item current) t (Some (concat (root it) (index (tracks it) t)))))
      else if bool_decide (item current + 1 < len items) then
        let i := item current + 1 in
        it ← defined (index items i);
        setPlaylistCurrent
          (Some (mkCurrent i 0 (Some (concat (root it) (index (tracks it) 0)))))
      else
        (* Overflow - at the end - must be last item. *)
        setPlaylistCurrent None
  end.

Definition prev : M unit :=
  current ← getPlaylistCurrent;
  match current with
  | None => reset
  | Some current =>
      it ← getPlaylistItem (item current);
      it ← defined it;
      if bool_decide (track current > 0) then
        let t := track current - 1 in
        setPlaylistCurrent
          (Some (mkCurrent (item current) t (Some (concat (root it) (index (tracks it) t)))))
      else if bool_decide (item current > 0) then
        let i := item current - 1 in
        it ← getPlaylistItem i;
        it ← defined it;
        let t := len (tracks it) - 1 in
        setPlaylistCurrent
          (Some (mkCurrent i t (Some (concat (root it) (index (tracks it) t)))))
      else mret tt
  end.

Definition canPrev : M bool :=
  current ← getPlaylistCurrent;
  match current with
  | None => mret false
  | Some current =>
      mret (bool_decide (track current > 0) || bool_decide (item current > 0))
  end.

Definition canNext : M bool :=
  current ← getPlaylistCurrent;
  match current with
  | None => mret false
  | Some current =>
      items ← getPlaylistItems;
      it ← defined (index items (item current));
      mret (bool_decide (track current < len (tracks it) - 1)
            || bool_decide (item current < len items - 1))
  end.

(** ** Observations and runs

    What [getPlaylistItems()] and [getPlaylistCurrent()] return in a store,
    the (item, track) pair of the current position, and [k] calls of
    [next] in a row. *)
Definition itemsOf (st : Store) : list Item :=
  default [] (getPlaylistItems st).1.

Definition currentOf (st : Store) : option Current :=
  default None (getPlaylistCurrent st).1.

Definition positionOf (st : Store) : option (Z * Z) :=
  (λ c, (item c, track c)) <$> currentOf st.

Fixpoint nexts (k : nat) : M unit :=
  match k with
  | O => mret tt
  | S k' => next;; nexts k'
  end.

(** Every (item, track) pair of a playlist, items first. *)
Definition positions (items : list Item) : list (Z * Z) :=
  mjoin (imap (λ i it, (λ j, (Z.of_nat i, Z.of_nat j)) <$> seq 0 (length (tracks it)))
           items).

(** The lexicographic order on pairs. *)
Definition lex_lt (p q : Z * Z) : Prop :=
  p.1 < q.1 ∨ (p.1 = q.1 ∧ p.2 < q.2).

(** ** A playlist used in examples

    Two items as expansion builds them: one rooted at [Root, X] with the
    groups [A] (two tracks) and [B] (one track), one rooted at
    [Root, Y], a leaf with one track. Keys of [data] are written as the
    paths joined with [":"]. *)
Definition itemX : Item :=
  mkItem [KStr "Root"; KStr "X"]
    [[]; [KStr "A"]; [KStr "B"]]
    (<["Root:X" := NodeKeys TYPE_GROUP [KStr "A"; KStr "B"]]>
       (<["Root:X:A" := NodeKeys TYPE_TRACKS [KNum 0; KNum 1]]>
          (<["Root:X:B" := NodeKeys TYPE_TRACKS [KNum 0]]> ∅)))
    [[KStr "A"; KNum 0]; [KStr "A"; KNum 1]; [KStr "B"; KNum 0]].

Definition itemY : Item :=
  mkItem [KStr "Root"; KStr "Y"]
    [[]]
    (<["Root:Y" := NodeKeys TYPE_TRACKS [KNum 0]]> ∅)
    [[KNum 0]].

(** What expansion builds for [Root, E], a group without children: an item
    without tracks. *)
Definition itemE : Item :=
  mkItem [KStr "Root"; KStr "E"]
    [[]]
    (<["Root:E" := NodeKeys TYPE_GROUP []]> ∅)
    [].

(** A store holding [itemX] and [itemY] with no current position, the same
    with the current position on the first track, and a store that holds
    [itemE] between the two. *)
Definition storeXY : Store :=
  mkStore (Some [itemX; itemY]) None None None [].

Definition storeXY_playing : Store :=
  mkStore (Some [itemX; itemY])
    (Some (mkCurrent 0 0 (Some [KStr "Root"; KStr "X"; KStr "A"; KNum 0])))
    None None [].

Definition storeXEY : Store :=
  mkStore (Some [itemX; itemE; itemY]) None None None [].

(** ** Removal, expansion and direct selection

    [StringToNumber] is the conversion JavaScript's [==] applies to a
    string compared with a number ([None] when the result is not an
    integer); [pathToKey] and [getCollection] belong to [CollectionStore],
    and a collection exposes [Groups] or [Tracks]. [GroupKey g] is the
    [Key] property of a group. *)
Record Group : Type := mkGroup { GroupKey : Key }.

Record Collection (Track : Type) : Type := mkCollection {
  Groups : option (list Group);
  Tracks : option (list Track);
}.
Arguments mkCollection {Track} _ _.
Arguments Groups {Track} _.
Arguments Tracks {Track} _.

(** The surroundings of the module: the string-to-number conversion of
    the language and the two functions of [CollectionStore]. *)
Class Environment : Type := {
  StringToNumber : string → option Z;
  pathToKey : Path → string;
  Track : Type;
  getCollection : Path → option (Collection Track);
}.

Section CollectionStore.
Context `{Environment}.

(** [a == b] on array slots. *)
Definition looseEq (a b : Key) : bool :=
  match a, b with
  | KStr s, KStr t => bool_decide (s = t)
  | KNum n, KNum m => bool_decide (n = m)
  | KStr s, KNum n | KNum n, KStr s => bool_decide (StringToNumber s = Some n)
  | KUndef, KUndef => true
  | _, _ => false
  end.

(** The [for] loop of [_isPathPrefix]: slot [i] of [path] against slot [i]
    of [prefix], for every slot of [prefix]. *)
Fixpoint isPathPrefix_loop (path prefix : Path) : bool :=
  match prefix with
  | [] => true
  | q :: prefix' =>
      if negb (looseEq (hd KUndef path) q) then false
      else isPathPrefix_loop (tl path) prefix'
  end.

Definition _isPathPrefix (path prefix : Path) : bool :=
  if bool_decide (len prefix > len path) then false
  else isPathPrefix_loop path prefix.

Definition _pathsEqual (p1 p2 : Path) : bool :=
  bool_decide (len p1 = len p2) && _isPathPrefix p1 p2.

(** [a.indexOf(x)]: first slot strictly equal to [x], or [-1]. *)
Fixpoint indexOf_from (i : Z) (a : list Key) (x : Key) : Z :=
  match a with
  | [] => -1
  | y :: a' => if bool_decide (y = x) then i else indexOf_from (i + 1) a' x
  end.

Definition indexOf (a : list Key) (x : Key) : Z := indexOf_from 0 a x.

(** [a.splice(start, 1)]: a negative [start] counts from the end. *)
Definition splice1 {A : Type} (a : list A) (start : Z) : list A :=
  let s := if decide (start < 0) then Z.max (len a + start) 0
           else Z.min start (len a) in
  delete (Z.to_nat s) a.

(** The [while] loop of [_removeTracks]; every turn either splices one
    element out or advances [i], so [length tracks] turns are enough. *)
Fixpoint removeTracks_loop (fuel i : nat) (tracks : list Path) (path : Path)
    : list Path :=
  match fuel with
  | O => tracks
  | S fuel' =>
      match tracks !! i with
      | None => tracks
      | Some t =>
          if _isPathPrefix t path
          then removeTracks_loop fuel' i (delete i tracks) path
          else removeTracks_loop fuel' (S i) tracks path
      end
  end.

Definition _removeTracks (tracks : list Path) (path : Path) : list Path :=
  removeTracks_loop (length tracks) 0 tracks path.

Fixpoint removePaths_loop (fuel i : nat) (paths : list Path)
    (data : gmap string Node) (path : Path) : list Path * gmap string Node :=
  match fuel with
  | O => (paths, data)
  | S fuel' =>
      match paths !! i with
      | None => (paths, data)
      | Some p =>
          if _isPathPrefix p path
          then removePaths_loop fuel' i (delete i paths)
                 (delete (pathToKey p) data) path
          else removePaths_loop fuel' (S i) paths data path
      end
  end.

Definition _removePaths (paths : list Path) (data : gmap string Node)
    (path : Path) : list Path * gmap string Node :=
  removePaths_loop (length paths) 0 paths data path.

Definition _removeItem (items : list Item) (itemIndex : Z) : list Item :=
  splice1 items itemIndex.

(** What [item.data[key]] is to the tests of [remove]. [item.data] is a
    plain object, made by [{}] in [buildPlaylistItem] or by [JSON.parse],
    so a key it has no property of its own for is looked up in
    [Object.prototype]. The property [constructor] found there is the
    function [Object], which has a property [keys], the function
    [Object.keys]. Every other property found there ([toString],
    [valueOf], [hasOwnProperty], [__proto__], ...) is a value without a
    property [keys], which the test [!data || !data.keys] treats like
    [undefined]. *)
Inductive Property : Type :=
  | OwnRecord (x : Node)
  | TheObjectFunction
  | NoKeys.

Definition dataProperty (data : gmap string Node) (key : string) : Property :=
  match data !! key with
  | Some x => OwnRecord x
  | None =>
      if bool_decide (key = "constructor"%string) then TheObjectFunction else NoKeys
  end.

(** How the [do ... while] loop of [remove] leaves the item: spliced out of
    the playlist, kept with its (mutated) fields, or left with the fields
    as mutated so far by a [TypeError]: where [data] is the function
    [Object], [data.keys.indexOf] is [undefined] and the call of it
    throws. *)
Inductive Removal : Type :=
  | ItemRemoved
  | ItemKept (it : Item)
  | ItemThrown (it : Item).

(** One pass shortens [path] by one key and the loop goes on only while
    [path.length > 1], so [S (length path)] passes are enough; [None] is
    the loop running out of them. *)
Fixpoint remove_loop (fuel : nat) (it : Item) (path : Path) : option Removal :=
  match fuel with
  | O => None
  | S fuel' =>
      if _pathsEqual path (root it) then Some ItemRemoved
      else
        let tracks' := _removeTracks (tracks it) path in
        let '(paths', data') := _removePaths (paths it) (data it) path in
        let last := List.last path KUndef in
        let path := removelast path in
        match dataProperty data' (pathToKey path) with
        | OwnRecord (NodeKeys ty keys) =>
            let keys' := splice1 keys (indexOf keys last) in
            let it' := mkItem (root it) paths'
                         (<[pathToKey path := NodeKeys ty keys']> data') tracks' in
            if bool_decide (len keys' = 0) && bool_decide (len path > 1)
            then remove_loop fuel' it' path
            else Some (ItemKept it')
        | OwnRecord NodeEmpty | NoKeys =>
            Some (ItemKept (mkItem (root it) paths' data' tracks'))
        | TheObjectFunction =>
            Some (ItemThrown (mkItem (root it) paths' data' tracks'))
        end
  end.

(** The array [_playlistItems] holds after a mutation in place of it or of
    its items: the variable shows the change, [localStorage] does not. *)
Definition mutatedInPlace (items : list Item) : M unit := λ st,
  (Some tt, mkStore (Some items) (_playlistCurrent st)
              (ls_playlistItems st) (ls_playlistCurrent st) (console st)).

(** [None] in the result stands for the loop not having finished. The
    loop works on the item held in [_playlistItems]: when it throws, the
    item stays as mutated so far, and neither [setPlaylistCurrent(null)] nor
    [setPlaylistItems(items)] is reached. *)
Definition remove (itemIndex : Z) (path : Path) : M (option unit) :=
  items ← getPlaylistItems;
  it ← defined (index items itemIndex);
  match remove_loop (S (length path)) it path with
  | None => mret None
  | Some ItemRemoved =>
      setPlaylistCurrent None;;
      setPlaylistItems (_removeItem items itemIndex);;
      mret (Some tt)
  | Some (ItemKept it') =>
      setPlaylistCurrent None;;
      setPlaylistItems (<[Z.to_nat itemIndex := it']> items);;
      mret (Some tt)
  | Some (ItemThrown it') =>
      mutatedInPlace (<[Z.to_nat itemIndex := it']> items);;
      throw
  end.

(** The [for] loop of [setCurrent]: the first [i] whose track has the key
    [key], or [-1]. *)
Fixpoint setCurrent_loop (i : Z) (root : Path) (tracks : list Path)
    (key : string) : Z :=
  match tracks with
  | [] => -1
  | t :: tracks' =>
      if bool_decide (pathToKey (concat root (Some t)) = key) then i
      else setCurrent_loop (i + 1) root tracks' key
  end.

Definition setCurrent (itemIndex : Z) (path : Path) : M unit :=
  it ← getPlaylistItem itemIndex;
  let key := pathToKey path in
  it ← defined it;
  let track := setCurrent_loop 0 (root it) (tracks it) key in
  (if bool_decide (track = -1) then console_error (CouldNotFindTrack path)
   else mret tt);;
  setPlaylistCurrent (Some (mkCurrent itemIndex track (Some path))).

(** ** Expansion *)

(** The variables of [buildPlaylistItem] that its loop updates. *)
Record Build : Type := mkBuild {
  queue : list Path;
  b_tracks : list Path;
  b_data : gmap string Node;
  b_paths : list Path;
}.

(** [c.Groups.map(getGroupKey(p))]: the keys, and the paths pushed on the
    queue. *)
Definition groupKeys (gs : list Group) : list Key := GroupKey <$> gs.
Definition groupPaths (p : Path) (gs : list Group) : list Path :=
  (λ g, p ++ [GroupKey g]) <$> gs.

(** [c.Tracks.map(getTrackKey(p))]: the keys [0, 1, ...], and the paths
    pushed on [tracks]. *)
Definition trackKeys (ts : list Track) : list Key :=
  imap (λ i _, KNum (Z.of_nat i)) ts.
Definition trackPaths (p : Path) (ts : list Track) : list Path :=
  imap (λ i _, p ++ [KNum (Z.of_nat i)]) ts.

(** The [while (queue.length > 0)] loop; the inner [None] is the loop not
    having emptied the queue within [fuel] turns. *)
Fixpoint build_loop (fuel : nat) (root : Path) (b : Build) : M (option Build) :=
  match queue b with
  | [] => mret (Some b)
  | p :: queue' =>
      match fuel with
      | O => mret None
      | S fuel' =>
          let rp := root ++ p in
          c ← defined (getCollection rp);
          '(x, queue'', tracks') ←
            match Groups c, Tracks c with
            | Some gs, _ =>
                mret (NodeKeys TYPE_GROUP (groupKeys gs),
                      queue' ++ groupPaths p gs, b_tracks b)
            | None, Some ts =>
                mret (NodeKeys TYPE_TRACKS (trackKeys ts),
                      queue', b_tracks b ++ trackPaths p ts)
            | None, None =>
                console_error ExpectedGroupsOrTracks;;
                mret (NodeEmpty, queue', b_tracks b)
            end;
          build_loop fuel' root
            (mkBuild queue'' tracks' (<[pathToKey rp := x]> (b_data b))
               (b_paths b ++ [p]))
      end
  end.

Definition buildPlaylistItem (fuel : nat) (root : Path) : M (option Item) :=
  b ← build_loop fuel root (mkBuild [[]] [] ∅ []);
  mret ((λ b, mkItem root (b_paths b) (b_data b) (b_tracks b)) <$> b).

End CollectionStore.

(** ** Surroundings used in examples

    Strings of decimal digits convert to the number they spell and no
    other string converts (the language accepts more, none of which the
    examples use); a key is the path joined with [":"]; the catalog holds
    the subtrees the items [itemX], [itemY] and [itemE] were expanded
    from. *)
Definition decimalToNumber (s : string) : option Z :=
  Z.of_uint <$> NilEmpty.uint_of_string s.

Definition keyToString (k : Key) : string :=
  match k with
  | KStr s => s
  | KNum n => pretty n
  | KUndef => ""
  end.

Definition joinPath (p : Path) : string :=
  String.concat ":" (keyToString <$> p).

Definition catalog (p : Path) : option (Collection unit) :=
  if decide (p = [KStr "Root"; KStr "X"]) then
    Some (mkCollection (Some [mkGroup (KStr "A"); mkGroup (KStr "B")]) None)
  else if decide (p = [KStr "Root"; KStr "X"; KStr "A"]) then
    Some (mkCollection None (Some [(); ()]))
  else if decide (p = [KStr "Root"; KStr "X"; KStr "B"]) then
    Some (mkCollection None (Some [()]))
  else if decide (p = [KStr "Root"; KStr "Y"]) then
    Some (mkCollection None (Some [()]))
  else if decide (p = [KStr "Root"; KStr "E"]) then
    Some (mkCollection (Some []) None)
  else None.

Definition exampleEnvironment : Environment :=
  {| StringToNumber := decimalToNumber;
     pathToKey := joinPath;
     Track := unit;
     getCollection := catalog |}.

(** ** The public interface

    [getItemKeys] reads the record filed for a node of an item. [getNext]
    and [currentTrack] hand a path to [trackForPath], which looks the
    track up in [CollectionStore]; they are given here for whatever
    [trackForPath] does with the path and returns. *)
Section Interface.
Context `{Environment}.

Definition getItemKeys (index : Z) (path : Path) : M (option Node) :=
  it ← getPlaylistItem index;
  let key := pathToKey path in
  it ← defined it;
  mret (data it !! key).

Context {Found : Type} (trackForPath : Path → M (option Found)).

Definition getNext : M (option Found) :=
  current ← getPlaylistCurrent;
  match current with
  | None => mret None
  | Some current =>
      it ← getPlaylistItem (item current);
      it ← defined it;
      if bool_decide (track current < len (tracks it) - 1) then
        trackForPath (concat (root it) (index (tracks it) (track current + 1)))
      else mret None
  end.

(** [current.path.slice(0)] throws when the position has no path. *)
Definition currentTrack : M (option Found) :=
  current ← getPlaylistCurrent;
  match current with
  | None => mret None
  | Some current =>
      p ← defined (path current);
      trackForPath p
  end.

End Interface.

(** ** The callback registered with the dispatcher *)

(** The values of the constants the callback compares with; they are
    defined in [ControlApiConstants], [NowPlayingConstants],
    [PlaylistConstants] and [CollectionConstants]. *)
Class Constants : Type := {
  ControlApi_CTRL : string;
  ControlApi_NEXT : string;
  ControlApi_PREV : string;
  NowPlaying_ENDED : string;
  Playlist_NEXT : string;
  Playlist_PREV : string;
  Playlist_REMOVE : string;
  Playlist_PLAY_ITEM : string;
  Collection_APPEND_TO_PLAYLIST : string;
  Collection_PLAY_NOW : string;
}.

(** An action with the properties the callback reads, each of them only
    for the action types that carry it, and the payload it comes in. *)
Record Action : Type := mkAction {
  actionType : string;
  a_data : string;
  a_source : string;
  itemIndex : Z;
  a_path : Path;
}.

Record Payload : Type := mkPayload {
  p_source : string;
  p_action : Action;
}.

(** The store together with the number of times [emitChange] was called. *)
Record Emitting : Type := mkEmitting {
  store : Store;
  emitted : nat;
}.

Definition D (A : Type) : Type := Emitting → option A * Emitting.

#[global] Instance D_ret : MRet D := λ A a s, (Some a, s).
#[global] Instance D_bind : MBind D := λ A B f m s,
  match m s with
  | (Some a, s') => f a s'
  | (None, s') => (None, s')
  end.

(** A function of the store, called from the callback. *)
Definition call {A : Type} (m : M A) : D A := λ s,
  let '(r, st) := m (store s) in (r, mkEmitting st (emitted s)).

Definition emitChange : D unit := λ s,
  (Some tt, mkEmitting (store s) (S (emitted s))).

Section Dispatcher.
Context `{Environment} `{Constants}.

(** The [switch (action.data)] of a server action. *)
Definition serverAction (action : Action) : D unit :=
  if bool_decide (actionType action = ControlApi_CTRL) then
    if bool_decide (a_data action = ControlApi_NEXT) then
      call next;; emitChange
    else if bool_decide (a_data action = ControlApi_PREV) then
      call prev;; emitChange
    else mret tt
  else mret tt.

(** The [switch (action.actionType)] of a view action: the cases are tried
    in the order they are written, and [ENDED] falls through to [NEXT]
    when the source of the action is the playlist. The inner [None] is
    [buildPlaylistItem] not having finished within [fuel] turns. *)
Definition viewAction (fuel : nat) (action : Action) : D (option unit) :=
  let t := actionType action in
  if bool_decide (t = NowPlaying_ENDED) then
    if bool_decide (a_source action ≠ "playlist"%string) then mret (Some tt)
    else call next;; emitChange;; mret (Some tt)
  else if bool_decide (t = Playlist_NEXT) then
    call next;; emitChange;; mret (Some tt)
  else if bool_decide (t = Playlist_PREV) then
    call prev;; emitChange;; mret (Some tt)
  else if bool_decide (t = Playlist_REMOVE) then
    r ← call (remove (itemIndex action) (a_path action));
    match r with
    | None => mret None
    | Some _ => emitChange;; mret (Some tt)
    end
  else if bool_decide (t = Collection_APPEND_TO_PLAYLIST) then
    items ← call getPlaylistItems;
    it ← call (buildPlaylistItem fuel (a_path action));
    match it with
    | None => mret None
    | Some it =>
        call (setPlaylistItems (items ++ [it]));;
        emitChange;; mret (Some tt)
    end
  else if bool_decide (t = Collection_PLAY_NOW) then
    items ← call getPlaylistItems;
    it ← call (buildPlaylistItem fuel (a_path action));
    match it with
    | None => mret None
    | Some it =>
        call (setPlaylistItems (it :: items));;
        call reset;;
        emitChange;; mret (Some tt)
    end
  else if bool_decide (t = Playlist_PLAY_ITEM) then
    call (setCurrent (itemIndex action) (a_path action));;
    emitChange;; mret (Some tt)
  else mret (Some tt).

(** The function handed to [AppDispatcher.register]; it returns [true]. *)
Definition callback (fuel : nat) (payload : Payload) : D (option bool) :=
  let action := p_action payload in
  let source := p_source payload in
  (if bool_decide (source = "SERVER_ACTION"%string) then serverAction action
   else mret tt);;
  r ← (if bool_decide (source = "VIEW_ACTION"%string) then viewAction fuel action
       else mret (Some tt));
  mret ((λ _, true) <$> r).

End Dispatcher.

(** Constants used in examples. *)
Definition exampleConstants : Constants :=
  {| ControlApi_CTRL := "CTRL";
     ControlApi_NEXT := "NEXT";
     ControlApi_PREV := "PREV";
     NowPlaying_ENDED := "ENDED";
     Playlist_NEXT := "PLAYLIST_NEXT";
     Playlist_PREV := "PLAYLIST_PREV";
     Playlist_REMOVE := "REMOVE";
     Playlist_PLAY_ITEM := "PLAY_ITEM";
     Collection_APPEND_TO_PLAYLIST := "APPEND_TO_PLAYLIST";
     Collection_PLAY_NOW := "PLAY_NOW" |}.

End PlaylistStore.

(** * The playlist as the server sends it (PlaylistStore.js, first part)

    The store keeps the items of the playlist as the server describes
    them, a path with a list of transforms, and answers which keys of a
    collection an item still shows. The collections have the fields
    [groups] and [tracks] and a group the field [key]; they are the fields
    [Groups], [Tracks] and [GroupKey] here. *)

Module ServerPlaylist.
Import PlaylistStore.

Record Transform : Type := mkTransform {
  action : string;
  path : Path;
}.

(** The value of [_transforms]: [null], [undefined] or an array. *)
Inductive Transforms : Type :=
  | TransformsNull
  | TransformsUndefined
  | TransformsArray (l : list Transform).

Record Item : Type := mkItem {
  _path : Path;
  _transforms : Transforms;
}.

Record Playlist : Type := mkPlaylist {
  _items : list Item;
  _cursor : option unit;
}.

(** [new Playlist()]. *)
Definition newPlaylist : Playlist := mkPlaylist [] None.

Definition addItem (it : Item) (p : Playlist) : Playlist :=
  mkPlaylist (_items p ++ [it]) (_cursor p).

Definition clear (p : Playlist) : Playlist := mkPlaylist [] (_cursor p).

Definition items (p : Playlist) : list Item := _items p.

Definition cursor (p : Playlist) : option unit := _cursor p.

Section Store.
Context `{Environment}.

(** The inner loop of [transform]: whether some transform with the action
    ["remove"] has a path with the key [k]. *)
Fixpoint transform_skip (ts : list Transform) (k : string) : bool :=
  match ts with
  | [] => false
  | t :: ts' =>
      if bool_decide (action t = "remove"%string) then
        if bool_decide (pathToKey (path t) = k) then true
        else transform_skip ts' k
      else transform_skip ts' k
  end.

(** The outer loop of [transform], with the array [result] built so far. *)
Fixpoint transform_loop (ts : list Transform) (root : Path) (keys : list Key)
    (result : list Key) : list Key :=
  match keys with
  | [] => result
  | key :: keys' =>
      let k := pathToKey (root ++ [key]) in
      transform_loop ts root keys'
        (if transform_skip ts k then result else result ++ [key])
  end.

(** [None] is the [TypeError] of reading [length] of [undefined], which
    the first turn of the outer loop does. *)
Definition transform (it : Item) (root : Path) (keys : list Key)
    : option (list Key) :=
  match _transforms it with
  | TransformsNull => Some keys
  | TransformsUndefined =>
      match keys with
      | [] => Some []
      | _ :: _ => None
      end
  | TransformsArray ts => Some (transform_loop ts root keys [])
  end.

Definition getKeys (path : Path) : list Key :=
  match getCollection path with
  | None => []
  | Some c =>
      let keys := [] in
      let keys := match Tracks c with
                  | Some ts => trackKeys ts
                  | None => keys
                  end in
      let keys := match Groups c with
                  | Some gs => groupKeys gs
                  | None => keys
                  end in
      keys
  end.

Definition getPlaylist (p : Playlist) : list Item := items p.

(** [_playlist.items()[i]]. *)
Definition itemAt (p : Playlist) (i : Z) : option Item := index (items p) i.

(** [None] is a [TypeError]: no item at [index], or one thrown by
    [transform]. *)
Definition getItemKeys (p : Playlist) (index : Z) (path : Path)
    : option (list Key) :=
  let keys := getKeys path in
  it ← itemAt p index;
  transform it path keys.

End Store.

(** What the server sends for an item, and the [data] of a playlist
    action: [items] may be missing. *)
Record ItemData : Type := mkItemData {
  d_path : Path;
  d_transforms : Transforms;
}.

(** How the callback ends: it has returned [true], having called
    [emitChange] or not, or it has thrown. *)
Inductive Ending : Type :=
  | Returned (emitChange : bool)
  | Thrown.

(** The callback registered with the dispatcher. [data] is [action.data],
    [None] when the action has none, and its [items] may be missing. A
    server action of the type [PlaylistConstants.PLAYLIST] replaces the
    items and calls [emitChange]; the view actions do nothing yet. *)
Definition callback (PLAYLIST : string) (source actionType : string)
    (data : option (option (list ItemData))) (p : Playlist) : Playlist * Ending :=
  if bool_decide (source = "SERVER_ACTION"%string) then
    if bool_decide (actionType = PLAYLIST) then
      let p := clear p in
      match data with
      | None => (p, Thrown)
      | Some data_items =>
          let sent := default [] data_items in
          (foldl (λ p d, addItem (mkItem (d_path d) (d_transforms d)) p) p sent,
           Returned true)
      end
    else (p, Returned false)
  else (p, Returned false).

End ServerPlaylist.

(** * The path lists (PlaylistStore.js, second part)

    [_pathLists] is an object used as a map from names to arrays. The
    names are taken to be none of the properties that every object
    inherits ([constructor], [toString], ...), which [_pathLists[name]]
    would find although nothing was filed under them. *)

Module PathListStore.

Section Store.
Context {Group : Type}.

(** The [list] handed to [setPathList]: [null], [undefined] or an object
    whose [groups] is an array or missing. *)
Inductive PathList : Type :=
  | ListNull
  | ListUndefined
  | ListObject (groups : option (list Group)).

(** [None] is the [TypeError] of reading [groups] of [undefined]. *)
Definition setPathList (name : string) (pathList : PathList)
    (_pathLists : gmap string (list Group)) : option (gmap string (list Group)) :=
  match pathList with
  | ListNull => Some (delete name _pathLists)
  | ListUndefined => None
  | ListObject (Some groups) => Some (<[name := groups]> _pathLists)
  | ListObject None => Some (delete name _pathLists)
  end.

Definition getPaths (name : string) (_pathLists : gmap string (list Group))
    : list Group * gmap string (list Group) :=
  match _pathLists !! name with
  | Some groups => (groups, _pathLists)
  | None => ([], <[name := []]> _pathLists)
  end.

End Store.

Arguments PathList : clear implicits.

End PathListStore.

(** * The websocket command handler (websocket.go) *)

Module Websocket.

(** [index.Key] is a string type and [index.Path] a slice of keys. *)
Abbreviation Path := (list string).

(** The types of the packages the file is compiled against ([index],
    [cursor], [playlist], [player], [websocket]) and of the rest of package
    [main]. [World] is the state behind the pointers a handler holds
    ([players], [lib], [meta]); [ExtError] the errors those packages
    return; the last five are what ends up in a [Response]. *)
Class Types : Type := {
  float64 : Type;
  ExtError : Type;
  World : Type;
  Conn : Type;
  Player : Type;
  Collection : Type;
  FilterItem : Type;
  group : Type;
  PlayerList : Type;
  CursorRep : Type;
  PlaylistRep : Type;
}.

Section Data.
Context `{Types}.

#[local] Set Warnings "-register-all".

(** A value decoded from JSON into [interface{}]. *)
Inductive Value : Type :=
  | VNil
  | VBool (b : bool)
  | VFloat (x : float64)
  | VString (s : string)
  | VSlice (l : list Value)
  | VMap (m : list (string * Value)).

(** What [%T] prints for a value. *)
Definition typeName (v : Value) : string :=
  match v with
  | VNil => "<nil>"
  | VBool _ => "bool"
  | VFloat _ => "float64"
  | VString _ => "string"
  | VSlice _ => "[]interface {}"
  | VMap _ => "map[string]interface {}"
  end.

(** Command is a type which is a container for data received from the
    websocket. *)
Record Command : Type := mkCommand {
  Action : string;
  Data : gmap string Value;
}.

(** The values handlers put in [Response.Data]. *)
Inductive Payload : Type :=
  | PlayersData (l : PlayerList)
  | CursorData (c : CursorRep)
  | PlaylistData (p : PlaylistRep)
  | CollectionListData (p : Path) (item : group)
  | FilterListData (name : string) (items : list string)
  | FilterPathsData (p : Path) (paths : group)
  | PathListData (name : string) (data : group)
  | GroupData (g : group).

Record Response : Type := mkResponse {
  RAction : string;
  RData : Payload;
}.

(** The errors of the file, one constructor per [fmt.Errorf] format. *)
Inductive error : Type :=
  | EOF
  | ExpectedInDataMap (f : string)
  | ExpectedType (f want got : string)
  | ReceiveError (e : error)
  | SendError (e : error)
  | UnknownAction (a : string)
  | InvalidPlayerKey (key : string)
  | InvalidPath (p : Path)
  | UnknownCollection (k : string)
  | ErrorInFetch (e : ExtError) (p : Path)
  | InvalidFilterName (n : string)
  | InvalidFilterItem (n : string)
  | External (e : ExtError).

(** [err == io.EOF]. *)
Definition isEOF (err : error) : bool :=
  match err with
  | EOF => true
  | _ => false
  end.

End Data.

(** The functions of those packages that the file calls. *)
Class Externals `{Types} : Type := {
  float64_zero : float64;
  float64_to_int : float64 → Z;
  PathFromJSONInterface : Value → Path * option ExtError;
  Searcher_Search : World → string → list Path;
  players_Remove : string → World → World;
  players_Add : string → Conn → World → World;
  players_Get : string → World → option Player;
  players_List : World → PlayerList;
  player_Apply : string → Value → Player → World → option ExtError * World;
  history_Add : Path → World → option ExtError * World;
  favourites_Set : Path → bool → World → option ExtError * World;
  checklist_Set : Path → bool → World → option ExtError * World;
  favourites_List : World → list Path;
  checklist_List : World → list Path;
  cursor_Apply : string → string → Path → Z → World → option ExtError * World;
  cursors_Get : string → World → CursorRep;
  playlist_Apply : string → string → Path → Z → World → option ExtError * World;
  playlists_Get : string → World → PlaylistRep;
  lib_collections : World → string → option Collection;
  lib_filters : World → string → option (list FilterItem);
  lib_recent : World → list Path;
  lib_Fetch : World → Collection → Path → group * option ExtError;
  lib_ExpandPaths : World → list Path → group;
  annotateFavourites : World → Path → group → group;
  annotateChecklist : World → Path → group → group;
  CollectionPaths : option Collection → Path → list Path;
  FilterItem_Name : FilterItem → string;
  FilterItem_Paths : FilterItem → list Path;
  Sprintf_v : Path → string;
  JSON_Receive : Conn → (Command + error) * Conn;
  JSON_Send : Response → Conn → option error * Conn;
}.

Section Handler.
Context `{Externals}.

(** ** Field extraction *)

Definition get (c : Command) (f : string) : Value * option error :=
  match Data c !! f with
  | None => (VNil, Some (ExpectedInDataMap f))
  | Some raw => (raw, None)
  end.

Definition getString (c : Command) (f : string) : string * option error :=
  match get c f with
  | (_, Some err) => (""%string, Some err)
  | (raw, None) =>
      match raw with
      | VString value => (value, None)
      | _ => (""%string, Some (ExpectedType f "string" (typeName raw)))
      end
  end.

Definition getFloat (c : Command) (f : string) : float64 * option error :=
  match get c f with
  | (_, Some err) => (float64_zero, Some err)
  | (raw, None) =>
      match raw with
      | VFloat value => (value, None)
      | _ => (float64_zero, Some (ExpectedType f "float64" (typeName raw)))
      end
  end.

Definition getInt (c : Command) (f : string) : Z * option error :=
  match getFloat c f with
  | (_, Some err) => (0, Some err)
  | (raw, None) => (float64_to_int raw, None)
  end.

Definition getBool (c : Command) (f : string) : bool * option error :=
  match get c f with
  | (_, Some err) => (false, Some err)
  | (raw, None) =>
      match raw with
      | VBool value => (value, None)
      | _ => (false, Some (ExpectedType f "bool" (typeName raw)))
      end
  end.

Definition getPath (c : Command) (f : string) : Path * option error :=
  match get c f with
  | (_, Some err) => ([], Some err)
  | (raw, None) =>
      let '(p, err) := PathFromJSONInterface raw in (p, External <$> err)
  end.

(** ** The search wrapper *)

Record sameSearcher : Type := mkSameSearcher {
  paths : list Path;
  same : bool;
}.

(** The [for i, path := range r.paths] loop of [Search]: [Some b] is the
    value [r.same] ends with, [None] an index out of range. *)
Fixpoint Search_loop (i : nat) (rpaths paths : list Path) : option bool :=
  match rpaths with
  | [] => Some true
  | path :: rpaths' =>
      a ← path !! 1%nat;
      q ← paths !! i;
      b ← q !! 1%nat;
      if bool_decide (a ≠ b) then Some false
      else Search_loop (S i) rpaths' paths
  end.

(** [found] is the local [paths], the result of the wrapped searcher;
    [None] is the run-time panic. *)
Definition Search (input : string) (w : World) (r : sameSearcher)
    : option (list Path * sameSearcher) :=
  let found := Searcher_Search w input in
  same ← (if bool_decide (length (paths r) = length found)
          then Search_loop 0 (paths r) found
          else Some false);
  Some (found, mkSameSearcher found same).

(** ** The handler *)

(** The fields of [websocketHandler], the world its pointers lead to, and
    two records of what it did: the responses handed to [JSON.Send] and
    the errors logged. *)
Record websocketHandler : Type := mkHandler {
  conn : Conn;
  world : World;
  searcher : sameSearcher;
  playerKey : string;
  sent : list Response;
  logged : list error;
}.

Definition setWorld (w : World) (h : websocketHandler) : websocketHandler :=
  mkHandler (conn h) w (searcher h) (playerKey h) (sent h) (logged h).

Definition setConn (c : Conn) (h : websocketHandler) : websocketHandler :=
  mkHandler c (world h) (searcher h) (playerKey h) (sent h) (logged h).

(** What a handler method hands back: [(resp, err)] and the handler as it
    left it, or a panic. *)
Inductive Outcome : Type :=
  | Returned (resp : option Response) (err : option error) (h : websocketHandler)
  | Panicked.

Definition fromExt (r : option ExtError * World) (h : websocketHandler) : Outcome :=
  Returned None (External <$> r.1) (setWorld r.2 h).

Definition player (c : Command) (h : websocketHandler) : Outcome :=
  match getString c "action" with
  | (_, Some err) => Returned None (Some err) h
  | (action, None) =>
      if bool_decide (action = "LIST"%string) then
        Returned (Some (mkResponse (Action c) (PlayersData (players_List (world h)))))
          None h
      else
        match getString c "key" with
        | (_, Some err) => Returned None (Some err) h
        | (key, None) =>
            match players_Get key (world h) with
            | None => Returned None (Some (InvalidPlayerKey key)) h
            | Some p =>
                fromExt (player_Apply action (default VNil (Data c !! "value")) p
                           (world h)) h
            end
        end
  end.

Definition key (c : Command) (h : websocketHandler) : Outcome :=
  match getString c "key" with
  | (_, Some err) => Returned None (Some err) h
  | (key, None) =>
      let w := players_Remove (playerKey h) (world h) in
      let w := if bool_decide (key ≠ ""%string) then players_Add key (conn h) w
               else w in
      Returned None None (mkHandler (conn h) w (searcher h) key (sent h) (logged h))
  end.

Definition recordPlay (c : Command) (h : websocketHandler) : Outcome :=
  match getPath c "path" with
  | (_, Some err) => Returned None (Some err) h
  | (p, None) => fromExt (history_Add p (world h)) h
  end.

Definition setFavourite (c : Command) (h : websocketHandler) : Outcome :=
  match getPath c "path" with
  | (_, Some err) => Returned None (Some err) h
  | (p, None) =>
      match getBool c "value" with
      | (_, Some err) => Returned None (Some err) h
      | (value, None) => fromExt (favourites_Set p value (world h)) h
      end
  end.

Definition setChecklist (c : Command) (h : websocketHandler) : Outcome :=
  match getPath c "path" with
  | (_, Some err) => Returned None (Some err) h
  | (p, None) =>
      match getBool c "value" with
      | (_, Some err) => Returned None (Some err) h
      | (value, None) => fromExt (checklist_Set p value (world h)) h
      end
  end.

Definition cursor (c : Command) (h : websocketHandler) : Outcome :=
  match getString c "name" with
  | (_, Some err) => Returned None (Some err) h
  | (name, None) =>
      match getString c "action" with
      | (_, Some err) => Returned None (Some err) h
      | (action, None) =>
          let reply h :=
            Returned (Some (mkResponse (Action c) (CursorData (cursors_Get name (world h)))))
              None h in
          if bool_decide (action ≠ "FETCH"%string) then
            let '(path, _) := getPath c "path" in
            let '(index, _) := getInt c "index" in
            match cursor_Apply name action path index (world h) with
            | (Some err, w) => Returned None (Some (External err)) (setWorld w h)
            | (None, w) => reply (setWorld w h)
            end
          else reply h
      end
  end.

Definition playlist (c : Command) (h : websocketHandler) : Outcome :=
  match getString c "name" with
  | (_, Some err) => Returned None (Some err) h
  | (name, None) =>
      match getString c "action" with
      | (_, Some err) => Returned None (Some err) h
      | (action, None) =>
          let reply h :=
            Returned (Some (mkResponse (Action c) (PlaylistData (playlists_Get name (world h)))))
              None h in
          if bool_decide (action ≠ "FETCH"%string) then
            match getPath c "path" with
            | (_, Some err) => Returned None (Some err) h
            | (path, None) =>
                let '(index, _) := getInt c "index" in
                match playlist_Apply name action path index (world h) with
                | (Some err, w) => Returned None (Some (External err)) (setWorld w h)
                | (None, w) => reply (setWorld w h)
                end
            end
          else reply h
      end
  end.

Definition collectionList (c : Command) (h : websocketHandler) : Outcome :=
  match getPath c "path" with
  | (_, Some err) => Returned None (Some err) h
  | (p, None) =>
      match p with
      | [] => Returned None (Some (InvalidPath p)) h
      | p0 :: rest =>
          match lib_collections (world h) p0 with
          | None => Returned None (Some (UnknownCollection p0)) h
          | Some root =>
              match lib_Fetch (world h) root rest with
              | (_, Some err) => Returned None (Some (ErrorInFetch err rest)) h
              | (g, None) =>
                  let g := annotateFavourites (world h) p g in
                  let g := annotateChecklist (world h) p g in
                  Returned (Some (mkResponse (Action c) (CollectionListData p g)))
                    None h
              end
          end
      end
  end.

Definition filterList (c : Command) (h : websocketHandler) : Outcome :=
  match getString c "name" with
  | (_, Some err) => Returned None (Some err) h
  | (filterName, None) =>
      match lib_filters (world h) filterName with
      | None => Returned None (Some (InvalidFilterName filterName)) h
      | Some filterItems =>
          let filterNames := FilterItem_Name <$> filterItems in
          Returned (Some (mkResponse (Action c) (FilterListData filterName filterNames)))
            None h
      end
  end.

Definition filterPaths (c : Command) (h : websocketHandler) : Outcome :=
  match getPath c "path" with
  | (_, Some err) => Returned None (Some err) h
  | (path, None) =>
      match getString c "name" with
      | (_, Some err) => Returned None (Some err) h
      | (filterName, None) =>
          match lib_filters (world h) filterName with
          | None => Returned None (Some (InvalidFilterName filterName)) h
          | Some filterItems =>
              match path with
              | [name] =>
                  match List.find (λ x, bool_decide (FilterItem_Name x = name))
                          filterItems with
                  | None => Returned None (Some (InvalidFilterItem name)) h
                  | Some item =>
                      Returned
                        (Some (mkResponse (Action c)
                                 (FilterPathsData [filterName; name]
                                    (lib_ExpandPaths (world h) (FilterItem_Paths item)))))
                        None h
                  end
              | _ => Returned None (Some (InvalidPath path)) h
              end
          end
      end
  end.

(** NB: matches paths based only on the first two keys. *)
Definition filterByRootLister (l : list Path) (paths : list Path) : list Path :=
  let exp : gset string :=
    foldl (λ exp p, if bool_decide (1 < length p)%nat
                    then {[Sprintf_v (take 2 p)]} ∪ exp else exp) ∅ l in
  List.filter (λ p, bool_decide (Sprintf_v p ∈ exp)) paths.

Definition fetchPathList (c : Command) (h : websocketHandler) : Outcome :=
  match getString c "name" with
  | (_, Some err) => Returned None (Some err) h
  | (name, None) =>
      let w := world h in
      let paths :=
        if bool_decide (name = "recent"%string) then lib_recent w
        else if bool_decide (name = "favourite"%string) then
          filterByRootLister (favourites_List w)
            (CollectionPaths (lib_collections w "Root") ["Root"%string])
        else if bool_decide (name = "checklist"%string) then
          filterByRootLister (checklist_List w)
            (CollectionPaths (lib_collections w "Root") ["Root"%string])
        else [] in
      Returned (Some (mkResponse (Action c) (PathListData name (lib_ExpandPaths w paths))))
        None h
  end.

Definition search (c : Command) (h : websocketHandler) : Outcome :=
  match getString c "input" with
  | (_, Some err) => Returned None (Some err) h
  | (input, None) =>
      match Search input (world h) (searcher h) with
      | None => Panicked
      | Some (paths, r) =>
          let h := mkHandler (conn h) (world h) r (playerKey h) (sent h) (logged h) in
          if same r then Returned None None h
          else Returned
                 (Some (mkResponse (Action c) (GroupData (lib_ExpandPaths (world h) paths))))
                 None h
      end
  end.

(** The [switch c.Action] of [Handle]. *)
Definition dispatch (c : Command) (h : websocketHandler) : Outcome :=
  let a := Action c in
  if bool_decide (a = "KEY"%string) then key c h
  else if bool_decide (a = "PLAYER"%string) then player c h
  else if bool_decide (a = "RECORD_PLAY"%string) then recordPlay c h
  else if bool_decide (a = "SET_FAVOURITE"%string) then setFavourite c h
  else if bool_decide (a = "SET_CHECKLIST"%string) then setChecklist c h
  else if bool_decide (a = "PLAYLIST"%string) then playlist c h
  else if bool_decide (a = "CURSOR"%string) then cursor c h
  else if bool_decide (a = "FETCH"%string) then collectionList c h
  else if bool_decide (a = "SEARCH"%string) then search c h
  else if bool_decide (a = "FILTER_LIST"%string) then filterList c h
  else if bool_decide (a = "FILTER_PATHS"%string) then filterPaths c h
  else if bool_decide (a = "FETCH_PATHLIST"%string) then fetchPathList c h
  else Returned None (Some (UnknownAction a)) h.

(** How the [for] loop of [Handle] ends: with the [err] it broke out with,
    with a panic, or (in the model only) still running when the turns
    allotted ran out. *)
Inductive Exit : Type :=
  | Broke (err : error)
  | Panic
  | Running.

Fixpoint Handle_loop (fuel : nat) (h : websocketHandler) : Exit * websocketHandler :=
  match fuel with
  | O => (Running, h)
  | S fuel' =>
      let '(r, cn) := JSON_Receive (conn h) in
      let h := setConn cn h in
      match r with
      | inr err =>
          (Broke (if negb (isEOF err) then ReceiveError err else err), h)
      | inl c =>
          match dispatch c h with
          | Panicked => (Panic, h)
          | Returned _ (Some err) h => (Broke err, h)
          | Returned None None h => Handle_loop fuel' h
          | Returned (Some resp) None h =>
              let '(err, cn) := JSON_Send resp (conn h) in
              let h := mkHandler cn (world h) (searcher h) (playerKey h)
                         (sent h ++ [resp]) (logged h) in
              match err with
              | Some err =>
                  (Broke (if negb (isEOF err) then SendError err else err), h)
              | None => Handle_loop fuel' h
              end
          end
      end
  end.

(** [defer h.players.Remove(h.playerKey)] fixes its argument when [Handle]
    is entered and runs when [Handle] is left, by a return or by a panic;
    a socket error other than [io.EOF] is logged before the return. *)
Definition Handle (fuel : nat) (h : websocketHandler) : Exit * websocketHandler :=
  let deferred := players_Remove (playerKey h) in
  let '(e, h) := Handle_loop fuel h in
  match e with
  | Broke err =>
      let h := if negb (isEOF err)
               then mkHandler (conn h) (world h) (searcher h) (playerKey h)
                      (sent h) (logged h ++ [err])
               else h in
      (e, setWorld (deferred (world h)) h)
  | Panic => (e, setWorld (deferred (world h)) h)
  | Running => (e, h)
  end.

(** The handler [NewWebsocketHandler] builds for a connection. *)
Definition newHandler (ws : Conn) (w : World) : websocketHandler :=
  mkHandler ws w (mkSameSearcher [] false) "" [] [].

(** ** Suppression in words

    Two result lists are the same for the search wrapper when they have
    the same length and, index by index, the same second key. *)
Definition sameSecondKeys (prev found : list Path) : Prop :=
  length prev = length found ∧
  ∀ i p q, prev !! i = Some p → found !! i = Some q →
    ∃ k, p !! 1%nat = Some k ∧ q !! 1%nat = Some k.

(** Every path that the comparison of two lists of the same length may
    index has a second key. *)
Definition secondKeysExist (prev found : list Path) : Prop :=
  length prev = length found →
  (∀ p, p ∈ prev → (2 ≤ length p)%nat) ∧ (∀ q, q ∈ found → (2 ≤ length q)%nat).

(** The comparison reaches index [i] (the pairs before it have equal
    second keys) and one of the two paths there has no second key. *)
Definition indexOutOfRange (prev found : list Path) : Prop :=
  length prev = length found ∧
  ∃ i p q, prev !! i = Some p ∧ found !! i = Some q ∧
    ((length p < 2)%nat ∨ (length q < 2)%nat) ∧
    ∀ j p' q', (j < i)%nat → prev !! j = Some p' → found !! j = Some q' →
      ∃ k, p' !! 1%nat = Some k ∧ q' !! 1%nat = Some k.

(** ** Field extraction in words

    The kinds of field the handlers extract; the error the extraction of a
    field of a kind gives, [None] when the field is there and of that
    kind; and, for each action, the fields whose extraction error the
    handler returns, in the order it extracts them. *)
Inductive FieldType : Type := TString | TFloat | TBool | TPath.

Definition extractionError (c : Command) (f : string) (ty : FieldType)
    : option error :=
  match Data c !! f with
  | None => Some (ExpectedInDataMap f)
  | Some v =>
      match ty, v with
      | TString, VString _ | TFloat, VFloat _ | TBool, VBool _ => None
      | TString, _ => Some (ExpectedType f "string" (typeName v))
      | TFloat, _ => Some (ExpectedType f "float64" (typeName v))
      | TBool, _ => Some (ExpectedType f "bool" (typeName v))
      | TPath, _ => External <$> (PathFromJSONInterface v).2
      end
  end.

Definition isString (v : option Value) (s : string) : bool :=
  match v with
  | Some (VString s') => bool_decide (s' = s)
  | _ => false
  end.

Definition checkedFields (c : Command) : list (string * FieldType) :=
  let a := Action c in
  if bool_decide (a = "KEY"%string) then [("key"%string, TString)]
  else if bool_decide (a = "PLAYER"%string) then
    ("action"%string, TString) ::
    (if isString (Data c !! "action"%string) "LIST" then []
     else [("key"%string, TString)])
  else if bool_decide (a = "RECORD_PLAY"%string) then [("path"%string, TPath)]
  else if bool_decide (a = "SET_FAVOURITE"%string) then
    [("path"%string, TPath); ("value"%string, TBool)]
  else if bool_decide (a = "SET_CHECKLIST"%string) then
    [("path"%string, TPath); ("value"%string, TBool)]
  else if bool_decide (a = "PLAYLIST"%string) then
    ("name"%string, TString) :: ("action"%string, TString) ::
    (if isString (Data c !! "action"%string) "FETCH" then []
     else [("path"%string, TPath)])
  else if bool_decide (a = "CURSOR"%string) then
    [("name"%string, TString); ("action"%string, TString)]
  else if bool_decide (a = "FETCH"%string) then [("path"%string, TPath)]
  else if bool_decide (a = "SEARCH"%string) then [("input"%string, TString)]
  else if bool_decide (a = "FILTER_LIST"%string) then [("name"%string, TString)]
  else if bool_decide (a = "FILTER_PATHS"%string) then
    [("path"%string, TPath); ("name"%string, TString)]
  else if bool_decide (a = "FETCH_PATHLIST"%string) then [("name"%string, TString)]
  else [].

(** The error of the first checked field that fails to extract. *)
Definition firstError (c : Command) : option error :=
  head (omap (λ '(f, ty), extractionError c f ty) (checkedFields c)).

End Handler.

(** ** Surroundings used in examples

    A world with nothing behind it: numbers are integers, a JSON array of
    strings is a path, the searcher finds [Root, input] for an input that
    is not empty, the one-key path [Root] for the input ["/"], and
    nothing for the empty input; every call into the other packages
    succeeds; the connection is the list of the messages still to be
    received, each an action with its fields, and sending always works. *)
Inductive Wire : Type :=
  | WString (s : string)
  | WNumber (n : Z)
  | WBool (b : bool)
  | WStrings (l : list string).

Definition exampleTypes : Types :=
  {| float64 := Z; ExtError := string; World := unit;
     Conn := list (string * list (string * Wire));
     Player := unit; Collection := unit; FilterItem := string;
     group := list Path; PlayerList := list string;
     CursorRep := string; PlaylistRep := string |}.

Definition decode (x : Wire) : @Value exampleTypes :=
  match x with
  | WString s => VString s
  | WNumber n => VFloat (n : @float64 exampleTypes)
  | WBool b => VBool b
  | WStrings l => VSlice (VString <$> l)
  end.

Definition received (m : string * list (string * Wire)) : @Command exampleTypes :=
  mkCommand m.1 (list_to_map (prod_map id decode <$> m.2)).

Fixpoint stringsOf (l : list (@Value exampleTypes)) : option Path :=
  match l with
  | [] => Some []
  | VString s :: l' => (s ::.) <$> stringsOf l'
  | _ => None
  end.

Definition exampleExternals : @Externals exampleTypes :=
  {| float64_zero := 0 : @float64 exampleTypes;
     float64_to_int := λ x : @float64 exampleTypes, x;
     PathFromJSONInterface := λ v : @Value exampleTypes,
       match v with
       | VSlice l => match stringsOf l with
                     | Some p => (p, None)
                     | None => ([], Some "path element is not a string"%string)
                     end
       | _ => ([], Some "path is not an array"%string)
       end;
     Searcher_Search := λ _ input,
       if decide (input = ""%string) then []
       else if decide (input = "/"%string) then [["Root"%string]]
       else [["Root"%string; input]];
     players_Remove := λ _ w, w;
     players_Add := λ _ _ w, w;
     players_Get := λ _ _, Some ();
     players_List := λ _, [];
     player_Apply := λ _ _ _ w, (None, w);
     history_Add := λ _ w, (None, w);
     favourites_Set := λ _ _ w, (None, w);
     checklist_Set := λ _ _ w, (None, w);
     favourites_List := λ _, [];
     checklist_List := λ _, [];
     cursor_Apply := λ _ _ _ _ w, (None, w);
     cursors_Get := λ name _, name;
     playlist_Apply := λ _ _ _ _ w, (None, w);
     playlists_Get := λ name _, name;
     lib_collections := λ _ _, Some ();
     lib_filters := λ _ _, Some [];
     lib_recent := λ _, [];
     lib_Fetch := λ _ _ p, ([p], None);
     lib_ExpandPaths := λ _ ps, ps;
     annotateFavourites := λ _ _ g, g;
     annotateChecklist := λ _ _ g, g;
     CollectionPaths := λ _ _, [];
     FilterItem_Name := λ x : @FilterItem exampleTypes, x;
     FilterItem_Paths := λ _, [];
     Sprintf_v := String.concat " ";
     JSON_Receive := λ cn : @Conn exampleTypes,
       match cn with
       | [] => (inr EOF, [])
       | m :: cn' => (inl (received m), cn')
       end;
     JSON_Send := λ _ cn, (None, cn) |}.

End Websocket.

(** * Properties of the playlist store *)

Module PlaylistStoreProps.
Import PlaylistStore.

(** ** Running the accessors *)

Ltac accessor_run :=
  eexists; split; [reflexivity |];
  repeat split; simpl; repeat case_match; by simplify_eq/=.

(** Two stores the accessors cannot tell apart. *)
Definition same_view (st st' : Store) : Prop :=
  itemsOf st' = itemsOf st ∧ currentOf st' = currentOf st ∧ console st' = console st.

Lemma same_view_refl st : same_view st st.
Proof. by repeat split. Qed.

Lemma same_view_trans st1 st2 st3 :
  same_view st1 st2 → same_view st2 st3 → same_view st1 st3.
Proof. intros (?&?&?) (?&?&?). repeat split; congruence. Qed.

Lemma getPlaylistItems_run st :
  ∃ st', getPlaylistItems st = (Some (itemsOf st), st') ∧ same_view st st'.
Proof.
  unfold same_view, itemsOf, currentOf, getPlaylistItems, getPlaylistCurrent.
  destruct st as [[items|] cur lsi lsc co]; simpl; accessor_run.
Qed.

Lemma getPlaylistCurrent_run st :
  ∃ st', getPlaylistCurrent st = (Some (currentOf st), st') ∧ same_view st st'.
Proof.
  unfold same_view, itemsOf, currentOf, getPlaylistItems, getPlaylistCurrent.
  destruct st as [items [c|] lsi [[c'|]|] co]; simpl; accessor_run.
Qed.

Lemma setPlaylistCurrent_run c st :
  ∃ st', setPlaylistCurrent c st = (Some tt, st') ∧
    itemsOf st' = itemsOf st ∧ currentOf st' = c ∧ console st' = console st.
Proof.
  unfold itemsOf, currentOf, getPlaylistItems, getPlaylistCurrent, setPlaylistCurrent.
  destruct st as [items cur lsi lsc co], c; simpl; accessor_run.
Qed.

Lemma setPlaylistItems_run items st :
  ∃ st', setPlaylistItems items st = (Some tt, st') ∧
    itemsOf st' = items ∧ currentOf st' = currentOf st ∧ console st' = console st.
Proof.
  unfold itemsOf, currentOf, getPlaylistItems, getPlaylistCurrent, setPlaylistItems.
  destruct st as [its cur lsi lsc co]; simpl; accessor_run.
Qed.

Lemma bind_run {A B : Type} (m : M A) (f : A → M B) st a st' :
  m st = (Some a, st') → (m ≫= f) st = f a st'.
Proof. intros E. unfold mbind, M_bind. by rewrite E. Qed.

Lemma bind_throw {A B : Type} (m : M A) (f : A → M B) st st' :
  m st = (None, st') → (m ≫= f) st = (None, st').
Proof. intros E. unfold mbind, M_bind. by rewrite E. Qed.

(** ** The traversal functions read on the observations

    [reset], [next] and [prev] as functions from the items and the current
    position to the new current position ([None]: a [TypeError]), and the
    values of [canNext] and [canPrev]. The lemmas [*_run] below show that
    the functions of the store compute exactly these. *)
Definition reset_current (items : list Item) : option Current :=
  match items with
  | [] => None
  | i0 :: _ => Some (mkCurrent 0 0 (tracks i0 !! 0%nat))
  end.

Definition next_current (items : list Item) (cur : option Current)
    : option (option Current) :=
  match cur with
  | None => Some (reset_current items)
  | Some c =>
      it ← index items (item c);
      if bool_decide (track c + 1 < len (tracks it)) then
        Some (Some (mkCurrent (item c) (track c + 1)
                      (Some (concat (root it) (index (tracks it) (track c + 1))))))
      else if bool_decide (item c + 1 < len items) then
        it' ← index items (item c + 1);
        Some (Some (mkCurrent (item c + 1) 0
                      (Some (concat (root it') (index (tracks it') 0)))))
      else Some None
  end.

Definition prev_current (items : list Item) (cur : option Current)
    : option (option Current) :=
  match cur with
  | None => Some (reset_current items)
  | Some c =>
      it ← index items (item c);
      if bool_decide (track c > 0) then
        Some (Some (mkCurrent (item c) (track c - 1)
                      (Some (concat (root it) (index (tracks it) (track c - 1))))))
      else if bool_decide (item c > 0) then
        it' ← index items (item c - 1);
        Some (Some (mkCurrent (item c - 1) (len (tracks it') - 1)
                      (Some (concat (root it') (index (tracks it') (len (tracks it') - 1))))))
      else Some cur
  end.

Definition canNext_value (items : list Item) (cur : option Current) : option bool :=
  match cur with
  | None => Some false
  | Some c =>
      it ← index items (item c);
      Some (bool_decide (track c < len (tracks it) - 1)
            || bool_decide (item c < len items - 1))
  end.

Definition canPrev_value (cur : option Current) : bool :=
  match cur with
  | None => false
  | Some c => bool_decide (track c > 0) || bool_decide (item c > 0)
  end.

(** A run of a store function that leaves the items and the console alone
    and moves the current position as [f] says (staying put on a throw). *)
Definition moves (m : M unit) (f : list Item → option Current → option (option Current))
    (st : Store) : Prop :=
  ∃ st', m st = ((λ _, tt) <$> f (itemsOf st) (currentOf st), st') ∧
    itemsOf st' = itemsOf st ∧
    currentOf st' = default (currentOf st) (f (itemsOf st) (currentOf st)) ∧
    console st' = console st.

Ltac run_get :=
  match goal with
  | |- context [ (getPlaylistCurrent ≫= _) ?st ] =>
      let st1 := fresh "st" in let E := fresh "E" in
      destruct (getPlaylistCurrent_run st) as (st1 & E & (? & ? & ?));
      rewrite (bind_run _ _ _ _ _ E); clear E
  | |- context [ (getPlaylistItems ≫= _) ?st ] =>
      let st1 := fresh "st" in let E := fresh "E" in
      destruct (getPlaylistItems_run st) as (st1 & E & (? & ? & ?));
      rewrite (bind_run _ _ _ _ _ E); clear E
  end.

Ltac view_done := repeat split; simpl in *; congruence.

Ltac run_set :=
  match goal with
  | |- context [ setPlaylistCurrent ?c ?st ] =>
      let st1 := fresh "st" in let E := fresh "E" in
      destruct (setPlaylistCurrent_run c st) as (st1 & E & ? & ? & ?);
      rewrite E; clear E
  end.

Lemma reset_run st : moves reset (λ items _, Some (reset_current items)) st.
Proof.
  unfold moves, reset. run_get. run_set. eexists; split; [done |].
  unfold reset_current. view_done.
Qed.

Lemma next_run st : moves next next_current st.
Proof.
  unfold moves. destruct (currentOf st) as [c|] eqn:Ec.
  - unfold next. run_get. rewrite Ec. run_get.
    replace (itemsOf st0) with (itemsOf st) by congruence.
    simpl. destruct (index (itemsOf st) (item c)) as [it|] eqn:Ei; simpl.
    + unfold mbind at 1, M_bind at 1; simpl.
      case_bool_decide; [| case_bool_decide].
      * run_set. eexists; split; [done|]. view_done.
      * destruct (index (itemsOf st) (item c + 1)) as [it'|]; simpl.
        -- unfold mbind, M_bind; simpl. run_set.
           eexists; split; [done|]. view_done.
        -- eexists; split; [done|]. view_done.
      * run_set. eexists; split; [done|]. view_done.
    + eexists; split; [done|]. view_done.
  - destruct (reset_run st) as (st' & E & ? & ? & ?).
    unfold next. run_get. rewrite Ec. simpl.
    destruct (reset_run st0) as (st1 & E1 & ? & ? & ?). rewrite E1.
    eexists; split; [by simpl|]. simpl in *. view_done.
Qed.

Lemma getPlaylistItem_run i st :
  ∃ st', getPlaylistItem i st = (Some (index (itemsOf st) i), st') ∧ same_view st st'.
Proof.
  unfold getPlaylistItem. run_get. eexists; split; [done|]. view_done.
Qed.

Ltac run_item :=
  match goal with
  | |- context [ (getPlaylistItem ?i ≫= _) ?st ] =>
      let st1 := fresh "st" in let E := fresh "E" in
      destruct (getPlaylistItem_run i st) as (st1 & E & (? & ? & ?));
      rewrite (bind_run _ _ _ _ _ E); clear E
  end.

Lemma prev_run st : moves prev prev_current st.
Proof.
  unfold moves. destruct (currentOf st) as [c|] eqn:Ec.
  - unfold prev. run_get. rewrite Ec. run_item.
    replace (itemsOf st0) with (itemsOf st) by congruence.
    simpl. destruct (index (itemsOf st) (item c)) as [it|] eqn:Ei; simpl.
    + unfold mbind at 1, M_bind at 1; simpl.
      case_bool_decide; [| case_bool_decide].
      * run_set. eexists; split; [done|]. view_done.
      * run_item. replace (itemsOf st1) with (itemsOf st) by congruence.
        destruct (index (itemsOf st) (item c - 1)) as [it'|]; simpl.
        -- unfold mbind, M_bind; simpl. run_set.
           eexists; split; [done|]. view_done.
        -- eexists; split; [done|]. view_done.
      * eexists; split; [done|]. view_done.
    + eexists; split; [done|]. view_done.
  - unfold prev. run_get. rewrite Ec. simpl.
    destruct (reset_run st0) as (st1 & E1 & ? & ? & ?). rewrite E1.
    eexists; split; [by simpl|]. view_done.
Qed.

Lemma canNext_run st :
  ∃ st', canNext st = (canNext_value (itemsOf st) (currentOf st), st') ∧
    same_view st st'.
Proof.
  unfold canNext. run_get. destruct (currentOf st) as [c|] eqn:Ec; simpl.
  - run_get. replace (itemsOf st0) with (itemsOf st) by congruence.
    destruct (index (itemsOf st) (item c)) as [it|]; simpl;
      (eexists; split; [done|]; view_done).
  - eexists; split; [done|]. view_done.
Qed.

Lemma canPrev_run st :
  ∃ st', canPrev st = (Some (canPrev_value (currentOf st)), st') ∧ same_view st st'.
Proof.
  unfold canPrev. run_get. destruct (currentOf st) as [c|] eqn:Ec; simpl;
    (eexists; split; [done|]; view_done).
Qed.

(** ** The enumeration of positions *)

(** The pairs of the items numbered from [n] on. *)
Definition positions_from (n : nat) (items : list Item) : list (Z * Z) :=
  mjoin (imap (λ i it, (λ j, (Z.of_nat (n + i), Z.of_nat j)) <$> seq 0 (length (tracks it)))
           items).

Definition block (n : nat) (it : Item) : list (Z * Z) :=
  (λ j, (Z.of_nat n, Z.of_nat j)) <$> seq 0 (length (tracks it)).

Lemma positions_from_0 items : positions items = positions_from 0 items.
Proof. done. Qed.

Lemma positions_from_nil n : positions_from n [] = [].
Proof. done. Qed.

Lemma positions_from_cons n it items :
  positions_from n (it :: items) = block n it ++ positions_from (S n) items.
Proof.
  unfold positions_from, block. simpl. rewrite Nat.add_0_r. f_equal. f_equal.
  apply imap_ext. intros i x _. simpl. by rewrite Nat.add_succ_r.
Qed.

Lemma length_block n it : length (block n it) = length (tracks it).
Proof. unfold block. by rewrite length_fmap, length_seq. Qed.

Lemma lookup_block n it k :
  (k < length (tracks it))%nat → block n it !! k = Some (Z.of_nat n, Z.of_nat k).
Proof.
  intros Hk. unfold block. rewrite list_lookup_fmap, lookup_seq_lt by done. done.
Qed.

Lemma elem_of_positions_from n items i j :
  (i, j) ∈ positions_from n items ↔
  ∃ a b it, i = Z.of_nat (n + a) ∧ j = Z.of_nat b ∧ items !! a = Some it ∧
            (b < length (tracks it))%nat.
Proof.
  unfold positions_from. rewrite list_elem_of_join. split.
  - intros (l & Hin & Hl). apply elem_of_lookup_imap in Hl as (a & it & -> & Ha).
    apply list_elem_of_fmap in Hin as (b & [= -> ->] & Hb).
    apply elem_of_seq in Hb. exists a, b, it. repeat split; [done | lia].
  - intros (a & b & it & -> & -> & Ha & Hb).
    eexists. split; [| apply elem_of_lookup_imap; eauto].
    apply list_elem_of_fmap. exists b. split; [done|]. apply elem_of_seq. lia.
Qed.

Lemma positions_from_sorted n items : StronglySorted lex_lt (positions_from n items).
Proof.
  revert n. induction items as [|it items IH]; intros n.
  - constructor.
  - rewrite positions_from_cons. apply StronglySorted_app_2; [| | apply IH].
    + intros p q Hp Hq. destruct q as [i j].
      apply list_elem_of_fmap in Hp as (b & -> & _).
      apply elem_of_positions_from in Hq as (a & b' & it' & -> & _).
      left. simpl. lia.
    + unfold block. apply (StronglySorted_fmap _ lt).
      * intros a b Hab. right. simpl. split; [done|]. lia.
      * generalize 0%nat. induction (length (tracks it)) as [|m IHm]; intros s.
        -- constructor.
        -- simpl. constructor; [apply IHm|].
           apply Forall_forall. intros x Hx. apply elem_of_seq in Hx. lia.
Qed.

Lemma lex_lt_irrefl p : ¬ lex_lt p p.
Proof. unfold lex_lt. lia. Qed.

Lemma sorted_NoDup (l : list (Z * Z)) : StronglySorted lex_lt l → NoDup l.
Proof.
  induction 1 as [|x l _ IH Hall]; constructor; [|done].
  intros Hx. rewrite Forall_forall in Hall. by apply (lex_lt_irrefl x), Hall.
Qed.

(** ** Iterating [next] *)

Fixpoint next_currents (k : nat) (items : list Item) (cur : option Current)
    : option (option Current) :=
  match k with
  | O => Some cur
  | S k' => next_current items cur ≫= next_currents k' items
  end.

Lemma nexts_run k st :
  ∃ st', nexts k st = ((λ _, tt) <$> next_currents k (itemsOf st) (currentOf st), st') ∧
    itemsOf st' = itemsOf st ∧
    (∀ c, next_currents k (itemsOf st) (currentOf st) = Some c → currentOf st' = c).
Proof.
  revert st. induction k as [|k IH]; intros st; simpl.
  - exists st. repeat split. congruence.
  - destruct (next_run st) as (st1 & E & Hi & Hc & _).
    destruct (next_current (itemsOf st) (currentOf st)) as [c1|]; simpl in *.
    + rewrite (bind_run _ _ _ _ _ E).
      destruct (IH st1) as (st2 & E2 & Hi2 & Hc2).
      rewrite Hi, Hc in E2, Hc2. exists st2. repeat split; [done | congruence | done].
    + rewrite (bind_throw _ _ _ _ E). exists st1. repeat split; done.
Qed.

Lemma next_currents_add a b items cur :
  next_currents (a + b) items cur =
  next_currents a items cur ≫= next_currents b items.
Proof.
  revert cur. induction a as [|a IH]; intros cur; [done|]. simpl.
  destruct (next_current items cur); [apply IH | done].
Qed.

Lemma next_currents_S k items cur :
  next_currents (S k) items cur = next_current items cur ≫= next_currents k items.
Proof. done. Qed.

Lemma option_bind_Some {A B : Type} (f : A → option B) (a : A) : Some a ≫= f = f a.
Proof. done. Qed.

Lemma index_nat {A : Type} (l : list A) (n : nat) : index l (Z.of_nat n) = l !! n.
Proof. unfold index. rewrite decide_True by lia. by rewrite Nat2Z.id. Qed.

(** Inside an item: [k] steps move the track index by [k]. *)
Lemma next_currents_within items i it k : ∀ c,
  index items i = Some it →
  item c = i → 0 ≤ track c → track c + Z.of_nat k < len (tracks it) →
  ∃ c', next_currents k items (Some c) = Some (Some c') ∧
        item c' = i ∧ track c' = track c + Z.of_nat k.
Proof.
  induction k as [|k IH]; intros c Hit Hi Hj Hk.
  - exists c. repeat split; [done | lia].
  - simpl. rewrite Hi, Hit. simpl. rewrite bool_decide_true by lia. simpl.
    edestruct (IH (mkCurrent i (track c + 1)
                     (Some (concat (root it) (index (tracks it) (track c + 1))))))
      as (c' & E & ? & ?); simpl; [done | done | lia | lia |].
    exists c'. repeat split; [done | done | simpl in *; lia].
Qed.

(** At the last track of an item: one more step enters the next item, or
    clears the position after the last item. *)
Lemma next_current_last items c it :
  index items (item c) = Some it →
  track c + 1 = len (tracks it) →
  next_current items (Some c) =
    if bool_decide (item c + 1 < len items)
    then it' ← index items (item c + 1);
         Some (Some (mkCurrent (item c + 1) 0
                       (Some (concat (root it') (index (tracks it') 0)))))
    else Some None.
Proof.
  intros Hit Ht. simpl. rewrite Hit. simpl. by rewrite bool_decide_false by lia.
Qed.

(** From the first track of item [length pre] on, [next] runs through the
    pairs of the remaining items in order and then clears the position. *)
Lemma next_currents_enumerate items : ∀ pre c,
  items ≠ [] →
  Forall (λ it, tracks it ≠ []) items →
  item c = Z.of_nat (length pre) → track c = 0 →
  (∀ k p, positions_from (length pre) items !! k = Some p →
     ∃ c', next_currents k (pre ++ items) (Some c) = Some (Some c') ∧
           (item c', track c') = p) ∧
  next_currents (length (positions_from (length pre) items)) (pre ++ items) (Some c)
    = Some None.
Proof.
  induction items as [|it rest IH]; intros pre c Hne Hall Hi Hj; [done|].
  apply Forall_cons in Hall as [Ht Hall].
  assert (Hit : index (pre ++ it :: rest) (item c) = Some it).
  { rewrite Hi, index_nat. by apply list_lookup_middle. }
  set (t := length (tracks it)).
  assert (Htpos : (0 < t)%nat) by (subst t; destruct (tracks it); simpl; [done | lia]).
  (* the last track of [it] is reached after [t - 1] steps *)
  destruct (next_currents_within (pre ++ it :: rest) (item c) it (t - 1) c)
    as (c1 & E1 & Hi1 & Hj1); [done | done | lia | unfold len; lia |].
  assert (Hlast : track c1 + 1 = len (tracks it)) by (unfold len; lia).
  assert (Hit1 : index (pre ++ it :: rest) (item c1) = Some it) by by rewrite Hi1.
  pose proof (next_current_last _ _ _ Hit1 Hlast) as Estep.
  rewrite positions_from_cons.
  destruct rest as [|it' rest'].
  - (* [it] is the last item *)
    rewrite positions_from_nil, app_nil_r, length_block. split.
    + intros k p Hk. assert (k < t)%nat.
      { apply lookup_lt_Some in Hk. by rewrite length_block in Hk. }
      rewrite lookup_block in Hk by done. injection Hk as <-.
      destruct (next_currents_within (pre ++ [it]) (item c) it k c)
        as (c' & E & ? & ?); [done | done | lia | unfold len; lia |].
      exists c'. split; [done|]. f_equal; lia.
    + replace (length (tracks it)) with ((t - 1) + 1)%nat by lia.
      rewrite next_currents_add, E1, option_bind_Some, next_currents_S, Estep.
      rewrite bool_decide_false; [done|].
      unfold len. rewrite length_app. simpl. lia.
  - (* the walk goes on in the next item *)
    set (c2 := mkCurrent (item c1 + 1) 0
                 (Some (concat (root it') (index (tracks it') 0)))).
    assert (Estep' : next_current (pre ++ it :: it' :: rest') (Some c1) = Some (Some c2)).
    { assert (index (pre ++ it :: it' :: rest') (item c1 + 1) = Some it') as Hnext.
      { replace (item c1 + 1) with (Z.of_nat (S (length pre))) by lia.
        rewrite index_nat, lookup_app_r by lia.
        by replace (S (length pre) - length pre)%nat with 1%nat by lia. }
      rewrite Estep, Hnext. rewrite bool_decide_true; [done|].
      unfold len. rewrite length_app. simpl. lia. }
    destruct (IH (pre ++ [it]) c2) as [IH1 IH2]; [done | done | | done |].
    { simpl. rewrite length_app. simpl. lia. }
    replace (length (pre ++ [it])) with (S (length pre)) in IH1, IH2
      by (rewrite length_app; simpl; lia).
    rewrite <- app_assoc in IH1, IH2. simpl in IH1, IH2.
    split.
    + intros k p Hk. destruct (decide (k < t)%nat) as [Hlt|Hge].
      * rewrite lookup_app_l in Hk by by rewrite length_block.
        rewrite lookup_block in Hk by done. injection Hk as <-.
        destruct (next_currents_within (pre ++ it :: it' :: rest') (item c) it k c)
          as (c' & E & ? & ?); [done | done | lia | unfold len; lia |].
        exists c'. split; [done|]. f_equal; lia.
      * rewrite lookup_app_r in Hk by (rewrite length_block; lia).
        rewrite length_block in Hk.
        destruct (IH1 _ _ Hk) as (c' & E & Hp). exists c'. split; [|done].
        replace k with ((t - 1) + S (k - t))%nat by (unfold t in *; lia).
        by rewrite next_currents_add, E1, option_bind_Some, next_currents_S, Estep'.
    + rewrite length_app, length_block.
      replace (length (tracks it) + length (positions_from (S (length pre)) (it' :: rest')))%nat
        with ((t - 1) + S (length (positions_from (S (length pre)) (it' :: rest'))))%nat
        by (unfold t in *; lia).
      by rewrite next_currents_add, E1, option_bind_Some, next_currents_S, Estep'.
Qed.

(** ** Traversal with NEXT *)

(** The property as the specification words it, at a store [st]: from the
    freshly reset position, [k] calls of [next] lead to the [k]-th pair of
    the enumeration of all (item, track) pairs, and one call more than
    there are pairs clears the position. *)
Definition next_visits_as_specified (st : Store) : Prop :=
  let ps := positions (itemsOf st) in
  let st0 := (reset st).2 in
  (∀ k p, ps !! k = Some p →
     ∃ st', nexts k st0 = (Some tt, st') ∧ positionOf st' = Some p) ∧
  (∃ st', nexts (length ps) st0 = (Some tt, st') ∧ currentOf st' = None).

(** [itemE] is what expansion builds for the empty group [Root, E]. *)
Example expansion_of_an_empty_group :
  @buildPlaylistItem exampleEnvironment 1 [KStr "Root"; KStr "E"] storeXY
    = (Some (Some itemE), storeXY).
Proof. reflexivity. Qed.

(** With [itemE] between [itemX] and [itemY], the pairs are (0,0), (0,1),
    (0,2), (2,0), and the third [next] selects (1,0), track 0 of the item
    that has no track. *)
Lemma next_empty_item_counterexample : ¬ next_visits_as_specified storeXEY.
Proof.
  intros [Hvisit _]. destruct (Hvisit 3%nat (2, 0) eq_refl) as (st' & Hrun & Hpos).
  vm_compute in Hrun. injection Hrun as <-. vm_compute in Hpos. discriminate Hpos.
Qed.

(** C1 (amended). In a playlist that has an item and whose items all hold
    at least one track, starting from the freshly reset position
    (item 0, track 0), [k] calls of [next] lead to the [k]-th pair of the
    lexicographic enumeration of all (item, track) pairs, in which every
    pair occurs exactly once; after the last pair [next] clears the
    current position, and [next] on a cleared position sets it to
    (item 0, track 0). *)
Theorem next_visits_every_position (st : Store) :
  itemsOf st ≠ [] →
  Forall (λ it, tracks it ≠ []) (itemsOf st) →
  let ps := positions (itemsOf st) in
  let st0 := (reset st).2 in
  positionOf st0 = Some (0, 0) ∧
  (∀ k p, ps !! k = Some p →
     ∃ st', nexts k st0 = (Some tt, st') ∧ positionOf st' = Some p) ∧
  (∃ st', nexts (length ps) st0 = (Some tt, st') ∧ currentOf st' = None) ∧
  (∀ st1, itemsOf st1 = itemsOf st → currentOf st1 = None →
     ∃ st2, next st1 = (Some tt, st2) ∧ positionOf st2 = Some (0, 0)) ∧
  StronglySorted lex_lt ps ∧ NoDup ps ∧
  (∀ i j, (i, j) ∈ ps ↔
     ∃ it, index (itemsOf st) i = Some it ∧ 0 ≤ j < len (tracks it)).
Proof.
  intros Hne Hall ps st0.
  destruct (reset_run st) as (st0' & E0 & Hi0 & Hc0 & _).
  assert (st0 = st0') as -> by (unfold st0; by rewrite E0). clear E0.
  simpl in Hc0. destruct (itemsOf st) as [|i0 items] eqn:Eits; [done|].
  simpl in Hc0.
  set (c0 := mkCurrent 0 0 (tracks i0 !! 0%nat)) in *.
  destruct (next_currents_enumerate (i0 :: items) [] c0) as [Henum Hend];
    [done | done | done | done |].
  simpl in Henum, Hend. rewrite <- positions_from_0 in Henum, Hend.
  split; [| split; [| split; [| split; [| split; [| split]]]]].
  - unfold positionOf. by rewrite Hc0.
  - intros k p Hk. destruct (Henum k p Hk) as (c' & E & Hp).
    destruct (nexts_run k st0') as (st' & E' & _ & Hc').
    rewrite Hi0, Hc0, E in E', Hc'. exists st'. split; [done|].
    unfold positionOf. rewrite (Hc' _ eq_refl). simpl. by rewrite Hp.
  - destruct (nexts_run (length ps) st0') as (st' & E' & _ & Hc').
    rewrite Hi0, Hc0 in E', Hc'. unfold ps in E', Hc'. rewrite Hend in E', Hc'.
    exists st'. split; [done|]. by apply Hc'.
  - intros st1 Hi1 Hc1. destruct (next_run st1) as (st2 & E & _ & Hc & _).
    rewrite Hi1, Hc1 in E, Hc. simpl in E, Hc. exists st2. split; [done|].
    unfold positionOf. by rewrite Hc.
  - unfold ps. rewrite positions_from_0. apply positions_from_sorted.
  - unfold ps. rewrite positions_from_0. apply sorted_NoDup, positions_from_sorted.
  - intros i j. unfold ps. rewrite positions_from_0, elem_of_positions_from. split.
    + intros (a & b & it & -> & -> & Ha & Hb). exists it.
      rewrite index_nat. split; [done|]. unfold len. lia.
    + intros (it & Hit & Hj). unfold index in Hit. case_decide; [|done].
      exists (Z.to_nat i), (Z.to_nat j), it. unfold len in Hj.
      repeat split; [lia | lia | done | lia].
Qed.

(** On [itemX] and [itemY]: four pairs, the fourth reached by three calls
    of [next]. *)
Lemma next_visits_every_position_witness :
  itemsOf storeXY ≠ [] ∧
  Forall (λ it, tracks it ≠ []) (itemsOf storeXY) ∧
  positions (itemsOf storeXY) = [(0, 0); (0, 1); (0, 2); (1, 0)] ∧
  ∃ st', nexts 3 (reset storeXY).2 = (Some tt, st') ∧ positionOf st' = Some (1, 0).
Proof.
  assert (H1 : itemsOf storeXY ≠ []) by done.
  assert (H2 : Forall (λ it, tracks it ≠ []) (itemsOf storeXY))
    by (repeat constructor; done).
  split; [exact H1|]. split; [exact H2|]. split; [reflexivity|].
  exact (proj1 (proj2 (next_visits_every_position storeXY H1 H2)) 3%nat (1, 0) eq_refl).
Defined.

(** ** The predicates [canNext] and [canPrev] *)

(** The property as the specification words it, at a store [st]:
    [canNext()] is true exactly when a following [next()] leaves a current
    position, [canPrev()] exactly when a following [prev()] changes the
    position. *)
Definition canNext_canPrev_as_specified (st : Store) : Prop :=
  (∀ b st1 st2, canNext st = (Some b, st1) → next st1 = (Some tt, st2) →
     (b = true ↔ currentOf st2 ≠ None)) ∧
  (∀ b st1 st2, canPrev st = (Some b, st1) → prev st1 = (Some tt, st2) →
     (b = true ↔ positionOf st2 ≠ positionOf st)).

(** With no current position and a playlist that is not empty,
    [canNext()] is false although [next()] then selects (item 0, track 0). *)
Lemma canNext_null_counterexample : ¬ canNext_canPrev_as_specified storeXY.
Proof.
  intros [Hnext _].
  destruct (Hnext false storeXY (next storeXY).2 eq_refl eq_refl) as [_ Hfalse].
  by discriminate Hfalse.
Qed.

(** C2 (amended). In a store whose current position, when there is one,
    names an existing item, [canNext()] and [canPrev()] return without
    changing what the store shows. With a current position, [canNext()] is
    true exactly when a following [next()] leaves a current position and
    [canPrev()] is true exactly when a following [prev()] changes the
    position. Without one both are false, while [next()] and [prev()]
    select (item 0, track 0) of a playlist that has an item. *)
Theorem canNext_canPrev_agree (st : Store) :
  (∀ c, currentOf st = Some c → is_Some (index (itemsOf st) (item c))) →
  ∃ bn bp s1 s2 s1' s2',
    canNext st = (Some bn, s1) ∧ same_view st s1 ∧
    canPrev st = (Some bp, s2) ∧ same_view st s2 ∧
    next s1 = (Some tt, s1') ∧ prev s2 = (Some tt, s2') ∧
    (currentOf st ≠ None →
       (bn = true ↔ currentOf s1' ≠ None) ∧
       (bp = true ↔ positionOf s2' ≠ positionOf st) ∧
       (bp = false → currentOf s2' = currentOf st)) ∧
    (currentOf st = None →
       bn = false ∧ bp = false ∧
       positionOf s1' = (if itemsOf st is [] then None else Some (0, 0)) ∧
       positionOf s2' = (if itemsOf st is [] then None else Some (0, 0))).
Proof.
  intros Hinv.
  destruct (canNext_run st) as (s1 & En & Vn).
  destruct (canPrev_run st) as (s2 & Ep & Vp).
  destruct (next_run s1) as (s1' & En' & _ & Hn' & _).
  destruct (prev_run s2) as (s2' & Ep' & _ & Hp' & _).
  destruct (Vn) as (Hni & Hnc & _). destruct (Vp) as (Hpi & Hpc & _).
  rewrite Hni, Hnc in En', Hn'. rewrite Hpi, Hpc in Ep', Hp'.
  exists (default false (canNext_value (itemsOf st) (currentOf st))),
    (canPrev_value (currentOf st)), s1, s2, s1', s2'.
  unfold positionOf.
  destruct (currentOf st) as [c|] eqn:Ec.
  - destruct (Hinv c eq_refl) as [it Hit].
    assert (0 ≤ item c < len (itemsOf st)) as Hrange.
    { unfold index in Hit. case_decide; [|done]. apply lookup_lt_Some in Hit.
      unfold len. lia. }
    assert (∀ i, 0 ≤ i < len (itemsOf st) → is_Some (index (itemsOf st) i)) as Hdef.
    { intros i Hi. unfold index. rewrite decide_True by lia.
      apply lookup_lt_is_Some. unfold len in Hi. lia. }
    assert (∃ r, next_current (itemsOf st) (Some c) = Some r ∧
       (bool_decide (track c < len (tracks it) - 1)
        || bool_decide (item c < len (itemsOf st) - 1) = true ↔ r ≠ None))
      as (rn & Ern & Hbn).
    { simpl. rewrite Hit. simpl. repeat case_bool_decide; try lia;
        try (destruct (Hdef (item c + 1)) as [it' ->]; [lia|]); simpl;
        (eexists; split; [done|]); simpl; (split; intros; first [done | congruence]). }
    assert (∃ r, prev_current (itemsOf st) (Some c) = Some r ∧
       (bool_decide (track c > 0) || bool_decide (item c > 0) = true ↔
          (λ c, (item c, track c)) <$> r ≠ Some (item c, track c)) ∧
       (bool_decide (track c > 0) || bool_decide (item c > 0) = false → r = Some c))
      as (rp & Erp & Hbp & Hbp').
    { simpl. rewrite Hit. simpl. repeat case_bool_decide;
        try (destruct (Hdef (item c - 1)) as [it' ->]; [lia|]); simpl;
        (eexists; split; [done|]); simpl;
        (split; [split; [intros Hb Heq; first [discriminate Hb | injection Heq; lia]
                        | intros; first [done | congruence] ] | done]). }
    rewrite Ern in En', Hn'. rewrite Erp in Ep', Hp'.
    unfold canNext_value in *. simpl in En |- *. rewrite Hit in En |- *. simpl in En |- *.
    split; [exact En|]. split; [exact Vn|]. split; [exact Ep|]. split; [exact Vp|].
    split; [exact En'|]. split; [exact Ep'|]. split; [|done].
    intros _. rewrite Hn', Hp'. split; [done|]. split; [done|]. exact Hbp'.
  - split; [exact En|]. split; [exact Vn|]. split; [exact Ep|]. split; [exact Vp|].
    split; [exact En'|]. split; [exact Ep'|]. split; [done|].
    intros _. rewrite Hn', Hp'. simpl. unfold reset_current.
    destruct (itemsOf st); done.
Qed.

(** On the first track of [itemX]: [canNext()] is true and [next()] moves
    to the second track. *)
Lemma canNext_canPrev_agree_witness :
  (∀ c, currentOf storeXY_playing = Some c →
     is_Some (index (itemsOf storeXY_playing) (item c))) ∧
  ∃ s1 s1', canNext storeXY_playing = (Some true, s1) ∧
    next s1 = (Some tt, s1') ∧ positionOf s1' = Some (0, 1).
Proof.
  assert (H : ∀ c, currentOf storeXY_playing = Some c →
            is_Some (index (itemsOf storeXY_playing) (item c))).
  { intros c [= <-]. by eexists. }
  split; [exact H|].
  destruct (canNext_canPrev_agree storeXY_playing H)
    as (bn & bp & s1 & s2 & s1' & s2' & En & _ & _ & _ & En' & _).
  exists s1, s1'. vm_compute in En. injection En as <- <-.
  vm_compute in En'. injection En' as <-. done.
Defined.

(** ** Direct selection with PLAY_ITEM *)

Lemma console_error_run m st :
  ∃ st', console_error m st = (Some tt, st') ∧
    itemsOf st' = itemsOf st ∧ currentOf st' = currentOf st ∧
    console st' = console st ++ [m].
Proof.
  unfold itemsOf, currentOf, getPlaylistItems, getPlaylistCurrent, console_error.
  destruct st as [its cur lsi lsc co]; simpl. accessor_run.
Qed.

Section Selection.
Context `{Environment}.

Lemma setCurrent_loop_absent i rt trs k :
  (∀ t, t ∈ trs → pathToKey (rt ++ t) ≠ k) → setCurrent_loop i rt trs k = -1.
Proof.
  revert i. induction trs as [|t trs IH]; intros i Habs; [done|]. simpl.
  rewrite bool_decide_false by (apply Habs; left).
  apply IH. intros t' Ht'. apply Habs. by right.
Qed.

Lemma setCurrent_loop_found i rt trs k n t :
  trs !! n = Some t → pathToKey (rt ++ t) = k →
  (∀ m t', (m < n)%nat → trs !! m = Some t' → pathToKey (rt ++ t') ≠ k) →
  setCurrent_loop i rt trs k = i + Z.of_nat n.
Proof.
  revert i n. induction trs as [|t0 trs IH]; intros i n Hn Hk Hfirst; [done|].
  destruct n as [|n]; simpl in *.
  - injection Hn as ->. rewrite bool_decide_true by done. lia.
  - rewrite bool_decide_false by (apply (Hfirst 0%nat); [lia | done]).
    rewrite (IH (i + 1) n); [lia | done | done |].
    intros m t' Hm Ht'. apply (Hfirst (S m)); [lia | done].
Qed.

Lemma setCurrent_run i p st it :
  index (itemsOf st) i = Some it →
  let trk := setCurrent_loop 0 (root it) (tracks it) (pathToKey p) in
  ∃ st', setCurrent i p st = (Some tt, st') ∧
    itemsOf st' = itemsOf st ∧
    currentOf st' = Some (mkCurrent i trk (Some p)) ∧
    console st' = console st ++ (if bool_decide (trk = -1) then [CouldNotFindTrack p] else []).
Proof.
  intros Hit trk. unfold setCurrent. run_item. rewrite Hit. simpl.
  unfold mbind at 1, M_bind at 1. simpl. fold trk.
  case_bool_decide.
  - destruct (console_error_run (CouldNotFindTrack p) st0) as (st1 & E & ? & ? & ?).
    rewrite (bind_run _ _ _ _ _ E). run_set.
    eexists; split; [done|]. view_done.
  - unfold mbind, M_bind. simpl. run_set.
    eexists; split; [done|]. rewrite app_nil_r. view_done.
Qed.

(** C5 (amended). [setCurrent(itemIndex, path)] on an existing item: when
    no track of the item has the key of [path], the error is written to the
    console and the current position becomes (itemIndex, track -1) with the
    given path; when some track has that key, nothing is written and the
    current position becomes the first such track. The items are left
    alone in both cases. *)
Theorem setCurrent_sets_current (i : Z) (p : Path) (st : Store) (it : Item) :
  index (itemsOf st) i = Some it →
  ∃ st', setCurrent i p st = (Some tt, st') ∧ itemsOf st' = itemsOf st ∧
    ((∀ t, t ∈ tracks it → pathToKey (root it ++ t) ≠ pathToKey p) →
       console st' = console st ++ [CouldNotFindTrack p] ∧
       currentOf st' = Some (mkCurrent i (-1) (Some p))) ∧
    (∀ n t, tracks it !! n = Some t → pathToKey (root it ++ t) = pathToKey p →
       (∀ m t', (m < n)%nat → tracks it !! m = Some t' →
          pathToKey (root it ++ t') ≠ pathToKey p) →
       console st' = console st ∧
       currentOf st' = Some (mkCurrent i (Z.of_nat n) (Some p))).
Proof.
  intros Hit. destruct (setCurrent_run i p st it Hit) as (st' & E & Hi & Hc & Hco).
  exists st'. split; [done|]. split; [done|]. split.
  - intros Habs. rewrite (setCurrent_loop_absent _ _ _ _ Habs) in Hc, Hco. done.
  - intros n t Hn Hk Hfirst.
    rewrite (setCurrent_loop_found 0 _ _ _ n t Hn Hk Hfirst) in Hc, Hco.
    rewrite bool_decide_false in Hco by lia. rewrite app_nil_r in Hco.
    by replace (0 + Z.of_nat n) with (Z.of_nat n) in Hc by lia.
Qed.

End Selection.

(** The property as the specification words it: a path that is not a track
    of the item leaves the current position as it was. *)
Definition setCurrent_as_specified `{Environment} (st : Store) (i : Z) (p : Path) : Prop :=
  ∀ it, index (itemsOf st) i = Some it →
    (∀ t, t ∈ tracks it → root it ++ t ≠ p) →
    currentOf (setCurrent i p st).2 = currentOf st.

(** Selecting [Root, X, Z, 0], which is no track of [itemX], moves the
    current position from (0, 0) to (0, -1). *)
Lemma setCurrent_absent_counterexample :
  ¬ @setCurrent_as_specified exampleEnvironment storeXY_playing 0
      [KStr "Root"; KStr "X"; KStr "Z"; KNum 0].
Proof.
  intros Hspec. specialize (Hspec itemX eq_refl).
  assert (∀ t, t ∈ tracks itemX →
            root itemX ++ t ≠ [KStr "Root"; KStr "X"; KStr "Z"; KNum 0]) as Habs.
  { intros t Ht. simpl in Ht. set_unfold. destruct Ht as [->|[->|[->|[]]]]; done. }
  specialize (Hspec Habs). vm_compute in Hspec. discriminate Hspec.
Qed.

(** Selecting [Root, X, B, 0], the third track of [itemX]. *)
Lemma setCurrent_sets_current_witness :
  index (itemsOf storeXY_playing) 0 = Some itemX ∧
  ∃ st', @setCurrent exampleEnvironment 0 [KStr "Root"; KStr "X"; KStr "B"; KNum 0]
           storeXY_playing = (Some tt, st') ∧
    currentOf st' =
      Some (mkCurrent 0 2 (Some [KStr "Root"; KStr "X"; KStr "B"; KNum 0])).
Proof.
  split; [reflexivity|].
  destruct (@setCurrent_sets_current exampleEnvironment 0
              [KStr "Root"; KStr "X"; KStr "B"; KNum 0] storeXY_playing itemX eq_refl)
    as (st' & E & _ & _ & Hfound).
  exists st'. split; [exact E|].
  refine (proj2 (Hfound 2%nat [KStr "B"; KNum 0] eq_refl eq_refl _)).
  intros m t' Hm Ht'. destruct m as [|[|m]]; [| | lia];
    simpl in Ht'; injection Ht' as <-; vm_compute; discriminate.
Defined.

(** ** Removal *)

Section Removal.
Context `{Environment}.

Lemma looseEq_refl k : looseEq k k = true.
Proof. destruct k; simpl; by rewrite ?bool_decide_true. Qed.

Lemma isPathPrefix_loop_app q r : isPathPrefix_loop (q ++ r) q = true.
Proof. induction q as [|k q IH]; [done|]. simpl. by rewrite looseEq_refl. Qed.

Lemma pathsEqual_refl p : _pathsEqual p p = true.
Proof.
  unfold _pathsEqual, _isPathPrefix. rewrite bool_decide_true by done.
  rewrite bool_decide_false by lia. rewrite <- (app_nil_r p) at 1.
  apply isPathPrefix_loop_app.
Qed.

Lemma take_delete_same {A : Type} (l : list A) i :
  (i < length l)%nat → take i (delete i l) = take i l.
Proof.
  intros Hi. rewrite delete_take_drop.
  rewrite take_app_length' by (rewrite length_take; lia). done.
Qed.

Lemma drop_delete_same {A : Type} (l : list A) i :
  (i < length l)%nat → drop i (delete i l) = drop (S i) l.
Proof.
  intros Hi. rewrite delete_take_drop.
  rewrite drop_app_length' by (rewrite length_take; lia). done.
Qed.

(** The [while] loops are filters. *)
Lemma removeTracks_loop_filter q : ∀ fuel i trs,
  (length trs - i ≤ fuel)%nat →
  removeTracks_loop fuel i trs q =
    take i trs ++ filter (λ t, _isPathPrefix t q = false) (drop i trs).
Proof.
  induction fuel as [|fuel IH]; intros i trs Hfuel.
  - rewrite drop_ge by lia. rewrite take_ge by lia. by rewrite app_nil_r.
  - simpl. destruct (trs !! i) as [t|] eqn:Et.
    + rewrite (drop_S _ _ _ Et). destruct (_isPathPrefix t q) eqn:Ep.
      * rewrite IH by (rewrite length_delete by eauto; apply lookup_lt_Some in Et; lia).
        rewrite filter_cons_False by (rewrite Ep; done).
        apply lookup_lt_Some in Et.
        by rewrite take_delete_same, drop_delete_same by lia.
      * rewrite IH by (apply lookup_lt_Some in Et; lia).
        rewrite filter_cons_True by done.
        rewrite (take_S_r _ _ _ Et). by rewrite <- app_assoc.
    + apply lookup_ge_None in Et. rewrite drop_ge by lia. rewrite take_ge by lia.
      by rewrite app_nil_r.
Qed.

Lemma removeTracks_filter trs q :
  _removeTracks trs q = filter (λ t, _isPathPrefix t q = false) trs.
Proof. unfold _removeTracks. rewrite removeTracks_loop_filter by lia. done. Qed.

Lemma removePaths_loop_filter q : ∀ fuel i ps d,
  (length ps - i ≤ fuel)%nat →
  removePaths_loop fuel i ps d q =
    (take i ps ++ filter (λ p, _isPathPrefix p q = false) (drop i ps),
     foldl (λ d p, delete (pathToKey p) d) d
       (filter (λ p, _isPathPrefix p q = true) (drop i ps))).
Proof.
  induction fuel as [|fuel IH]; intros i ps d Hfuel.
  - rewrite drop_ge by lia. rewrite take_ge by lia. by rewrite app_nil_r.
  - simpl. destruct (ps !! i) as [p|] eqn:Et.
    + rewrite (drop_S _ _ _ Et). destruct (_isPathPrefix p q) eqn:Ep.
      * rewrite IH by (rewrite length_delete by eauto; apply lookup_lt_Some in Et; lia).
        rewrite filter_cons_False by (rewrite Ep; done).
        rewrite filter_cons_True by done.
        apply lookup_lt_Some in Et.
        by rewrite take_delete_same, drop_delete_same by lia.
      * rewrite IH by (apply lookup_lt_Some in Et; lia).
        rewrite filter_cons_True by done.
        rewrite filter_cons_False by (rewrite Ep; done).
        rewrite (take_S_r _ _ _ Et). by rewrite <- app_assoc.
    + apply lookup_ge_None in Et. rewrite drop_ge by lia. rewrite take_ge by lia.
      by rewrite app_nil_r.
Qed.

Lemma removePaths_filter ps d q :
  _removePaths ps d q =
    (filter (λ p, _isPathPrefix p q = false) ps,
     foldl (λ d p, delete (pathToKey p) d) d (filter (λ p, _isPathPrefix p q = true) ps)).
Proof. unfold _removePaths. rewrite removePaths_loop_filter by lia. done. Qed.

Lemma length_removelast {A : Type} (l : list A) :
  length (removelast l) = pred (length l).
Proof.
  induction l as [|x l IH]; [done|].
  destruct l as [|y l]; [done|].
  change (removelast (x :: y :: l)) with (x :: removelast (y :: l)).
  change (length (x :: removelast (y :: l))) with (S (length (removelast (y :: l)))).
  by rewrite IH.
Qed.

Lemma removelast_prefix {A : Type} (l : list A) : removelast l `prefix_of` l.
Proof.
  induction l as [|x l IH]; [done|].
  destruct l as [|y l]; [by exists [x]|].
  change (removelast (x :: y :: l)) with (x :: removelast (y :: l)).
  by apply prefix_cons.
Qed.

(** The records that [remove] reads on its way up from [p] are filed
    under keys of prefixes of [p]. None of these keys is [constructor],
    the one key that makes [remove] throw where the item has no record
    for it. *)
Definition plain_keys (p : Path) : Prop :=
  ∀ q, q `prefix_of` p → pathToKey q ≠ "constructor"%string.

Lemma plain_keys_removelast p : plain_keys p → plain_keys (removelast p).
Proof.
  intros Hp q Hq. apply Hp. etrans; [exact Hq | apply removelast_prefix].
Qed.

Lemma dataProperty_plain (d : gmap string Node) p :
  plain_keys p → dataProperty d (pathToKey (removelast p)) ≠ TheObjectFunction.
Proof.
  intros Hp. unfold dataProperty. destruct (d !! _); [done|].
  rewrite bool_decide_false; [done|]. apply Hp, removelast_prefix.
Qed.

Lemma dataProperty_None (d : gmap string Node) k :
  d !! k = None → k ≠ "constructor"%string → dataProperty d k = NoKeys.
Proof. intros Hd Hk. unfold dataProperty. by rewrite Hd, bool_decide_false. Qed.

(** The [do ... while] loop always ends within [S (length path)] passes. *)
Lemma remove_loop_total : ∀ fuel it q,
  (length q < fuel)%nat → is_Some (remove_loop fuel it q).
Proof.
  induction fuel as [|fuel IH]; intros it q Hfuel; [lia|]. simpl.
  destruct (_pathsEqual q (root it)); [by eexists|].
  destruct (_removePaths (paths it) (data it) q) as [ps d].
  destruct (dataProperty d (pathToKey (removelast q))) as [[|ty keys]| |]; try by eexists.
  destruct (bool_decide (len (splice1 keys (indexOf keys (List.last q KUndef))) = 0)
            && bool_decide (len (removelast q) > 1)) eqn:Econt; [|by eexists].
  apply andb_true_iff in Econt as [_ Hlen%bool_decide_eq_true].
  apply IH. unfold len in Hlen. rewrite length_removelast in *. lia.
Qed.

(** With plain keys the loop does not throw. *)
Lemma remove_loop_plain : ∀ fuel it q r,
  plain_keys q → remove_loop fuel it q = Some r → ∀ it', r ≠ ItemThrown it'.
Proof.
  induction fuel as [|fuel IH]; intros it q r Hq Hr it'; [done|]. simpl in Hr.
  destruct (_pathsEqual q (root it)); [by simplify_eq|].
  destruct (_removePaths (paths it) (data it) q) as [ps d].
  pose proof (dataProperty_plain d q Hq) as Hplain.
  destruct (dataProperty d (pathToKey (removelast q))) as [[|ty keys]| |];
    [by simplify_eq | | done | by simplify_eq].
  destruct (bool_decide _ && bool_decide _); [|by simplify_eq].
  eapply IH; [|exact Hr]. by apply plain_keys_removelast.
Qed.

Lemma splice1_index {A : Type} (l : list A) i x :
  index l i = Some x → splice1 l i = delete (Z.to_nat i) l.
Proof.
  unfold index, splice1. intros Hx. case_decide; [|done].
  apply lookup_lt_Some in Hx. rewrite decide_False by lia.
  f_equal. unfold len. lia.
Qed.

Lemma mutatedInPlace_run items st :
  ∃ st', mutatedInPlace items st = (Some tt, st') ∧
    itemsOf st' = items ∧ currentOf st' = currentOf st ∧ console st' = console st.
Proof.
  unfold itemsOf, currentOf, getPlaylistItems, getPlaylistCurrent, mutatedInPlace.
  destruct st as [its cur lsi lsc co]; simpl; accessor_run.
Qed.

(** [remove] on an existing item, read off the result of its loop: a loop
    that throws leaves the item as mutated so far and the current position
    in place. *)
Lemma remove_run i p st it r :
  index (itemsOf st) i = Some it →
  remove_loop (S (length p)) it p = Some r →
  ∃ st', remove i p st = (if r is ItemThrown _ then None else Some (Some tt), st') ∧
    currentOf st' = (if r is ItemThrown _ then currentOf st else None) ∧
    itemsOf st' = match r with
                  | ItemRemoved => delete (Z.to_nat i) (itemsOf st)
                  | ItemKept it' | ItemThrown it' => <[Z.to_nat i := it']> (itemsOf st)
                  end ∧
    console st' = console st.
Proof.
  intros Hit Hr. unfold remove. run_get. rewrite Hit.
  unfold mbind at 1, M_bind at 1, defined, mret at 1, M_ret at 1. cbv beta iota.
  rewrite Hr. destruct r as [|it'|it'].
  - match goal with
    | |- context [ (setPlaylistCurrent None ≫= _) ?s ] =>
        destruct (setPlaylistCurrent_run None s) as (st1 & E1 & ? & ? & ?)
    end.
    rewrite (bind_run _ _ _ _ _ E1).
    match goal with
    | |- context [ (setPlaylistItems ?l ≫= _) ?s ] =>
        destruct (setPlaylistItems_run l s) as (st2 & E2 & Hi2 & ? & ?)
    end.
    rewrite (bind_run _ _ _ _ _ E2). exists st2. split; [done|].
    split; [congruence|]. split; [|congruence].
    rewrite Hi2. unfold _removeItem. by eapply splice1_index.
  - match goal with
    | |- context [ (setPlaylistCurrent None ≫= _) ?s ] =>
        destruct (setPlaylistCurrent_run None s) as (st1 & E1 & ? & ? & ?)
    end.
    rewrite (bind_run _ _ _ _ _ E1).
    match goal with
    | |- context [ (setPlaylistItems ?l ≫= _) ?s ] =>
        destruct (setPlaylistItems_run l s) as (st2 & E2 & Hi2 & ? & ?)
    end.
    rewrite (bind_run _ _ _ _ _ E2). exists st2. split; [done|].
    split; [congruence|]. split; [done | congruence].
  - match goal with
    | |- context [ (mutatedInPlace ?l ≫= _) ?s ] =>
        destruct (mutatedInPlace_run l s) as (st1 & E1 & Hi1 & ? & ?)
    end.
    rewrite (bind_run _ _ _ _ _ E1). exists st1. split; [done|].
    split; [congruence|]. split; [done | congruence].
Qed.


(** An item index that names no item makes [remove] throw at [item.root],
    before it has changed anything. *)
Lemma remove_missing i p st :
  index (itemsOf st) i = None →
  ∃ st', remove i p st = (None, st') ∧ same_view st st'.
Proof.
  intros Hnone. unfold remove. run_get. rewrite Hnone.
  eexists. split; [done|]. view_done.
Qed.

(** C4 (amended). On an item index that names an item of the playlist:
    [remove] with the root of that item for a path returns, takes that
    item out of the playlist and leaves every other item as it was, in
    the same order; [remove] with any path returns when no prefix of the
    path has the key [constructor]; and whenever [remove] returns, root or
    not, it has cleared the current position. On an item index that names
    no item [remove] throws, and the current position stays as it was. *)
Theorem remove_deletes_root_item (i : Z) (p : Path) (st : Store) :
  (∀ it, index (itemsOf st) i = Some it →
     (p = root it →
        ∃ st', remove i p st = (Some (Some tt), st') ∧ currentOf st' = None ∧
          itemsOf st' =
            take (Z.to_nat i) (itemsOf st) ++ drop (S (Z.to_nat i)) (itemsOf st) ∧
          (∀ j, (j < Z.to_nat i)%nat → itemsOf st' !! j = itemsOf st !! j) ∧
          (∀ j, (Z.to_nat i ≤ j)%nat → itemsOf st' !! j = itemsOf st !! S j)) ∧
     (plain_keys p →
        ∃ st', remove i p st = (Some (Some tt), st') ∧ currentOf st' = None) ∧
     (∀ r st', remove i p st = (Some r, st') → r = Some tt ∧ currentOf st' = None)) ∧
  (index (itemsOf st) i = None →
     ∃ st', remove i p st = (None, st') ∧
       itemsOf st' = itemsOf st ∧ currentOf st' = currentOf st).
Proof.
  split.
  - intros it Hit.
    destruct (remove_loop_total (S (length p)) it p) as [r Hr]; [lia|].
    destruct (remove_run i p st it r Hit Hr) as (st' & E & Hc & Hi & _).
    split; [|split].
    + intros ->. simpl in Hr. rewrite pathsEqual_refl in Hr. injection Hr as <-.
      exists st'. split; [done|]. split; [done|].
      rewrite Hi. split; [apply delete_take_drop|]. split.
      * intros j Hj. by apply list_lookup_delete_lt.
      * intros j Hj. by apply list_lookup_delete_ge.
    + intros Hp. pose proof (remove_loop_plain _ _ _ _ Hp Hr) as Hno.
      exists st'. destruct r as [| |it']; [done | done | by destruct (Hno it')].
    + intros r' st'' E'. rewrite E in E'. destruct r as [| |it']; by simplify_eq.
  - intros Hnone. destruct (remove_missing i p st Hnone) as (st' & E & Hi & Hc & _).
    by exists st'.
Qed.

End Removal.

(** The property as the specification words it: every REMOVE sets the
    current position to null. *)
Definition remove_clears_as_specified `{Environment}
    (st : Store) (i : Z) (p : Path) : Prop :=
  currentOf (remove i p st).2 = None.

(** There is no item 7 in the playlist of [itemX] and [itemY]: REMOVE
    throws at [item.root] and the position stays on the first track. *)
Lemma remove_missing_item_counterexample :
  ¬ @remove_clears_as_specified exampleEnvironment storeXY_playing 7
      [KStr "Root"; KStr "X"].
Proof. intros Hspec. vm_compute in Hspec. discriminate Hspec. Qed.

(** Removing [Root, X], the root of [itemX], leaves [itemY] alone. *)
Lemma remove_deletes_root_item_witness :
  index (itemsOf storeXY_playing) 0 = Some itemX ∧
  ∃ st', @remove exampleEnvironment 0 [KStr "Root"; KStr "X"] storeXY_playing
           = (Some (Some tt), st') ∧
    currentOf st' = None ∧ itemsOf st' = [itemY].
Proof.
  split; [reflexivity|].
  destruct (proj1 (proj1 (@remove_deletes_root_item exampleEnvironment 0
                            [KStr "Root"; KStr "X"] storeXY_playing) itemX eq_refl)
             eq_refl)
    as (st' & E & Hc & Hi & _).
  exists st'. split; [exact E|]. split; [exact Hc | exact Hi].
Defined.

(** C3. The item keeps its tracks and structural paths relative to its
    root, while [remove] is handed the whole path, root first: it tests
    the path against the root and reads the parent's record under the key
    of the whole path, but compares the stored tracks and paths with the
    whole path as well. Removing the track [Root, X, B, 0] of [itemX]
    empties the list recorded for [Root, X, B] and takes [B] out of the
    list recorded for the root, and leaves the track [B, 0], the
    structural path [B] and the record of [Root, X, B] in the item. *)
Theorem remove_whole_path_keeps_the_track :
  ∃ st' it', @remove exampleEnvironment 0 [KStr "Root"; KStr "X"; KStr "B"; KNum 0] storeXY
               = (Some (Some tt), st') ∧
    itemsOf st' = [it'; itemY] ∧
    tracks it' = tracks itemX ∧ [KStr "B"; KNum 0] ∈ tracks it' ∧
    paths it' = paths itemX ∧ [KStr "B"] ∈ paths it' ∧
    data it' !! "Root:X" = Some (NodeKeys TYPE_GROUP [KStr "A"]) ∧
    data it' !! "Root:X:B" = Some (NodeKeys TYPE_TRACKS []).
Proof.
  eexists _, _. split; [reflexivity|]. split; [reflexivity|].
  split; [reflexivity|]. split; [set_solver|].
  split; [reflexivity|]. split; [set_solver|]. split; reflexivity.
Qed.

(** Removing the group [A] of [itemX] by its whole path takes [A] out of
    the list recorded for the root and leaves the tracks of [A] in the
    track list; removing it by its path relative to the root drops the
    tracks and leaves [A] in the list recorded for the root. *)
Example remove_group_by_whole_path :
  ∃ it', itemsOf (@remove exampleEnvironment 0 [KStr "Root"; KStr "X"; KStr "A"] storeXY).2
           = [it'; itemY] ∧
    tracks it' = tracks itemX ∧ paths it' = paths itemX ∧
    data it' !! "Root:X" = Some (NodeKeys TYPE_GROUP [KStr "B"]) ∧
    data it' !! "Root:X:A" = Some (NodeKeys TYPE_TRACKS [KNum 0; KNum 1]).
Proof. eexists. split; [reflexivity|]. repeat split. Qed.

Example remove_group_by_relative_path :
  ∃ it', itemsOf (@remove exampleEnvironment 0 [KStr "A"] storeXY).2 = [it'; itemY] ∧
    tracks it' = [[KStr "B"; KNum 0]] ∧ paths it' = [[]; [KStr "B"]] ∧
    data it' = data itemX.
Proof. eexists. split; [reflexivity|]. repeat split. Qed.

(** Removing the only track [Root, Y, 0] of [itemY] empties the list
    recorded for the root [Root, Y], which has two keys: the walk goes on
    with the root and the whole item is taken out of the playlist. *)
Example remove_last_track_takes_the_item :
  itemsOf (@remove exampleEnvironment 1 [KStr "Root"; KStr "Y"; KNum 0] storeXY).2
    = [itemX].
Proof. reflexivity. Qed.

(** An item whose root [Root, C] has a group with the key [constructor],
    and the removal of the track 0 of that group by the path below the
    root: the track is spliced out of the track list, the parent's key is
    [constructor], for which the item has no record, and [remove] throws.
    The variable holds the item without the track, [localStorage] (empty
    here, as in a store that has not been written yet) was not written,
    and the current position was not cleared. *)
Definition itemC : Item :=
  mkItem [KStr "Root"; KStr "C"]
    [[]; [KStr "constructor"]]
    (<["Root:C" := NodeKeys TYPE_GROUP [KStr "constructor"]]>
       (<["Root:C:constructor" := NodeKeys TYPE_TRACKS [KNum 0]]> ∅))
    [[KStr "constructor"; KNum 0]].

Example remove_throws_after_splicing :
  let cur := mkCurrent 0 0 (Some [KStr "Root"; KStr "C"; KStr "constructor"; KNum 0]) in
  let st := mkStore (Some [itemC]) (Some cur) (Some [itemC]) (Some (Some cur)) [] in
  ∃ st', @remove exampleEnvironment 0 [KStr "constructor"; KNum 0] st = (None, st') ∧
    (tracks <$> itemsOf st') = [[]] ∧
    (tracks <$> default [] (ls_playlistItems st')) = [tracks itemC] ∧
    currentOf st' = Some cur.
Proof. intros cur st. eexists. split; [reflexivity|]. repeat split. Qed.

(** ** Expansion *)

Section Expansion.
Context `{Environment}.

(** Paths ordered by depth. *)
Definition by_depth : list Path → Prop :=
  StronglySorted (λ p q : Path, (length p ≤ length q)%nat).

(** The queue holds the nodes of one depth followed by nodes of the next,
    and every path already recorded is no deeper than the queue's head. *)
Definition frontier (b : Build) : Prop :=
  ∃ d, (∀ p, p ∈ b_paths b → (length p ≤ d)%nat) ∧
       by_depth (b_paths b) ∧ by_depth (queue b) ∧
       (∀ p, p ∈ queue b → (d ≤ length p ≤ d + 1)%nat).

Lemma frontier_step p q' children trs d' b :
  queue b = p :: q' → frontier b →
  (∀ x, x ∈ children → length x = S (length p)) →
  frontier (mkBuild (q' ++ children) trs d' (b_paths b ++ [p])).
Proof.
  intros Hq (d & Hrec & Hsp & Hsq & Hbound) Hch. rewrite Hq in Hsq, Hbound.
  apply StronglySorted_cons in Hsq as [Hhd Hsq']. rewrite Forall_forall in Hhd.
  assert (d ≤ length p ≤ d + 1)%nat as Hp by (apply Hbound; left).
  exists (length p). simpl. split; [|split; [|split]].
  - intros x [Hx|Hx%list_elem_of_singleton]%elem_of_app; [|by subst].
    apply Hrec in Hx. lia.
  - apply StronglySorted_app_2; [| done | by repeat constructor].
    intros x y Hx Hy%list_elem_of_singleton. subst y. apply Hrec in Hx. lia.
  - apply StronglySorted_app_2; [| done |].
    + intros x y Hx Hy. rewrite (Hch y Hy).
      assert (length x ≤ d + 1)%nat by (apply Hbound; by right). lia.
    + clear -Hch. induction children as [|y ys IH]; [constructor|].
      constructor.
      * apply IH. intros x Hx. apply Hch. by right.
      * apply Forall_forall. intros x Hx.
        rewrite (Hch y) by (by left). rewrite (Hch x) by (by right). done.
  - intros x [Hx|Hx]%elem_of_app; [| rewrite (Hch _ Hx); lia].
    assert (length x ≤ d + 1)%nat by (apply Hbound; by right).
    specialize (Hhd x Hx). simpl in Hhd. lia.
Qed.

Lemma build_loop_frontier rt : ∀ fuel b st b' st',
  build_loop fuel rt b st = (Some (Some b'), st') →
  frontier b → queue b' = [] ∧ by_depth (b_paths b').
Proof.
  induction fuel as [|fuel IH]; intros b st b' st' Hrun Hfr;
    simpl in Hrun; destruct (queue b) as [|p q'] eqn:Hq.
  - injection Hrun as <- <-. destruct Hfr as (d & _ & Hs & _). done.
  - done.
  - injection Hrun as <- <-. destruct Hfr as (d & _ & Hs & _). done.
  - destruct (getCollection (rt ++ p)) as [c|]; [|done].
    unfold mbind at 1, M_bind at 1 in Hrun. simpl in Hrun.
    destruct (Groups c) as [gs|]; [|destruct (Tracks c) as [ts|]];
      unfold mbind at 1, M_bind at 1 in Hrun; simpl in Hrun;
      apply IH in Hrun; try done.
    + apply (frontier_step p q' _ _ _ b Hq Hfr).
      intros x (g & -> & _)%list_elem_of_fmap. rewrite length_app. simpl. lia.
    + rewrite <- (app_nil_r q'). apply (frontier_step p q' [] _ _ b Hq Hfr).
      intros x Hx. by apply elem_of_nil in Hx.
    + rewrite <- (app_nil_r q'). apply (frontier_step p q' [] _ _ b Hq Hfr).
      intros x Hx. by apply elem_of_nil in Hx.
Qed.

(** Expansion is breadth first: whenever it returns an item, the
    structural paths of the item are recorded in order of depth. *)
Lemma buildPlaylistItem_by_depth fuel rt st it st' :
  buildPlaylistItem fuel rt st = (Some (Some it), st') → by_depth (paths it).
Proof.
  unfold buildPlaylistItem. intros Hrun.
  destruct (build_loop fuel rt (mkBuild [[]] [] ∅ []) st) as [[[b|]|] st1] eqn:Hloop;
    unfold mbind, M_bind in Hrun; rewrite Hloop in Hrun; simpl in Hrun; try done.
  injection Hrun as <- <-. simpl.
  apply (build_loop_frontier rt fuel _ st b st1 Hloop).
  exists 0%nat. simpl. split; [|split; [|split]].
  - intros p Hp. by apply elem_of_nil in Hp.
  - constructor.
  - by repeat constructor.
  - intros p Hp. apply list_elem_of_singleton in Hp as ->. simpl. lia.
Qed.

(** Expanding a root whose collection has the groups [A] and [B], [A] a
    leaf with two tracks and [B] a leaf with one: three turns of the loop
    visit the root, [A] and [B] in that order, and neither the store nor
    the console is touched. *)
Lemma buildPlaylistItem_two_leaves (rt : Path) (A B : Key) (c cA cB : Collection Track)
    (t0 t1 t2 : Track) (fuel : nat) (st : Store) :
  getCollection rt = Some c → Groups c = Some [mkGroup A; mkGroup B] →
  getCollection (rt ++ [A]) = Some cA → Groups cA = None → Tracks cA = Some [t0; t1] →
  getCollection (rt ++ [B]) = Some cB → Groups cB = None → Tracks cB = Some [t2] →
  (3 ≤ fuel)%nat →
  ∃ it, buildPlaylistItem fuel rt st = (Some (Some it), st) ∧
    root it = rt ∧
    paths it = [[]; [A]; [B]] ∧
    data it = <[pathToKey (rt ++ [B]) := NodeKeys TYPE_TRACKS [KNum 0]]>
                (<[pathToKey (rt ++ [A]) := NodeKeys TYPE_TRACKS [KNum 0; KNum 1]]>
                   (<[pathToKey rt := NodeKeys TYPE_GROUP [A; B]]> ∅)) ∧
    tracks it = [[A; KNum 0]; [A; KNum 1]; [B; KNum 0]] ∧
    (λ t, rt ++ t) <$> tracks it =
      [rt ++ [A; KNum 0]; rt ++ [A; KNum 1]; rt ++ [B; KNum 0]].
Proof.
  intros Hc Hg HcA HgA HtA HcB HgB HtB Hfuel.
  destruct fuel as [|[|[|fuel]]]; try lia.
  eexists. split.
  - unfold buildPlaylistItem.
    unfold build_loop at 1. fold build_loop. cbn [queue].
    rewrite app_nil_r, Hc. cbn [defined]. unfold mbind at 2, M_bind at 2.
    cbn [mret M_ret]. rewrite Hg. unfold mbind at 2, M_bind at 2. cbn [mret M_ret].
    cbn [groupPaths groupKeys fmap list_fmap GroupKey app b_tracks b_data b_paths].
    unfold build_loop at 1. fold build_loop. cbn [queue].
    rewrite HcA. cbn [defined]. unfold mbind at 2, M_bind at 2.
    cbn [mret M_ret]. rewrite HgA, HtA. unfold mbind at 2, M_bind at 2. cbn [mret M_ret].
    cbn [trackPaths trackKeys imap app b_tracks b_data b_paths].
    unfold build_loop at 1. fold build_loop. cbn [queue].
    rewrite HcB. cbn [defined]. unfold mbind at 2, M_bind at 2.
    cbn [mret M_ret]. rewrite HgB, HtB. unfold mbind at 2, M_bind at 2. cbn [mret M_ret].
    cbn [trackPaths trackKeys imap app b_tracks b_data b_paths].
    destruct fuel; reflexivity.
  - simpl. repeat split.
Qed.

End Expansion.

(** The property as the specification words it: the track list holds the
    paths with the root in front. *)
Definition expansion_as_specified `{Environment} (rt : Path) (A B : Key) : Prop :=
  ∀ fuel st it st', buildPlaylistItem fuel rt st = (Some (Some it), st') →
    tracks it = [rt ++ [A; KNum 0]; rt ++ [A; KNum 1]; rt ++ [B; KNum 0]].

(** Expanding [Root, X] yields [[A,0],[A,1],[B,0]], not
    [[Root,X,A,0],[Root,X,A,1],[Root,X,B,0]]. *)
Lemma expansion_relative_counterexample :
  ¬ @expansion_as_specified exampleEnvironment [KStr "Root"; KStr "X"] (KStr "A") (KStr "B").
Proof.
  intros Hspec. specialize (Hspec 3%nat storeXY _ _ eq_refl). discriminate Hspec.
Qed.

(** ** Positions that name a track *)

(** The position [c] names an item of the playlist and a track of it. *)
Definition in_range (items : list Item) (c : Current) : Prop :=
  ∃ it, index items (item c) = Some it ∧ 0 ≤ track c < len (tracks it).

(** The position [c] names a track and carries its path, root first. *)
Definition resolves (items : list Item) (c : Current) : Prop :=
  ∃ it t, index items (item c) = Some it ∧ index (tracks it) (track c) = Some t ∧
    path c = Some (root it ++ t).

Lemma index_Some {A : Type} (l : list A) (i : Z) (x : A) :
  index l i = Some x → 0 ≤ i < len l.
Proof.
  unfold index, len. intros Hx. case_decide; [|done].
  apply lookup_lt_Some in Hx. lia.
Qed.

Lemma index_is_Some {A : Type} (l : list A) (i : Z) :
  0 ≤ i < len l → is_Some (index l i).
Proof.
  unfold index, len. intros Hi. rewrite decide_True by lia.
  apply lookup_lt_is_Some. lia.
Qed.

Lemma resolves_in_range items c : resolves items c → in_range items c.
Proof.
  intros (it & t & Hit & Ht & _). exists it. split; [done|]. by eapply index_Some.
Qed.

Lemma next_current_in_range items c it :
  index items (item c) = Some it → 0 ≤ track c < len (tracks it) →
  ∃ r, next_current items (Some c) = Some r ∧
    match r with
    | None => track c + 1 = len (tracks it) ∧ item c + 1 = len items
    | Some c1 =>
        (item c1 = item c ∧ track c1 = track c + 1 ∧ track c1 < len (tracks it) ∧
         path c1 = Some (concat (root it) (index (tracks it) (track c1)))) ∨
        (track c + 1 = len (tracks it) ∧ item c1 = item c + 1 ∧ track c1 = 0 ∧
         ∃ it1, index items (item c1) = Some it1 ∧
           path c1 = Some (concat (root it1) (index (tracks it1) 0)))
    end.
Proof.
  intros Hit Ht. pose proof (index_Some _ _ _ Hit) as Hi.
  simpl. rewrite Hit. simpl. case_bool_decide; [|case_bool_decide].
  - eexists. split; [done|]. left. simpl. repeat split; lia.
  - destruct (index_is_Some items (item c + 1)) as [it1 Hit1]; [lia|].
    rewrite Hit1. simpl. eexists. split; [done|]. right. simpl.
    split; [lia|]. split; [done|]. split; [done|]. by exists it1.
  - eexists. split; [done|]. simpl. lia.
Qed.

Lemma prev_current_in_range items c it :
  index items (item c) = Some it → 0 ≤ track c →
  ∃ r, prev_current items (Some c) = Some (Some r) ∧
    ((0 < track c ∧ item r = item c ∧ track r = track c - 1 ∧
      path r = Some (concat (root it) (index (tracks it) (track r)))) ∨
     (track c = 0 ∧ 0 < item c ∧ item r = item c - 1 ∧
      ∃ it1, index items (item r) = Some it1 ∧ track r = len (tracks it1) - 1 ∧
        path r = Some (concat (root it1) (index (tracks it1) (track r)))) ∨
     (track c = 0 ∧ item c = 0 ∧ r = c)).
Proof.
  intros Hit Ht. pose proof (index_Some _ _ _ Hit) as Hi.
  simpl. rewrite Hit. simpl. case_bool_decide; [|case_bool_decide].
  - eexists. split; [done|]. left. simpl. repeat split; lia.
  - destruct (index_is_Some items (item c - 1)) as [it1 Hit1]; [lia|].
    rewrite Hit1. simpl. eexists. split; [done|]. right. left. simpl.
    split; [lia|]. split; [lia|]. split; [done|]. by exists it1.
  - eexists. split; [done|]. right. right. repeat split; lia.
Qed.

Lemma next_at st c r :
  currentOf st = Some c → next_current (itemsOf st) (Some c) = Some r →
  ∃ st', next st = (Some tt, st') ∧ itemsOf st' = itemsOf st ∧ currentOf st' = r ∧
    console st' = console st.
Proof.
  intros Hc Hr. destruct (next_run st) as (st' & E & Hi & Hc' & Hco).
  rewrite Hc, Hr in E, Hc'. by exists st'.
Qed.

Lemma prev_at st c r :
  currentOf st = Some c → prev_current (itemsOf st) (Some c) = Some r →
  ∃ st', prev st = (Some tt, st') ∧ itemsOf st' = itemsOf st ∧ currentOf st' = r ∧
    console st' = console st.
Proof.
  intros Hc Hr. destruct (prev_run st) as (st' & E & Hi & Hc' & Hco).
  rewrite Hc, Hr in E, Hc'. by exists st'.
Qed.

Lemma index_concat (rt : Path) (trs : list Path) (j : Z) :
  0 ≤ j < len trs → ∃ t, index trs j = Some t ∧ concat rt (index trs j) = rt ++ t.
Proof.
  intros Hj. destruct (index_is_Some trs j Hj) as [t Ht]. exists t. by rewrite Ht.
Qed.

(** X1. On a position that names a track, [next] and [prev] undo each
    other: when [next] leaves a current position, a following [prev] is
    back on the (item, track) pair it started from, and when [prev] moves
    the position, a following [next] is back on that pair. *)
Theorem prev_undoes_next (st : Store) (c : Current) :
  currentOf st = Some c → in_range (itemsOf st) c →
  (∃ st1, next st = (Some tt, st1) ∧
     ∀ c1, currentOf st1 = Some c1 →
       ∃ st2, prev st1 = (Some tt, st2) ∧ positionOf st2 = Some (item c, track c)) ∧
  (∃ st1, prev st = (Some tt, st1) ∧
     (positionOf st1 ≠ Some (item c, track c) →
        ∃ st2, next st1 = (Some tt, st2) ∧ positionOf st2 = Some (item c, track c))).
Proof.
  intros Hc (it & Hit & Ht). pose proof (index_Some _ _ _ Hit) as Hi. split.
  - destruct (next_current_in_range _ _ _ Hit Ht) as (r & Hr & Hcase).
    destruct (next_at st c r Hc Hr) as (st1 & E1 & Hi1 & Hc1 & _).
    exists st1. split; [done|]. intros c1 Hc1'. rewrite Hc1' in Hc1. subst r.
    assert (∃ c2, prev_current (itemsOf st1) (Some c1) = Some (Some c2) ∧
              item c2 = item c ∧ track c2 = track c) as (c2 & Hp & Hi2 & Ht2).
    { rewrite Hi1. simpl.
      destruct Hcase as [(Hic & Htc & _)|(Hlast & Hic & Htc & it1 & Hit1 & _)].
      - rewrite Hic, Hit. simpl. rewrite bool_decide_true by lia.
        eexists. split; [done|]. simpl. split; [done | lia].
      - rewrite Hit1. simpl. rewrite bool_decide_false by lia.
        rewrite bool_decide_true by lia.
        replace (item c1 - 1) with (item c) by lia. rewrite Hit. simpl.
        eexists. split; [done|]. simpl. split; [done | lia]. }
    destruct (prev_at st1 c1 _ Hc1' Hp) as (st2 & E2 & _ & Hc2 & _).
    exists st2. split; [done|]. unfold positionOf. rewrite Hc2. simpl. by rewrite Hi2, Ht2.
  - destruct (prev_current_in_range _ _ _ Hit (proj1 Ht)) as (r & Hr & Hcase).
    destruct (prev_at st c _ Hc Hr) as (st1 & E1 & Hi1 & Hc1 & _).
    exists st1. split; [done|]. intros Hmoved.
    assert (∃ c2, next_current (itemsOf st1) (Some r) = Some (Some c2) ∧
              item c2 = item c ∧ track c2 = track c) as (c2 & Hn & Hi2 & Ht2).
    { rewrite Hi1. simpl.
      destruct Hcase as [(Hpos & Hir & Htr & _)|[(Hz & Hpos & Hir & it1 & Hit1 & Htr & _)
                                                |(_ & _ & ->)]].
      - rewrite Hir, Hit. simpl. rewrite bool_decide_true by lia.
        eexists. split; [done|]. simpl. split; [done | lia].
      - rewrite Hit1. simpl. rewrite bool_decide_false by lia.
        rewrite bool_decide_true by lia.
        replace (item r + 1) with (item c) by lia. rewrite Hit. simpl.
        eexists. split; [done|]. simpl. split; [done | lia].
      - exfalso. apply Hmoved. unfold positionOf. by rewrite Hc1. }
    destruct (next_at st1 r _ Hc1 Hn) as (st2 & E2 & _ & Hc2 & _).
    exists st2. split; [done|]. unfold positionOf. rewrite Hc2. simpl. by rewrite Hi2, Ht2.
Qed.

(** X2. In a playlist whose items all hold a track, [next] and [prev]
    keep a position that names a track on one: [next] clears the position
    or selects a track of the playlist and records its path with the item
    root in front, and so does [prev] unless it stays put. [reset] selects
    the first track of the first item and records its path as the item
    stores it, without the root. *)
Theorem traversal_stays_on_tracks (st : Store) (c : Current) :
  Forall (λ it, tracks it ≠ []) (itemsOf st) →
  currentOf st = Some c → in_range (itemsOf st) c →
  (∃ st1, next st = (Some tt, st1) ∧ itemsOf st1 = itemsOf st ∧
     ∀ c1, currentOf st1 = Some c1 → resolves (itemsOf st) c1) ∧
  (∃ st1 c1, prev st = (Some tt, st1) ∧ itemsOf st1 = itemsOf st ∧
     currentOf st1 = Some c1 ∧ in_range (itemsOf st) c1 ∧
     (c1 = c ∨ resolves (itemsOf st) c1)) ∧
  (∃ st1 it t, reset st = (Some tt, st1) ∧ itemsOf st1 = itemsOf st ∧
     index (itemsOf st) 0 = Some it ∧ index (tracks it) 0 = Some t ∧
     currentOf st1 = Some (mkCurrent 0 0 (Some t))).
Proof.
  intros Hall Hc (it & Hit & Ht). pose proof (index_Some _ _ _ Hit) as Hi.
  assert (∀ i it', index (itemsOf st) i = Some it' → 0 < len (tracks it')) as Hfull.
  { intros i it' Hit'. unfold index in Hit'. case_decide; [|done].
    rewrite Forall_lookup in Hall. specialize (Hall _ _ Hit').
    unfold len. destruct (tracks it'); simpl; [done | lia]. }
  split; [|split].
  - destruct (next_current_in_range _ _ _ Hit Ht) as (r & Hr & Hcase).
    destruct (next_at st c r Hc Hr) as (st1 & E1 & Hi1 & Hc1 & _).
    exists st1. split; [done|]. split; [done|]. intros c1 Hc1'.
    rewrite Hc1' in Hc1. subst r.
    destruct Hcase as [(Hic & Htc & Hlt & Hp)|(Hlast & Hic & Htc & it1 & Hit1 & Hp)].
    + destruct (index_concat (root it) (tracks it) (track c1)) as (t & Ht1 & Hcat); [lia|].
      exists it, t. rewrite Hic, Hp, Hcat. done.
    + destruct (index_concat (root it1) (tracks it1) 0) as (t & Ht1 & Hcat).
      { specialize (Hfull _ _ Hit1). lia. }
      exists it1, t. rewrite Htc, Hp, Hcat. done.
  - destruct (prev_current_in_range _ _ _ Hit (proj1 Ht)) as (r & Hr & Hcase).
    destruct (prev_at st c _ Hc Hr) as (st1 & E1 & Hi1 & Hc1 & _).
    exists st1, r. split; [done|]. split; [done|]. split; [done|].
    destruct Hcase as [(Hpos & Hir & Htr & Hp)|[(Hz & Hpos & Hir & it1 & Hit1 & Htr & Hp)
                                               |(_ & _ & ->)]].
    + destruct (index_concat (root it) (tracks it) (track r)) as (t & Ht1 & Hcat); [lia|].
      assert (resolves (itemsOf st) r) as Hres.
      { exists it, t. rewrite Hir, Hp, Hcat. done. }
      split; [by apply resolves_in_range | by right].
    + destruct (index_concat (root it1) (tracks it1) (track r)) as (t & Ht1 & Hcat).
      { specialize (Hfull _ _ Hit1). lia. }
      assert (resolves (itemsOf st) r) as Hres.
      { exists it1, t. rewrite Hp, Hcat. done. }
      split; [by apply resolves_in_range | by right].
    + split; [by exists it | by left].
  - destruct (reset_run st) as (st1 & E & Hi1 & Hc1 & _). simpl in E, Hc1.
    destruct (index_is_Some (itemsOf st) 0) as [it0 Hit0]; [lia|].
    destruct (index_is_Some (tracks it0) 0) as [t Ht0].
    { specialize (Hfull _ _ Hit0). lia. }
    exists st1, it0, t. split; [done|]. split; [done|]. split; [done|]. split; [done|].
    rewrite Hc1. unfold index in Hit0, Ht0. simpl in Hit0, Ht0.
    destruct (itemsOf st) as [|i0 its]; [done|]. simpl in *.
    injection Hit0 as <-. change (Z.to_nat 0) with 0%nat in Ht0. by rewrite Ht0.
Qed.

(** ** Items that are not there *)

Section Bounds.
Context `{Environment}.

Lemma setCurrent_missing i p st :
  index (itemsOf st) i = None →
  ∃ st', setCurrent i p st = (None, st') ∧ same_view st st'.
Proof.
  intros Hnone. unfold setCurrent. run_item. rewrite Hnone.
  eexists. split; [done|]. view_done.
Qed.

(** X3. An item index that names no item of the playlist makes
    [remove] and [setCurrent] throw before they have changed anything: the
    current position is not cleared and nothing is written to the console.
    A current position whose item index names no item does the same to
    [next], [prev] and [canNext], while [canPrev] still answers. *)
Theorem missing_item_throws (st : Store) (i : Z) (p : Path) :
  index (itemsOf st) i = None →
  (∃ st', remove i p st = (None, st') ∧ same_view st st') ∧
  (∃ st', setCurrent i p st = (None, st') ∧ same_view st st') ∧
  (∀ c, currentOf st = Some c → item c = i →
     (∃ st', next st = (None, st') ∧ same_view st st') ∧
     (∃ st', prev st = (None, st') ∧ same_view st st') ∧
     (∃ st', canNext st = (None, st') ∧ same_view st st') ∧
     (∃ b st', canPrev st = (Some b, st') ∧ same_view st st')).
Proof.
  intros Hnone. split; [|split].
  - by apply remove_missing.
  - by apply setCurrent_missing.
  - intros c Hc Hi. subst i. split; [|split; [|split]].
    + destruct (next_run st) as (st' & E & ? & Hc' & ?).
      rewrite Hc in E, Hc'. simpl in E, Hc'. rewrite Hnone in E, Hc'.
      exists st'. split; [done|]. repeat split; simpl in *; congruence.
    + destruct (prev_run st) as (st' & E & ? & Hc' & ?).
      rewrite Hc in E, Hc'. simpl in E, Hc'. rewrite Hnone in E, Hc'.
      exists st'. split; [done|]. repeat split; simpl in *; congruence.
    + destruct (canNext_run st) as (st' & E & Hv).
      rewrite Hc in E. simpl in E. rewrite Hnone in E. by exists st'.
    + destruct (canPrev_run st) as (st' & E & Hv). by eexists _, st'.
Qed.

(** ** What removal leaves *)

Lemma isPathPrefix_nil (t : Path) : _isPathPrefix t [] = true.
Proof. unfold _isPathPrefix. rewrite bool_decide_false; [done | unfold len; simpl; lia]. Qed.

Lemma filter_none {A : Type} (P : A → Prop) `{!∀ x, Decision (P x)} (l : list A) :
  (∀ x, ¬ P x) → filter P l = [].
Proof.
  intros HP. induction l as [|x l IH]; [done|].
  by rewrite filter_cons_False.
Qed.

(** The item that the loop of [remove] leaves, kept or as mutated up to a
    throw. *)
Definition leftBy (r : Removal) : option Item :=
  match r with
  | ItemRemoved => None
  | ItemKept it' | ItemThrown it' => Some it'
  end.



(** X5. Removing the empty path from an item whose root is not empty
    leaves the item in the playlist with no track and no structural path:
    every stored path has the empty path as a prefix. [remove] then reads
    the record under the key of the empty path; it returns with the
    current position cleared unless that key is [constructor], where it
    may throw with the two lists already emptied and the current position
    in place. *)
Theorem remove_empty_path (i : Z) (st : Store) (it : Item) :
  index (itemsOf st) i = Some it → root it ≠ [] →
  ∃ r st' it', remove i [] st = (r, st') ∧
    itemsOf st' = <[Z.to_nat i := it']> (itemsOf st) ∧
    root it' = root it ∧ tracks it' = [] ∧ paths it' = [] ∧
    (r = Some (Some tt) ∧ currentOf st' = None ∨
     r = None ∧ currentOf st' = currentOf st ∧ pathToKey [] = "constructor"%string) ∧
    (pathToKey [] ≠ "constructor"%string → r = Some (Some tt) ∧ currentOf st' = None).
Proof.
  intros Hit Hroot.
  assert (∃ r it', remove_loop 1 it [] = Some r ∧ leftBy r = Some it' ∧
            root it' = root it ∧ tracks it' = [] ∧ paths it' = [] ∧
            (∀ it'', r = ItemThrown it'' → pathToKey [] = "constructor"%string))
    as (r & it' & Hr & Hleft & H1 & H2 & H3 & Hthrown).
  { simpl. unfold _pathsEqual at 1.
    rewrite bool_decide_false by (unfold len; destruct (root it); simpl; [done | lia]).
    simpl. rewrite removeTracks_filter, removePaths_filter.
    assert (∀ l : list Path, filter (λ t, _isPathPrefix t [] = false) l = []) as Hnone.
    { intros l. apply filter_none. intros t. by rewrite isPathPrefix_nil. }
    rewrite !Hnone. unfold dataProperty.
    destruct (_ !! pathToKey []) as [[|ty keys]|] eqn:Ek.
    - by eexists _, _.
    - rewrite andb_false_r. by eexists _, _.
    - case_bool_decide as Hk; by eexists _, _. }
  destruct (remove_run i [] st it _ Hit Hr) as (st' & E & Hc & Hi & _).
  eexists _, st', it'. split; [exact E|].
  split; [by destruct r; simplify_eq/=|].
  split; [done|]. split; [done|]. split; [done|]. split.
  - destruct r as [| |it'']; [by left | by left |]. right.
    split; [done|]. split; [done|]. by apply (Hthrown it'').
  - intros Hk. destruct r as [| |it'']; [done | done |].
    by destruct Hk; apply (Hthrown it'').
Qed.

(** X6. After [remove] on an existing item has returned, as it does when
    no prefix of the path has the key [constructor], the playlist has lost
    its place: whatever was removed, a following [next], and a following
    [prev] just as well, puts the position on track 0 of item 0 of what is
    left, and leaves it cleared when no item is left. When [remove] has
    thrown, the position is where it was. *)
Theorem next_after_remove_starts_over (i : Z) (p : Path) (st : Store) (it : Item) :
  index (itemsOf st) i = Some it →
  ∃ r st1, remove i p st = (r, st1) ∧
    (plain_keys p → r = Some (Some tt)) ∧
    (r = None → currentOf st1 = currentOf st) ∧
    (r = Some (Some tt) →
       ∃ st2 st3, next st1 = (Some tt, st2) ∧ prev st1 = (Some tt, st3) ∧
         itemsOf st2 = itemsOf st1 ∧ itemsOf st3 = itemsOf st1 ∧
         positionOf st2 = (if itemsOf st1 is [] then None else Some (0, 0)) ∧
         positionOf st3 = positionOf st2).
Proof.
  intros Hit.
  destruct (remove_loop_total (S (length p)) it p) as [r Hr]; [lia|].
  destruct (remove_run i p st it r Hit Hr) as (st1 & E & Hc & _).
  eexists _, st1. split; [exact E|]. split; [|split].
  - intros Hp. destruct r as [| |it']; [done | done |].
    by destruct (remove_loop_plain _ _ _ _ Hp Hr it').
  - intros Hr'. by destruct r.
  - intros Hr'. assert (currentOf st1 = None) as Hnull by by destruct r.
    destruct (next_run st1) as (st2 & E2 & Hi2 & Hc2 & _).
    destruct (prev_run st1) as (st3 & E3 & Hi3 & Hc3 & _).
    rewrite Hnull in E2, Hc2, E3, Hc3. simpl in E2, Hc2, E3, Hc3.
    exists st2, st3. split; [done|]. split; [done|].
    split; [done|]. split; [done|]. unfold positionOf. rewrite Hc2, Hc3.
    unfold reset_current. by destruct (itemsOf st1).
Qed.

End Bounds.

(** ** Removal by the whole path and by the path below the root *)

Section Frames.
Context `{Environment}.

Lemma filter_all {A : Type} (P : A → Prop) `{!∀ x, Decision (P x)} (l : list A) :
  (∀ x, x ∈ l → P x) → filter P l = l.
Proof.
  induction l as [|x l IH]; intros HP; [done|].
  rewrite filter_cons_True by (apply HP; by left).
  rewrite IH; [done|]. intros y Hy. apply HP. by right.
Qed.

Lemma foldl_delete_absent (d : gmap string Node) (ps : list Path) :
  (∀ p, p ∈ ps → d !! pathToKey p = None) →
  foldl (λ d p, delete (pathToKey p) d) d ps = d.
Proof.
  induction ps as [|p ps IH]; intros Habs; [done|]. simpl.
  rewrite delete_id by (apply Habs; by left).
  apply IH. intros q Hq. apply Habs. by right.
Qed.

(** A path that begins with [k0] is no prefix, even loosely, of a stored
    path that is empty or begins with another key. *)
Lemma isPathPrefix_other_head (t : Path) (k0 : Key) (rest : Path) :
  (t ≠ [] → looseEq (hd KUndef t) k0 = false) →
  _isPathPrefix t (k0 :: rest) = false.
Proof.
  intros Hhd. unfold _isPathPrefix. case_bool_decide; [done|].
  destruct t as [|t0 t]; [unfold len in *; simpl in *; lia|].
  specialize (Hhd ltac:(done)). simpl in *. by rewrite Hhd.
Qed.

(** X7. An item stores its tracks and structural paths without the
    root, and files its records under the keys of the whole paths. On an
    item where no record is filed under the key of a stored structural
    path, nor under the key of the parent of the path given, which is not
    [constructor], [remove] with a path below the root drops the tracks
    and structural paths that have it as a prefix and leaves every record
    as it was: the record of the parent still lists the child that was
    removed. *)
Theorem remove_below_the_root_keeps_the_records (i : Z) (q : Path) (st : Store)
    (it : Item) :
  index (itemsOf st) i = Some it →
  _pathsEqual q (root it) = false →
  (∀ p, p ∈ paths it → data it !! pathToKey p = None) →
  data it !! pathToKey (removelast q) = None →
  pathToKey (removelast q) ≠ "constructor"%string →
  ∃ st', remove i q st = (Some (Some tt), st') ∧
    itemsOf st' =
      <[Z.to_nat i := mkItem (root it)
                        (filter (λ p, _isPathPrefix p q = false) (paths it))
                        (data it)
                        (filter (λ t, _isPathPrefix t q = false) (tracks it))]>
        (itemsOf st).
Proof.
  intros Hit Hroot Hkeys Hparent Hplain.
  assert (remove_loop (S (length q)) it q =
            Some (ItemKept (mkItem (root it)
                              (filter (λ p, _isPathPrefix p q = false) (paths it))
                              (data it)
                              (filter (λ t, _isPathPrefix t q = false) (tracks it)))))
    as Hr.
  { simpl. rewrite Hroot, removeTracks_filter, removePaths_filter.
    rewrite foldl_delete_absent;
      [| intros p Hp; apply Hkeys; by apply list_elem_of_filter in Hp as [_ ?]].
    by rewrite dataProperty_None. }
  destruct (remove_run i q st it _ Hit Hr) as (st' & E & _ & Hi & _).
  by exists st'.
Qed.

(** The loop of [remove] on a path whose first key is the first key of
    no stored path. *)
Lemma remove_loop_other_head k0 : ∀ fuel it rest r,
  (∀ t, t ∈ tracks it → t ≠ [] → looseEq (hd KUndef t) k0 = false) →
  (∀ p, p ∈ paths it → p ≠ [] → looseEq (hd KUndef p) k0 = false) →
  remove_loop fuel it (k0 :: rest) = Some r →
  r = ItemRemoved ∨
  ∃ it', leftBy r = Some it' ∧ root it' = root it ∧
    tracks it' = tracks it ∧ paths it' = paths it.
Proof.
  induction fuel as [|fuel IH]; intros it rest r Htr Hps Hr; [done|].
  cbn [remove_loop] in Hr.
  destruct (_pathsEqual (k0 :: rest) (root it)); [left; by simplify_eq|].
  rewrite removeTracks_filter, removePaths_filter in Hr.
  rewrite (filter_all (λ t, _isPathPrefix t (k0 :: rest) = false) (tracks it)) in Hr
    by (intros t Ht; apply isPathPrefix_other_head; by apply Htr).
  rewrite (filter_all (λ p, _isPathPrefix p (k0 :: rest) = false) (paths it)) in Hr
    by (intros p Hp; apply isPathPrefix_other_head; by apply Hps).
  cbv zeta in Hr.
  match type of Hr with
  | match ?x with _ => _ end = _ =>
      destruct x as [[|ty keys]| |];
        [right; simplify_eq; by eexists | | right; simplify_eq; by eexists
        | right; simplify_eq; by eexists]
  end.
  match type of Hr with
  | (if ?b && ?c then _ else _) = _ =>
      destruct b; [destruct c eqn:Hgo|]; cbn [andb] in Hr;
        try (right; simplify_eq; by eexists)
  end.
  apply bool_decide_eq_true in Hgo.
  destruct rest as [|k1 rest]; [unfold len in Hgo; simpl in Hgo; lia|].
  change (removelast (k0 :: k1 :: rest)) with (k0 :: removelast (k1 :: rest)) in Hr.
  apply IH in Hr; [|done|done].
  destruct Hr as [->|(it' & Hleft & Hroot & Ht & Hp)]; [by left|].
  right. by exists it'.
Qed.

(** X8. [remove] with a whole path, root first, takes no track out of
    an item that stores its tracks without the root: when no stored track
    or structural path begins with the first key of the path, the item is
    either taken out of the playlist as a whole or left with every track
    and every structural path it had, whatever [remove] does to its
    records, and whether it returns, as it does when no prefix of the
    path has the key [constructor], or throws. *)
Theorem remove_by_the_whole_path_drops_no_track (i : Z) (k0 : Key) (rest : Path)
    (st : Store) (it : Item) :
  index (itemsOf st) i = Some it →
  (∀ t, t ∈ tracks it → t ≠ [] → looseEq (hd KUndef t) k0 = false) →
  (∀ p, p ∈ paths it → p ≠ [] → looseEq (hd KUndef p) k0 = false) →
  ∃ r st', remove i (k0 :: rest) st = (r, st') ∧
    (plain_keys (k0 :: rest) → r = Some (Some tt)) ∧
    (r = Some (Some tt) ∧ itemsOf st' = delete (Z.to_nat i) (itemsOf st) ∨
     ∃ it', itemsOf st' = <[Z.to_nat i := it']> (itemsOf st) ∧
       root it' = root it ∧ tracks it' = tracks it ∧ paths it' = paths it).
Proof.
  intros Hit Htr Hps.
  destruct (remove_loop_total (S (length (k0 :: rest))) it (k0 :: rest)) as [r Hr]; [lia|].
  destruct (remove_run i (k0 :: rest) st it r Hit Hr) as (st' & E & _ & Hi & _).
  eexists _, st'. split; [exact E|]. split.
  - intros Hp. destruct r as [| |it']; [done | done |].
    by destruct (remove_loop_plain _ _ _ _ Hp Hr it').
  - destruct (remove_loop_other_head k0 _ it rest r Htr Hps Hr)
      as [->|(it' & Hleft & Hroot & Ht & Hp)]; [by left|].
    right. exists it'. split; [|done]. by destruct r; simplify_eq/=.
Qed.

End Frames.

(** ** Expansion of a whole subtree *)

Section Subtree.
Context `{Environment}.

(** What one turn of the loop of [buildPlaylistItem] reads off the
    collection of the node [p] below the root [rt]: the paths it puts on the
    queue, the paths it appends to the track list, the record it files, and
    what it writes to the console. *)
Definition childPaths (rt p : Path) : list Path :=
  match getCollection (rt ++ p) with
  | Some c => match Groups c with
              | Some gs => groupPaths p gs
              | None => []
              end
  | None => []
  end.

Definition leafTracks (rt p : Path) : list Path :=
  match getCollection (rt ++ p) with
  | Some c => match Groups c, Tracks c with
              | None, Some ts => trackPaths p ts
              | _, _ => []
              end
  | None => []
  end.

Definition nodeRecord (rt p : Path) : Node :=
  match getCollection (rt ++ p) with
  | Some c => match Groups c, Tracks c with
              | Some gs, _ => NodeKeys TYPE_GROUP (groupKeys gs)
              | None, Some ts => NodeKeys TYPE_TRACKS (trackKeys ts)
              | None, None => NodeEmpty
              end
  | None => NodeEmpty
  end.

Definition complaints (rt p : Path) : list ConsoleMsg :=
  match getCollection (rt ++ p) with
  | Some c => match Groups c, Tracks c with
              | None, None => [ExpectedGroupsOrTracks]
              | _, _ => []
              end
  | None => []
  end.

(** The nodes [n] levels below the root, in the order of their parents
    and, under one parent, of its groups. *)
Fixpoint level (rt : Path) (n : nat) : list Path :=
  match n with
  | O => [[]]
  | S n' => level rt n' ≫= childPaths rt
  end.

(** The nodes of the levels [k], ..., [k + n - 1], level after level. *)
Definition levels (rt : Path) (k n : nat) : list Path :=
  seq k n ≫= level rt.

(** The store after the messages [msgs] were written to the console. *)
Definition written (msgs : list ConsoleMsg) (st : Store) : Store :=
  foldl (λ st m, (console_error m st).2) st msgs.

Definition filed (rt : Path) (d : gmap string Node) (l : list Path) : gmap string Node :=
  foldl (λ d p, <[pathToKey (rt ++ p) := nodeRecord rt p]> d) d l.

Lemma written_app a b st : written (a ++ b) st = written b (written a st).
Proof. unfold written. by rewrite foldl_app. Qed.

Lemma written_view msgs st :
  itemsOf (written msgs st) = itemsOf st ∧ currentOf (written msgs st) = currentOf st ∧
  console (written msgs st) = console st ++ msgs.
Proof.
  revert st. induction msgs as [|m msgs IH]; intros st.
  - simpl. by rewrite app_nil_r.
  - change (written (m :: msgs) st) with (written msgs (console_error m st).2).
    destruct (IH (console_error m st).2) as (Hi & Hc & Hco).
    destruct (console_error_run m st) as (st' & E & Hi' & Hc' & Hco').
    rewrite E in Hi, Hc, Hco |- *. simpl in Hi, Hc, Hco |- *.
    rewrite Hi, Hc, Hco, Hi', Hc', Hco'. by rewrite <- app_assoc.
Qed.

Lemma build_loop_step fuel rt p q' trs d ps st :
  is_Some (getCollection (rt ++ p)) →
  build_loop (S fuel) rt (mkBuild (p :: q') trs d ps) st =
  build_loop fuel rt
    (mkBuild (q' ++ childPaths rt p) (trs ++ leafTracks rt p)
       (<[pathToKey (rt ++ p) := nodeRecord rt p]> d) (ps ++ [p]))
    (written (complaints rt p) st).
Proof.
  intros [c Hc]. unfold childPaths, leafTracks, nodeRecord, complaints. rewrite Hc.
  cbn [build_loop queue b_tracks b_data b_paths]. rewrite Hc. cbn [defined].
  unfold mbind at 1, M_bind at 1. cbn [mret M_ret].
  destruct (Groups c) as [gs|]; [|destruct (Tracks c) as [ts|]].
  - unfold mbind at 1, M_bind at 1. cbn [mret M_ret]. by rewrite app_nil_r.
  - unfold mbind at 1, M_bind at 1. cbn [mret M_ret]. by rewrite app_nil_r.
  - unfold mbind at 1, M_bind at 1. unfold mbind at 1, M_bind at 1.
    cbn [mret M_ret console_error written foldl snd]. by rewrite !app_nil_r.
Qed.

Lemma build_loop_missing fuel rt p q' trs d ps st :
  getCollection (rt ++ p) = None →
  build_loop (S fuel) rt (mkBuild (p :: q') trs d ps) st = (None, st).
Proof. intros Hc. cbn [build_loop queue]. by rewrite Hc. Qed.

(** The turns that take the nodes [l] off the head of the queue. *)
Lemma build_loop_nodes rt : ∀ l fuel acc trs d ps st,
  (∀ p, p ∈ l → is_Some (getCollection (rt ++ p))) →
  build_loop (length l + fuel) rt (mkBuild (l ++ acc) trs d ps) st =
  build_loop fuel rt
    (mkBuild (acc ++ (l ≫= childPaths rt)) (trs ++ (l ≫= leafTracks rt))
       (filed rt d l) (ps ++ l))
    (written (l ≫= complaints rt) st).
Proof.
  induction l as [|p l IH]; intros fuel acc trs d ps st Hall.
  - simpl. by rewrite !app_nil_r.
  - cbn [length Nat.add app]. rewrite build_loop_step by (apply Hall; left).
    rewrite <- app_assoc, IH by (intros q Hq; apply Hall; by right).
    rewrite !bind_cons, written_app, <- !app_assoc. done.
Qed.

Lemma levels_S rt k n : levels rt k (S n) = level rt k ++ levels rt (S k) n.
Proof. done. Qed.

Lemma levels_snoc rt k n : levels rt k (S n) = levels rt k n ++ level rt (k + n).
Proof.
  unfold levels. rewrite seq_S, bind_app. simpl. by rewrite app_nil_r.
Qed.

Lemma filed_app rt d l1 l2 : filed rt d (l1 ++ l2) = filed rt (filed rt d l1) l2.
Proof. unfold filed. by rewrite foldl_app. Qed.

(** The turns that take whole levels off the queue. *)
Lemma build_loop_levels rt : ∀ n k fuel trs d ps st,
  (∀ p, p ∈ levels rt k n → is_Some (getCollection (rt ++ p))) →
  build_loop (length (levels rt k n) + fuel) rt (mkBuild (level rt k) trs d ps) st =
  build_loop fuel rt
    (mkBuild (level rt (k + n)) (trs ++ (levels rt k n ≫= leafTracks rt))
       (filed rt d (levels rt k n)) (ps ++ levels rt k n))
    (written (levels rt k n ≫= complaints rt) st).
Proof.
  induction n as [|n IH]; intros k fuel trs d ps st Hall.
  - simpl. by rewrite Nat.add_0_r, !app_nil_r.
  - rewrite levels_S in Hall |- *. rewrite length_app, <- Nat.add_assoc.
    rewrite <- (app_nil_r (level rt k)) at 2.
    rewrite build_loop_nodes by (intros p Hp; apply Hall, elem_of_app; by left).
    cbn [app]. change (level rt k ≫= childPaths rt) with (level rt (S k)).
    rewrite IH by (intros p Hp; apply Hall, elem_of_app; by right).
    rewrite !bind_app, filed_app, written_app, <- !app_assoc.
    by rewrite Nat.add_succ_r.
Qed.

Lemma filed_None rt d l k :
  d !! k = None → (∀ p, p ∈ l → pathToKey (rt ++ p) ≠ k) → filed rt d l !! k = None.
Proof.
  revert d. induction l as [|p l IH]; intros d Hd Hl; [done|]. simpl.
  apply IH; [|intros q Hq; apply Hl; by right].
  rewrite lookup_insert_ne; [done|]. apply Hl. by left.
Qed.

Lemma filed_Some rt d l k v :
  (d !! k = Some v ∨ ∃ p, p ∈ l ∧ pathToKey (rt ++ p) = k) →
  (∀ p, p ∈ l → pathToKey (rt ++ p) = k → nodeRecord rt p = v) →
  filed rt d l !! k = Some v.
Proof.
  revert d. induction l as [|p l IH]; intros d Hd Hl; simpl.
  - destruct Hd as [Hd|(p & Hp & _)]; [done | by apply elem_of_nil in Hp].
  - apply IH; [|intros q Hq; apply Hl; by right].
    destruct (decide (pathToKey (rt ++ p) = k)) as [Hk|Hk].
    + left. rewrite <- Hk, lookup_insert_eq. f_equal. apply Hl; [by left | done].
    + destruct Hd as [Hd|(q & Hq & Hqk)].
      * left. by rewrite lookup_insert_ne.
      * apply elem_of_cons in Hq as [->|Hq]; [done|]. right. by exists q.
Qed.

Lemma buildPlaylistItem_subtree (rt : Path) (depth fuel : nat) (st : Store) :
  level rt depth = [] →
  (∀ p, p ∈ levels rt 0 depth → is_Some (getCollection (rt ++ p))) →
  (length (levels rt 0 depth) ≤ fuel)%nat →
  let L := levels rt 0 depth in
  buildPlaylistItem fuel rt st =
    (Some (Some (mkItem rt L (filed rt ∅ L) (L ≫= leafTracks rt))),
     written (L ≫= complaints rt) st).
Proof.
  intros Hdepth Hall Hfuel L. unfold buildPlaylistItem.
  replace fuel with (length L + (fuel - length L))%nat by (unfold L; lia).
  change [[]] with (level rt 0).
  unfold mbind at 1, M_bind at 1.
  rewrite (build_loop_levels rt depth 0) by done. fold L. simpl. rewrite Hdepth.
  by destruct (fuel - length L)%nat.
Qed.

(** Whatever the collections are, expansion leaves the playlist and the
    current position alone. *)
Lemma build_loop_view rt : ∀ fuel b st,
  itemsOf (build_loop fuel rt b st).2 = itemsOf st ∧
  currentOf (build_loop fuel rt b st).2 = currentOf st.
Proof.
  induction fuel as [|fuel IH]; intros [q trs d ps] st.
  - simpl. by destruct q.
  - destruct q as [|p q']; [done|].
    destruct (getCollection (rt ++ p)) as [c|] eqn:Hc.
    + rewrite build_loop_step by by rewrite Hc.
      destruct (IH (mkBuild (q' ++ childPaths rt p) (trs ++ leafTracks rt p)
                      (<[pathToKey (rt ++ p) := nodeRecord rt p]> d) (ps ++ [p]))
                  (written (complaints rt p) st)) as [Hi Hcur].
      destruct (written_view (complaints rt p) st) as (Hi' & Hc' & _).
      split; congruence.
    + by rewrite build_loop_missing.
Qed.

Lemma buildPlaylistItem_view fuel rt st :
  itemsOf (buildPlaylistItem fuel rt st).2 = itemsOf st ∧
  currentOf (buildPlaylistItem fuel rt st).2 = currentOf st.
Proof.
  unfold buildPlaylistItem, mbind, M_bind.
  destruct (build_loop_view rt fuel (mkBuild [[]] [] ∅ []) st) as [Hi Hc].
  by destruct (build_loop fuel rt _ st) as [[b|] st'].
Qed.

(** C6 (amended). Expansion is a breadth-first traversal. For a subtree
    that is [depth] levels deep and whose nodes all have a collection, it
    returns once the loop has had one turn per node, and the item lists
    the nodes level after level, each level in the order of the parents
    and, under one parent, of its groups. A node with groups has their
    keys recorded in their order, a leaf the numbers of its tracks, and
    the track list holds the tracks of the leaves in the order the nodes
    were visited, each as the path from the root of the item to the track,
    the root not being part of it. So a root with the groups [A], a leaf
    with two tracks, and [B], a leaf with one, yields the track list
    [[A,0],[A,1],[B,0]], which prefixed with the root is
    [[root,A,0],[root,A,1],[root,B,0]]. *)
Theorem expansion_is_breadth_first (rt : Path) (depth fuel : nat) (st : Store) :
  level rt depth = [] →
  (∀ p, p ∈ levels rt 0 depth → is_Some (getCollection (rt ++ p))) →
  (length (levels rt 0 depth) ≤ fuel)%nat →
  ∃ it st', buildPlaylistItem fuel rt st = (Some (Some it), st') ∧
    root it = rt ∧
    paths it = levels rt 0 depth ∧
    tracks it = paths it ≫= leafTracks rt ∧
    (∀ p, p ∈ paths it →
       (∀ p', p' ∈ paths it → pathToKey (rt ++ p') = pathToKey (rt ++ p) → p' = p) →
       data it !! pathToKey (rt ++ p) = Some (nodeRecord rt p)) ∧
    (∀ A B c cA cB t0 t1 t2,
       getCollection rt = Some c → Groups c = Some [mkGroup A; mkGroup B] →
       getCollection (rt ++ [A]) = Some cA → Groups cA = None →
       Tracks cA = Some [t0; t1] →
       getCollection (rt ++ [B]) = Some cB → Groups cB = None →
       Tracks cB = Some [t2] →
       paths it = [[]; [A]; [B]] ∧
       tracks it = [[A; KNum 0]; [A; KNum 1]; [B; KNum 0]] ∧
       (λ t, rt ++ t) <$> tracks it =
         [rt ++ [A; KNum 0]; rt ++ [A; KNum 1]; rt ++ [B; KNum 0]]).
Proof.
  intros Hdepth Hall Hfuel.
  pose proof (buildPlaylistItem_subtree rt depth fuel st Hdepth Hall Hfuel) as Hrun.
  simpl in Hrun. set (L := levels rt 0 depth) in *.
  eexists _, _. split; [exact Hrun|]. simpl.
  split; [done|]. split; [done|]. split; [done|]. split.
  - intros p Hp Huniq. apply filed_Some; [right; by exists p|].
    intros p' Hp' Hk. by rewrite (Huniq p' Hp' Hk).
  - intros A B c cA cB t0 t1 t2 Hc Hg HcA HgA HtA HcB HgB HtB.
    assert (level rt 1 = [[A]; [B]]) as Hl1.
    { unfold level. rewrite bind_cons. change ([] ≫= childPaths rt) with (@nil Path).
      rewrite app_nil_r. unfold childPaths. rewrite app_nil_r, Hc, Hg. done. }
    assert (3 ≤ fuel)%nat as H3.
    { destruct depth as [|[|depth]]; [done | by rewrite Hl1 in Hdepth |].
      unfold L in Hfuel. rewrite !levels_S, !length_app, Hl1 in Hfuel.
      simpl in Hfuel. lia. }
    destruct (buildPlaylistItem_two_leaves rt A B c cA cB t0 t1 t2 fuel st
                Hc Hg HcA HgA HtA HcB HgB HtB H3) as (it0 & E0 & _ & Hp0 & _ & Ht0 & Hf0).
    rewrite Hrun in E0. injection E0 as E0 _. subst it0. simpl in *. done.
Qed.

(** X9. Expansion of a subtree that is [depth] levels deep and whose
    nodes all have a collection returns once the loop has had one turn per
    node. The item lists the nodes level after level; its tracks are those
    of the leaves in the order of the nodes, each as the path from the
    root of the item (which is not part of it) to the track; a node whose
    key no other node shares has its record filed under that key, and no
    key is used but those of the nodes. A node that has neither groups nor
    tracks is written to the console, recorded as an empty object, and the
    expansion goes on. The playlist and the current position are not
    touched. *)
Theorem expansion_of_a_subtree (rt : Path) (depth fuel : nat) (st : Store) :
  level rt depth = [] →
  (∀ p, p ∈ levels rt 0 depth → is_Some (getCollection (rt ++ p))) →
  (length (levels rt 0 depth) ≤ fuel)%nat →
  ∃ it st', buildPlaylistItem fuel rt st = (Some (Some it), st') ∧
    root it = rt ∧
    paths it = levels rt 0 depth ∧
    by_depth (paths it) ∧
    tracks it = paths it ≫= leafTracks rt ∧
    (∀ p, p ∈ paths it →
       (∀ p', p' ∈ paths it → pathToKey (rt ++ p') = pathToKey (rt ++ p) → p' = p) →
       data it !! pathToKey (rt ++ p) = Some (nodeRecord rt p)) ∧
    (∀ k, (∀ p, p ∈ paths it → pathToKey (rt ++ p) ≠ k) → data it !! k = None) ∧
    itemsOf st' = itemsOf st ∧ currentOf st' = currentOf st ∧
    console st' = console st ++ (paths it ≫= complaints rt).
Proof.
  intros Hdepth Hall Hfuel.
  pose proof (buildPlaylistItem_subtree rt depth fuel st Hdepth Hall Hfuel) as Hrun.
  simpl in Hrun. set (L := levels rt 0 depth) in *.
  destruct (written_view (L ≫= complaints rt) st) as (Hi & Hc & Hco).
  eexists _, _. split; [exact Hrun|]. simpl.
  split; [done|]. split; [done|].
  split; [exact (buildPlaylistItem_by_depth _ _ _ _ _ Hrun)|].
  split; [done|]. split; [|split; [|done]].
  - intros p Hp Huniq. apply filed_Some; [right; by exists p|].
    intros p' Hp' Hk. by rewrite (Huniq p' Hp' Hk).
  - intros k Hk. by apply filed_None.
Qed.

Lemma first_missing rt (l : list Path) :
  (∃ p, p ∈ l ∧ getCollection (rt ++ p) = None) →
  ∃ l1 p l2, l = l1 ++ p :: l2 ∧ getCollection (rt ++ p) = None ∧
    ∀ q, q ∈ l1 → is_Some (getCollection (rt ++ q)).
Proof.
  induction l as [|q l IH]; intros (p & Hp & Hnone); [by apply elem_of_nil in Hp|].
  destruct (getCollection (rt ++ q)) as [c|] eqn:Hq.
  - destruct IH as (l1 & p' & l2 & -> & Hp' & Hl1).
    { apply elem_of_cons in Hp as [->|Hp]; [congruence | by exists p]. }
    exists (q :: l1), p', l2. split; [done|]. split; [done|].
    intros q' [->|Hq']%elem_of_cons; [by rewrite Hq | by apply Hl1].
  - exists [], q, l. split; [done|]. split; [done|]. intros q' Hq'.
    by apply elem_of_nil in Hq'.
Qed.

(** X10. Expansion throws as soon as the loop reaches a node that has no
    collection, the root included, and then returns no item; the playlist
    and the current position are as they were. *)
Theorem expansion_of_a_missing_node (rt p : Path) (k fuel : nat) (st : Store) :
  (∀ q, q ∈ levels rt 0 k → is_Some (getCollection (rt ++ q))) →
  p ∈ level rt k → getCollection (rt ++ p) = None →
  (length (levels rt 0 (S k)) ≤ fuel)%nat →
  ∃ st', buildPlaylistItem fuel rt st = (None, st') ∧
    itemsOf st' = itemsOf st ∧ currentOf st' = currentOf st.
Proof.
  intros Hall Hp Hnone Hfuel.
  destruct (first_missing rt (level rt k)) as (l1 & p0 & l2 & Hl & Hp0 & Hl1);
    [by exists p|].
  rewrite levels_snoc, length_app in Hfuel. simpl in Hfuel.
  rewrite Hl, length_app in Hfuel. simpl in Hfuel.
  set (L := levels rt 0 k) in *.
  set (msgs := (L ≫= complaints rt) ++ (l1 ≫= complaints rt)).
  assert (buildPlaylistItem fuel rt st = (None, written msgs st)) as Hrun.
  { unfold buildPlaylistItem.
    replace fuel with (length L + (length l1 + S (fuel - length L - length l1 - 1)))%nat
      by lia.
    change [[]] with (level rt 0).
    unfold mbind at 1, M_bind at 1.
    rewrite (build_loop_levels rt k 0) by done. fold L. simpl. rewrite Hl.
    rewrite build_loop_nodes by done. rewrite <- app_comm_cons.
    rewrite build_loop_missing by done. unfold msgs. by rewrite written_app. }
  destruct (written_view msgs st) as (Hi & Hc & _).
  eexists. split; [exact Hrun|]. done.
Qed.

End Subtree.

(** ** The dispatcher callback *)

Section Callback.
Context `{Environment} `{Constants}.

(** What the callback does to the store for the two actions that add an
    item, as functions of the store. *)
Definition append (fuel : nat) (p : Path) : M (option unit) :=
  items ← getPlaylistItems;
  it ← buildPlaylistItem fuel p;
  match it with
  | None => mret None
  | Some it => setPlaylistItems (items ++ [it]);; mret (Some tt)
  end.

Definition playNow (fuel : nat) (p : Path) : M (option unit) :=
  items ← getPlaylistItems;
  it ← buildPlaylistItem fuel p;
  match it with
  | None => mret None
  | Some it => setPlaylistItems (it :: items);; reset;; mret (Some tt)
  end.

(** The function of the store that a payload makes the callback run, if
    any. *)
Definition program (fuel : nat) (payload : Payload) : option (M (option unit)) :=
  let a := p_action payload in
  if bool_decide (p_source payload = "SERVER_ACTION"%string) then
    if bool_decide (actionType a = ControlApi_CTRL) then
      if bool_decide (a_data a = ControlApi_NEXT) then Some (next;; mret (Some tt))
      else if bool_decide (a_data a = ControlApi_PREV) then Some (prev;; mret (Some tt))
      else None
    else None
  else if bool_decide (p_source payload = "VIEW_ACTION"%string) then
    let t := actionType a in
    if bool_decide (t = NowPlaying_ENDED) then
      if bool_decide (a_source a ≠ "playlist"%string) then None
      else Some (next;; mret (Some tt))
    else if bool_decide (t = Playlist_NEXT) then Some (next;; mret (Some tt))
    else if bool_decide (t = Playlist_PREV) then Some (prev;; mret (Some tt))
    else if bool_decide (t = Playlist_REMOVE) then
      Some (remove (itemIndex a) (a_path a))
    else if bool_decide (t = Collection_APPEND_TO_PLAYLIST) then
      Some (append fuel (a_path a))
    else if bool_decide (t = Collection_PLAY_NOW) then
      Some (playNow fuel (a_path a))
    else if bool_decide (t = Playlist_PLAY_ITEM) then
      Some (setCurrent (itemIndex a) (a_path a);; mret (Some tt))
    else None
  else None.

(** Running such a function from the callback: [emitChange] is called
    when it has returned. *)
Definition ran (m : M (option unit)) (s : Emitting)
    : option (option bool) * Emitting :=
  match m (store s) with
  | (Some (Some _), st) => (Some (Some true), mkEmitting st (S (emitted s)))
  | (Some None, st) => (Some None, mkEmitting st (emitted s))
  | (None, st) => (None, mkEmitting st (emitted s))
  end.

Ltac run_callback :=
  unfold ran, append, playNow, mbind, D_bind, M_bind, call, emitChange, mret, D_ret, M_ret;
  cbn beta iota delta [store emitted fst snd];
  repeat (match goal with
          | |- context [ getPlaylistItems ?st ] =>
              destruct (getPlaylistItems st) as [[?|] ?]
          | |- context [ buildPlaylistItem ?f ?p ?st ] =>
              destruct (buildPlaylistItem f p st) as [[[?|]|] ?]
          | |- context [ setPlaylistItems ?l ?st ] =>
              destruct (setPlaylistItems l st) as [[?|] ?]
          | |- context [ reset ?st ] => destruct (reset st) as [[?|] ?]
          | |- context [ next ?st ] => destruct (next st) as [[?|] ?]
          | |- context [ prev ?st ] => destruct (prev st) as [[?|] ?]
          | |- context [ remove ?i ?p ?st ] => destruct (remove i p st) as [[[?|]|] ?]
          | |- context [ setCurrent ?i ?p ?st ] =>
              destruct (setCurrent i p st) as [[?|] ?]
          end; cbn beta iota delta [store emitted fst snd]);
  try done.

Lemma callback_run fuel payload s :
  callback fuel payload s =
    match program fuel payload with
    | None => (Some (Some true), s)
    | Some m => ran m s
    end.
Proof.
  unfold callback, program, serverAction, viewAction.
  destruct payload as [source a]. simpl.
  destruct (decide (source = "SERVER_ACTION"%string)) as [->|Hserver].
  - rewrite (bool_decide_true ("SERVER_ACTION"%string = "SERVER_ACTION"%string)) by done.
    rewrite (bool_decide_false ("SERVER_ACTION"%string = "VIEW_ACTION"%string)) by done.
    repeat case_bool_decide; run_callback.
  - rewrite (bool_decide_false (source = "SERVER_ACTION"%string)) by done.
    destruct (decide (source = "VIEW_ACTION"%string)) as [->|Hview].
    + rewrite (bool_decide_true ("VIEW_ACTION"%string = "VIEW_ACTION"%string)) by done.
      repeat case_bool_decide; run_callback.
    + by rewrite (bool_decide_false (source = "VIEW_ACTION"%string)) by done.
Qed.

(** *** What is in [localStorage] *)

(** [localStorage] holds what the accessors return: a page that loads
    the module anew, with both variables [null], shows the same
    playlist and position. *)
Definition stored (st : Store) : Prop :=
  default [] (ls_playlistItems st) = itemsOf st ∧
  default None (ls_playlistCurrent st) = currentOf st.

Definition keeps {A : Type} (m : M A) : Prop :=
  ∀ st, stored st → stored (m st).2.

Lemma keeps_ret {A : Type} (a : A) : keeps (mret a).
Proof. by intros st. Qed.

Lemma keeps_throw {A : Type} : keeps (@throw A).
Proof. by intros st. Qed.

Lemma keeps_defined {A : Type} (o : option A) : keeps (defined o).
Proof. destruct o; [apply keeps_ret | apply keeps_throw]. Qed.

Lemma keeps_bind {A B : Type} (m : M A) (f : A → M B) :
  keeps m → (∀ a, keeps (f a)) → keeps (m ≫= f).
Proof.
  intros Hm Hf st Hst. specialize (Hm st Hst). unfold mbind, M_bind.
  destruct (m st) as [[a|] st']; [by apply Hf | done].
Qed.

Ltac keeps_accessor :=
  intros [[?|] [?|] ? [[?|]|] ?]; unfold stored, itemsOf, currentOf; simpl;
  intros [? ?]; split; congruence.

Lemma keeps_getPlaylistItems : keeps getPlaylistItems.
Proof. keeps_accessor. Qed.

Lemma keeps_getPlaylistCurrent : keeps getPlaylistCurrent.
Proof. keeps_accessor. Qed.

Lemma keeps_setPlaylistItems items : keeps (setPlaylistItems items).
Proof. keeps_accessor. Qed.

Lemma keeps_setPlaylistCurrent c : keeps (setPlaylistCurrent c).
Proof. destruct c; keeps_accessor. Qed.

Lemma keeps_console_error m : keeps (console_error m).
Proof. keeps_accessor. Qed.

Ltac keeps_step :=
  first [ apply keeps_ret | apply keeps_throw | apply keeps_defined
        | apply keeps_getPlaylistItems | apply keeps_getPlaylistCurrent
        | apply keeps_setPlaylistItems | apply keeps_setPlaylistCurrent
        | apply keeps_console_error
        | apply keeps_bind; [|intros ?]
        | case_bool_decide
        | match goal with
          | |- keeps (match ?x with _ => _ end) => destruct x
          | |- keeps (let '(_, _) := ?x in _) => destruct x
          end ].







(** [remove] keeps [localStorage] in step unless its loop throws, which
    it does after the item was mutated in place. *)
Lemma remove_stored i p st :
  stored st → plain_keys p ∨ is_Some (remove i p st).1 → stored (remove i p st).2.
Proof.
  intros Hst. pose proof (keeps_getPlaylistItems st Hst) as Hkept.
  destruct (getPlaylistItems_run st) as (st0 & E0 & _).
  rewrite E0 in Hkept. simpl in Hkept.
  unfold remove. rewrite (bind_run _ _ _ _ _ E0). clear E0.
  destruct (index (itemsOf st) i) as [it|]; [|done].
  assert (∀ f : Item → M (option unit), (defined (Some it) ≫= f) st0 = f it st0)
    as Hdef by done.
  rewrite !Hdef. clear Hdef.
  destruct (remove_loop (S (length p)) it p) as [[|it'|it']|] eqn:Hr.
  - intros _. revert st0 Hkept.
    match goal with
    | |- ∀ st, stored st → stored (?m st).2 => change (keeps m)
    end.
    repeat keeps_step.
  - intros _. revert st0 Hkept.
    match goal with
    | |- ∀ st, stored st → stored (?m st).2 => change (keeps m)
    end.
    repeat keeps_step.
  - intros [Hp|[u Hu]]; [by destruct (remove_loop_plain _ _ _ _ Hp Hr it') | done].
  - done.
Qed.

Lemma keeps_remove_plain i p : plain_keys p → keeps (remove i p).
Proof. intros Hp st Hst. apply remove_stored; [done | by left]. Qed.






(** *** The position stays on an item *)

(** The current position, when there is one, names an item of the
    playlist. *)
Definition positioned (st : Store) : Prop :=
  ∀ c, currentOf st = Some c → is_Some (index (itemsOf st) (item c)).

Lemma reset_current_positioned items c :
  reset_current items = Some c → is_Some (index items (item c)).
Proof. destruct items as [|i0 items]; [done|]. intros [= <-]. by exists i0. Qed.

Lemma next_current_positioned items cur r c :
  (∀ c, cur = Some c → is_Some (index items (item c))) →
  next_current items cur = Some r → r = Some c → is_Some (index items (item c)).
Proof.
  intros Hpos Hr ->. destruct cur as [c0|]; simpl in Hr.
  - destruct (Hpos c0 eq_refl) as [it Hit]. pose proof (index_Some _ _ _ Hit) as Hi.
    rewrite Hit in Hr. simpl in Hr. case_bool_decide; [|case_bool_decide].
    + injection Hr as <-. by exists it.
    + destruct (index_is_Some items (item c0 + 1)) as [it1 Hit1]; [lia|].
      rewrite Hit1 in Hr. injection Hr as <-. by exists it1.
    + done.
  - injection Hr as Hr. by apply reset_current_positioned.
Qed.

Lemma prev_current_positioned items cur r c :
  (∀ c, cur = Some c → is_Some (index items (item c))) →
  prev_current items cur = Some r → r = Some c → is_Some (index items (item c)).
Proof.
  intros Hpos Hr ->. destruct cur as [c0|]; simpl in Hr.
  - destruct (Hpos c0 eq_refl) as [it Hit]. pose proof (index_Some _ _ _ Hit) as Hi.
    rewrite Hit in Hr. simpl in Hr. case_bool_decide; [|case_bool_decide].
    + injection Hr as <-. by exists it.
    + destruct (index_is_Some items (item c0 - 1)) as [it1 Hit1]; [lia|].
      rewrite Hit1 in Hr. injection Hr as <-. by exists it1.
    + injection Hr as <-. by exists it.
  - injection Hr as Hr. by apply reset_current_positioned.
Qed.

(** A function of the store that keeps the position on an item and that,
    unless it returns to the end, leaves the position alone, and the
    playlist as well where [P] holds. *)
Definition orderly (P : Prop) (m : M (option unit)) : Prop :=
  ∀ st,
    (positioned st → positioned (m st).2) ∧
    ((m st).1 = Some (Some tt) ∨
     currentOf (m st).2 = currentOf st ∧ (P → itemsOf (m st).2 = itemsOf st)).

Lemma orderly_next P : orderly P (next;; mret (Some tt)).
Proof.
  intros st. destruct (next_run st) as (st' & E & Hi & Hc & _).
  unfold mbind, M_bind. rewrite E.
  destruct (next_current (itemsOf st) (currentOf st)) as [r|] eqn:Hr; simpl in *.
  - split; [|by left]. intros Hpos c Hc'. rewrite Hi. rewrite Hc in Hc'.
    by eapply next_current_positioned.
  - split; [|by right]. intros Hpos c Hc'. rewrite Hi. rewrite Hc in Hc'. by apply Hpos.
Qed.

Lemma orderly_prev P : orderly P (prev;; mret (Some tt)).
Proof.
  intros st. destruct (prev_run st) as (st' & E & Hi & Hc & _).
  unfold mbind, M_bind. rewrite E.
  destruct (prev_current (itemsOf st) (currentOf st)) as [r|] eqn:Hr; simpl in *.
  - split; [|by left]. intros Hpos c Hc'. rewrite Hi. rewrite Hc in Hc'.
    by eapply prev_current_positioned.
  - split; [|by right]. intros Hpos c Hc'. rewrite Hi. rewrite Hc in Hc'. by apply Hpos.
Qed.

Lemma index_insert_is_Some {A : Type} (l : list A) (n : nat) (x : A) (j : Z) :
  is_Some (index l j) → is_Some (index (<[n := x]> l) j).
Proof.
  unfold index. case_decide; [|done].
  rewrite !lookup_lt_is_Some. by rewrite length_insert.
Qed.

Lemma orderly_remove i p : orderly (plain_keys p) (remove i p).
Proof.
  intros st. destruct (index (itemsOf st) i) as [it|] eqn:Hit.
  - destruct (remove_loop_total (S (length p)) it p) as [r Hr]; [lia|].
    destruct (remove_run i p st it r Hit Hr) as (st' & E & Hc & Hi & _).
    rewrite E. simpl. destruct r as [|it'|it'].
    + split; [|by left]. intros _ c Hc'. congruence.
    + split; [|by left]. intros _ c Hc'. congruence.
    + split.
      * intros Hpos c Hc'. rewrite Hi. apply index_insert_is_Some.
        rewrite Hc in Hc'. by apply Hpos.
      * right. split; [done|]. intros Hp.
        by destruct (remove_loop_plain _ _ _ _ Hp Hr it').
  - destruct (remove_missing i p st Hit) as (st' & E & Hi & Hc & _).
    rewrite E. simpl. split; [|by right]. intros Hpos c Hc'. rewrite Hi.
    rewrite Hc in Hc'. by apply Hpos.
Qed.

Lemma orderly_setCurrent P i p : orderly P (setCurrent i p;; mret (Some tt)).
Proof.
  intros st. unfold mbind, M_bind. destruct (index (itemsOf st) i) as [it|] eqn:Hit.
  - destruct (setCurrent_run i p st it Hit) as (st' & E & Hi & Hc & _).
    rewrite E. simpl. split; [|by left]. intros _ c Hc'. rewrite Hc in Hc'.
    injection Hc' as <-. rewrite Hi. simpl. by exists it.
  - destruct (setCurrent_missing i p st Hit) as (st' & E & Hi & Hc & _).
    rewrite E. simpl. split; [|by right]. intros Hpos c Hc'. rewrite Hi.
    rewrite Hc in Hc'. by apply Hpos.
Qed.

Lemma index_app_l {A : Type} (l k : list A) (i : Z) :
  is_Some (index l i) → index (l ++ k) i = index l i.
Proof.
  intros [x Hx]. pose proof (index_Some _ _ _ Hx) as Hi. unfold index, len in *.
  case_decide; [|done]. rewrite lookup_app_l by lia. done.
Qed.

(** [append] and [playNow] in terms of what [buildPlaylistItem] returns
    for the store [getPlaylistItems] leaves. *)
Lemma append_run fuel p st :
  ∃ st1, same_view st st1 ∧
    match buildPlaylistItem fuel p st1 with
    | (Some (Some it), st2) =>
        ∃ st3, append fuel p st = (Some (Some tt), st3) ∧
          itemsOf st3 = itemsOf st ++ [it] ∧ currentOf st3 = currentOf st ∧
          console st3 = console st2
    | (r, st2) => append fuel p st = ((λ _, None) <$> r, st2)
    end.
Proof.
  unfold append. run_get. exists st0. split; [done|].
  destruct (buildPlaylistItem_view fuel p st0) as [Hbi Hbc].
  destruct (buildPlaylistItem fuel p st0) as [[[it|]|] st2] eqn:Hb; simpl in *.
  - destruct (setPlaylistItems_run (itemsOf st ++ [it]) st2) as (st3 & E & ? & ? & ?).
    exists st3. unfold mbind, M_bind. rewrite Hb, E. simpl.
    split; [done|]. split; [done|]. split; [congruence | done].
  - unfold mbind, M_bind. by rewrite Hb.
  - unfold mbind, M_bind. by rewrite Hb.
Qed.

Lemma playNow_run fuel p st :
  ∃ st1, same_view st st1 ∧
    match buildPlaylistItem fuel p st1 with
    | (Some (Some it), st2) =>
        ∃ st3, playNow fuel p st = (Some (Some tt), st3) ∧
          itemsOf st3 = it :: itemsOf st ∧
          currentOf st3 = Some (mkCurrent 0 0 (tracks it !! 0%nat)) ∧
          console st3 = console st2
    | (r, st2) => playNow fuel p st = ((λ _, None) <$> r, st2)
    end.
Proof.
  unfold playNow. run_get. exists st0. split; [done|].
  destruct (buildPlaylistItem_view fuel p st0) as [Hbi Hbc].
  destruct (buildPlaylistItem fuel p st0) as [[[it|]|] st2] eqn:Hb; simpl in *.
  - destruct (setPlaylistItems_run (it :: itemsOf st) st2) as (st3 & E & Hi3 & ? & ?).
    destruct (reset_run st3) as (st4 & E4 & Hi4 & Hc4 & ?).
    exists st4. unfold mbind, M_bind. rewrite Hb, E. simpl in *. rewrite E4. simpl.
    split; [done|]. split; [congruence|]. split; [|congruence].
    rewrite Hc4, Hi3. done.
  - unfold mbind, M_bind. by rewrite Hb.
  - unfold mbind, M_bind. by rewrite Hb.
Qed.

Lemma orderly_append P fuel p : orderly P (append fuel p).
Proof.
  intros st. destruct (append_run fuel p st) as (st1 & (Hi1 & Hc1 & _) & Hrun).
  destruct (buildPlaylistItem_view fuel p st1) as [Hbi Hbc].
  destruct (buildPlaylistItem fuel p st1) as [[[it|]|] st2]; simpl in *.
  - destruct Hrun as (st3 & E & Hi & Hc & _). rewrite E. simpl.
    split; [|by left]. intros Hpos c Hc'. rewrite Hi. rewrite Hc in Hc'.
    rewrite index_app_l by by apply Hpos. by apply Hpos.
  - rewrite Hrun. simpl. split; [|right; split; congruence].
    intros Hpos c Hc'. rewrite Hbi, Hi1. rewrite Hbc, Hc1 in Hc'. by apply Hpos.
  - rewrite Hrun. simpl. split; [|right; split; congruence].
    intros Hpos c Hc'. rewrite Hbi, Hi1. rewrite Hbc, Hc1 in Hc'. by apply Hpos.
Qed.

Lemma orderly_playNow P fuel p : orderly P (playNow fuel p).
Proof.
  intros st. destruct (playNow_run fuel p st) as (st1 & (Hi1 & Hc1 & _) & Hrun).
  destruct (buildPlaylistItem_view fuel p st1) as [Hbi Hbc].
  destruct (buildPlaylistItem fuel p st1) as [[[it|]|] st2]; simpl in *.
  - destruct Hrun as (st3 & E & Hi & Hc & _). rewrite E. simpl.
    split; [|by left]. intros _ c Hc'. rewrite Hi. rewrite Hc in Hc'.
    injection Hc' as <-. by exists it.
  - rewrite Hrun. simpl. split; [|right; split; congruence].
    intros Hpos c Hc'. rewrite Hbi, Hi1. rewrite Hbc, Hc1 in Hc'. by apply Hpos.
  - rewrite Hrun. simpl. split; [|right; split; congruence].
    intros Hpos c Hc'. rewrite Hbi, Hi1. rewrite Hbc, Hc1 in Hc'. by apply Hpos.
Qed.

Lemma orderly_program fuel payload m :
  program fuel payload = Some m → orderly (plain_keys (a_path (p_action payload))) m.
Proof.
  unfold program. repeat case_bool_decide; intros [= <-];
    first [ apply orderly_next | apply orderly_prev | apply orderly_remove
          | apply orderly_append | apply orderly_playNow | apply orderly_setCurrent ].
Qed.

(** X12. Whatever payload the callback serves, and whether it returns or
    throws, a current position that names an item of the playlist before
    still names one after: no action leaves the position on an item that
    is not there. *)
Theorem callback_keeps_the_position_on_an_item (fuel : nat) (payload : Payload)
    (s : Emitting) :
  positioned (store s) → positioned (store (callback fuel payload s).2).
Proof.
  intros Hpos. rewrite callback_run.
  destruct (program fuel payload) as [m|] eqn:Hm; [|done].
  destruct (orderly_program _ _ _ Hm (store s)) as [Hkeep _]. specialize (Hkeep Hpos).
  unfold ran. by destruct (m (store s)) as [[[u|]|] st'].
Qed.

(** X13. The callback returns [true] whenever it returns. A payload that
    is none the callback serves ([program] gives the store function that a
    payload runs: NEXT and PREV from the server, and from the views ENDED
    of the playlist, NEXT, PREV, REMOVE, APPEND_TO_PLAYLIST, PLAY_NOW and
    PLAY_ITEM) changes nothing and calls [emitChange] not at all, and so
    does any payload from another source than the server or the views. A
    payload that is served leaves the store as its function does, and
    [emitChange] is called once when that function ran to its end and not
    at all when it threw. Without that call the current position is where
    it was, and the playlist as it was unless the action was a REMOVE with
    the key [constructor] at a prefix of its path: no other change goes
    unannounced. *)
Theorem callback_announces_changes (fuel : nat) (payload : Payload) (s : Emitting) :
  (∀ b, (callback fuel payload s).1 = Some (Some b) → b = true) ∧
  (program fuel payload = None → callback fuel payload s = (Some (Some true), s)) ∧
  (p_source payload ∉ ["SERVER_ACTION"; "VIEW_ACTION"]%string →
     program fuel payload = None) ∧
  (∀ m, program fuel payload = Some m →
     store (callback fuel payload s).2 = (m (store s)).2 ∧
     ((m (store s)).1 = Some (Some tt) →
        emitted (callback fuel payload s).2 = S (emitted s) ∧
        (callback fuel payload s).1 = Some (Some true)) ∧
     ((m (store s)).1 ≠ Some (Some tt) →
        emitted (callback fuel payload s).2 = emitted s ∧
        ∀ b, (callback fuel payload s).1 ≠ Some (Some b))) ∧
  (emitted (callback fuel payload s).2 = emitted s →
     currentOf (store (callback fuel payload s).2) = currentOf (store s) ∧
     (plain_keys (a_path (p_action payload)) →
        itemsOf (store (callback fuel payload s).2) = itemsOf (store s))).
Proof.
  rewrite callback_run. split; [|split; [|split; [|split]]].
  - destruct (program fuel payload) as [m|]; [|by intros b [= <-]].
    unfold ran. destruct (m (store s)) as [[[u|]|] st']; by intros b [= <-].
  - by intros ->.
  - intros Hsrc. unfold program.
    rewrite !bool_decide_false; [done | |]; intros Heq; apply Hsrc; rewrite Heq;
      set_unfold; tauto.
  - intros m ->. unfold ran.
    destruct (m (store s)) as [[[[]|]|] st']; simpl; repeat split; done.
  - destruct (program fuel payload) as [m|] eqn:Hm; [|done].
    destruct (orderly_program _ _ _ Hm (store s)) as [_ Hquiet].
    unfold ran. destruct (m (store s)) as [[[[]|]|] st']; simpl in *;
      intros Hemit; destruct Hquiet as [Hdone|Hquiet]; first [done | lia].
Qed.

Lemma index_app_new {A : Type} (l : list A) (x : A) : index (l ++ [x]) (len l) = Some x.
Proof.
  unfold index, len. rewrite decide_True by lia. rewrite Nat2Z.id.
  by rewrite lookup_app_r, Nat.sub_diag by lia.
Qed.

(** X14. For a path whose subtree is [depth] levels deep with a
    collection at every node, the view action APPEND_TO_PLAYLIST puts the
    expansion of the path after the items of the playlist and leaves the
    current position where it is, and [getItemKeys] then answers for the
    new item with the record of a node whose key no other node of it
    shares; PLAY_NOW puts the expansion before the items, which moves
    every one of them up by one, and selects its first track, recording
    the path of that track without the root. Both call [emitChange]. *)
Theorem append_and_play_now (fuel depth : nat) (a : Action) (s : Emitting) :
  let rt := a_path a in
  let L := levels rt 0 depth in
  let it := mkItem rt L (filed rt ∅ L) (L ≫= leafTracks rt) in
  level rt depth = [] →
  (∀ p, p ∈ L → is_Some (getCollection (rt ++ p))) →
  (length L ≤ fuel)%nat →
  actionType a ∉ [NowPlaying_ENDED; Playlist_NEXT; Playlist_PREV; Playlist_REMOVE] →
  (actionType a = Collection_APPEND_TO_PLAYLIST →
     ∃ s', callback fuel (mkPayload "VIEW_ACTION" a) s = (Some (Some true), s') ∧
       emitted s' = S (emitted s) ∧
       itemsOf (store s') = itemsOf (store s) ++ [it] ∧
       currentOf (store s') = currentOf (store s) ∧
       ∀ p, p ∈ L →
         (∀ p', p' ∈ L → pathToKey (rt ++ p') = pathToKey (rt ++ p) → p' = p) →
         (getItemKeys (len (itemsOf (store s))) (rt ++ p) (store s')).1 =
           Some (Some (nodeRecord rt p))) ∧
  (actionType a ≠ Collection_APPEND_TO_PLAYLIST →
   actionType a = Collection_PLAY_NOW →
     ∃ s', callback fuel (mkPayload "VIEW_ACTION" a) s = (Some (Some true), s') ∧
       emitted s' = S (emitted s) ∧
       itemsOf (store s') = it :: itemsOf (store s) ∧
       currentOf (store s') = Some (mkCurrent 0 0 (tracks it !! 0%nat))).
Proof.
  intros rt L it Hdepth Hall Hfuel Hother.
  assert (actionType a ≠ NowPlaying_ENDED ∧ actionType a ≠ Playlist_NEXT ∧
          actionType a ≠ Playlist_PREV ∧ actionType a ≠ Playlist_REMOVE)
    as (He & Hn & Hp & Hr).
  { repeat split; intros Heq; apply Hother; rewrite Heq; set_unfold; tauto. }
  split.
  - intros Ha. rewrite callback_run. unfold program. simpl.
    rewrite (bool_decide_false _ He), (bool_decide_false _ Hn),
      (bool_decide_false _ Hp), (bool_decide_false _ Hr), (bool_decide_true _ Ha).
    destruct (append_run fuel rt (store s)) as (st1 & _ & Hrun). fold rt.
    rewrite (buildPlaylistItem_subtree rt depth fuel st1 Hdepth Hall Hfuel) in Hrun.
    simpl in Hrun. destruct Hrun as (st3 & E & Hi & Hc & _).
    unfold ran. rewrite E. eexists. split; [done|]. simpl.
    split; [done|]. split; [done|]. split; [done|].
    intros p Hp' Huniq. unfold getItemKeys.
    destruct (getPlaylistItem_run (len (itemsOf (store s))) st3) as (st4 & E4 & _).
    unfold mbind, M_bind. rewrite E4, Hi. fold it. rewrite index_app_new. simpl.
    f_equal. f_equal. apply filed_Some; [right; by exists p|].
    intros p' Hp'' Hk. by rewrite (Huniq p' Hp'' Hk).
  - intros Hna Ha. rewrite callback_run. unfold program. simpl.
    rewrite (bool_decide_false _ He), (bool_decide_false _ Hn),
      (bool_decide_false _ Hp), (bool_decide_false _ Hr),
      (bool_decide_false _ Hna), (bool_decide_true _ Ha).
    destruct (playNow_run fuel rt (store s)) as (st1 & _ & Hrun). fold rt.
    rewrite (buildPlaylistItem_subtree rt depth fuel st1 Hdepth Hall Hfuel) in Hrun.
    simpl in Hrun. destruct Hrun as (st3 & E & Hi & Hc & _).
    unfold ran. rewrite E. eexists. split; [done|]. simpl. done.
Qed.

End Callback.

(** ** Looking tracks up *)

Section Lookup.
Context {Found : Type} (trackForPath : Path → M (option Found)).

(** X15. [getNext] looks at the current item only: with a track after
    the current one in the item it hands the whole path of that track,
    root first, to [trackForPath], and at the last track of an item it
    returns [null] although [canNext] is true when another item follows.
    [currentTrack] hands [trackForPath] the path that the position
    records. Neither changes the playlist or the position before
    [trackForPath] runs. *)
Theorem getNext_stays_in_the_item (st : Store) (c : Current) (it : Item) :
  currentOf st = Some c → index (itemsOf st) (item c) = Some it →
  (∃ st1, same_view st st1 ∧
     getNext trackForPath st =
       if bool_decide (track c < len (tracks it) - 1)
       then trackForPath (concat (root it) (index (tracks it) (track c + 1))) st1
       else (Some None, st1)) ∧
  (∀ p, path c = Some p →
     ∃ st1, same_view st st1 ∧ currentTrack trackForPath st = trackForPath p st1) ∧
  (track c = len (tracks it) - 1 → item c < len (itemsOf st) - 1 →
     (canNext st).1 = Some true ∧ (getNext trackForPath st).1 = Some None).
Proof.
  intros Hc Hit.
  assert (∃ st1, same_view st st1 ∧
     getNext trackForPath st =
       if bool_decide (track c < len (tracks it) - 1)
       then trackForPath (concat (root it) (index (tracks it) (track c + 1))) st1
       else (Some None, st1)) as Hnext.
  { unfold getNext. run_get. rewrite Hc. run_item.
    replace (itemsOf st0) with (itemsOf st) by congruence. rewrite Hit. simpl.
    exists st1. split; [view_done|].
    unfold mbind, M_bind. simpl. by case_bool_decide. }
  split; [done|]. split.
  - intros p Hp. unfold currentTrack. run_get. rewrite Hc, Hp. simpl.
    exists st0. split; [done|]. done.
  - intros Hlast Hmore. split.
    + destruct (canNext_run st) as (st' & E & _). rewrite E, Hc. simpl.
      rewrite Hit. simpl. f_equal.
      rewrite bool_decide_false by lia. by rewrite bool_decide_true by lia.
    + destruct Hnext as (st1 & _ & ->). by rewrite bool_decide_false by lia.
Qed.

End Lookup.

(** ** The properties above on the example playlist *)

(** From the first track of [itemX], [next] and then [prev]. *)
Lemma prev_undoes_next_witness :
  let c := mkCurrent 0 0 (Some [KStr "Root"; KStr "X"; KStr "A"; KNum 0]) in
  currentOf storeXY_playing = Some c ∧ in_range (itemsOf storeXY_playing) c ∧
  ∃ st1 st2, next storeXY_playing = (Some tt, st1) ∧ prev st1 = (Some tt, st2) ∧
    positionOf st2 = Some (0, 0).
Proof.
  intros c.
  assert (Hc : currentOf storeXY_playing = Some c) by reflexivity.
  assert (Hr : in_range (itemsOf storeXY_playing) c).
  { exists itemX. split; [reflexivity|]. unfold len. simpl. lia. }
  split; [exact Hc|]. split; [exact Hr|].
  destruct (proj1 (prev_undoes_next storeXY_playing c Hc Hr)) as (st1 & E1 & Hback).
  assert (∃ c1, currentOf st1 = Some c1) as [c1 Hc1].
  { vm_compute in E1. injection E1 as <-. by eexists. }
  destruct (Hback c1 Hc1) as (st2 & E2 & Hpos). by exists st1, st2.
Defined.

(** From the last track of [itemX], [next] enters [itemY]. *)
Lemma traversal_stays_on_tracks_witness :
  let c := mkCurrent 0 2 (Some [KStr "Root"; KStr "X"; KStr "B"; KNum 0]) in
  let st := mkStore (Some [itemX; itemY]) (Some c) None None [] in
  Forall (λ it, tracks it ≠ []) (itemsOf st) ∧ in_range (itemsOf st) c ∧
  ∃ st1 c1, next st = (Some tt, st1) ∧ currentOf st1 = Some c1 ∧
    resolves [itemX; itemY] c1.
Proof.
  intros c st.
  assert (Hall : Forall (λ it, tracks it ≠ []) (itemsOf st)) by (repeat constructor; done).
  assert (Hr : in_range (itemsOf st) c).
  { exists itemX. split; [reflexivity|]. unfold len. simpl. lia. }
  split; [exact Hall|]. split; [exact Hr|].
  destruct (proj1 (traversal_stays_on_tracks st c Hall eq_refl Hr))
    as (st1 & E1 & _ & Hres).
  assert (∃ c1, currentOf st1 = Some c1) as [c1 Hc1].
  { vm_compute in E1. injection E1 as <-. by eexists. }
  exists st1, c1. split; [exact E1|]. split; [exact Hc1|]. exact (Hres c1 Hc1).
Defined.

(** There is no item 7 in the playlist of [itemX] and [itemY]. *)
Lemma missing_item_throws_witness :
  index (itemsOf storeXY_playing) 7 = None ∧
  ∃ st', @remove exampleEnvironment 7 [KStr "Root"; KStr "X"] storeXY_playing = (None, st') ∧
    currentOf st' = currentOf storeXY_playing.
Proof.
  split; [reflexivity|].
  destruct (proj1 (@missing_item_throws exampleEnvironment storeXY_playing 7
                     [KStr "Root"; KStr "X"] eq_refl)) as (st' & E & _ & Hc & _).
  by exists st'.
Defined.


(** Removing the empty path from [itemX]: the key of the empty path is
    the empty string. *)
Lemma remove_empty_path_witness :
  index (itemsOf storeXY) 0 = Some itemX ∧ root itemX ≠ [] ∧
  ∃ st' it', @remove exampleEnvironment 0 [] storeXY = (Some (Some tt), st') ∧
    itemsOf st' = [it'; itemY] ∧ tracks it' = [] ∧ paths it' = [] ∧
    currentOf st' = None.
Proof.
  split; [reflexivity|]. split; [discriminate|].
  destruct (@remove_empty_path exampleEnvironment 0 storeXY itemX eq_refl)
    as (r & st' & it' & E & Hi & _ & Ht & Hp & _ & Hreturns); [discriminate|].
  destruct Hreturns as [-> Hc]; [discriminate|].
  by exists st', it'.
Defined.

(** Removing [itemX] while its first track plays: [next] then selects
    the only track of [itemY]. *)
Lemma next_after_remove_starts_over_witness :
  index (itemsOf storeXY_playing) 0 = Some itemX ∧
  ∃ st1 st2, @remove exampleEnvironment 0 [KStr "Root"; KStr "X"] storeXY_playing
               = (Some (Some tt), st1) ∧
    next st1 = (Some tt, st2) ∧ itemsOf st2 = [itemY] ∧ positionOf st2 = Some (0, 0).
Proof.
  split; [reflexivity|].
  destruct (@next_after_remove_starts_over exampleEnvironment 0 [KStr "Root"; KStr "X"]
              storeXY_playing itemX eq_refl)
    as (r & st1 & E1 & _ & _ & Hnext).
  assert (r = Some (Some tt)) as ->.
  { vm_compute in E1. by injection E1 as <- _. }
  destruct (Hnext eq_refl) as (st2 & st3 & E2 & _ & Hi & _ & Hpos & _).
  exists st1, st2. split; [exact E1|]. split; [exact E2|].
  assert (itemsOf st1 = [itemY]) as Hleft.
  { vm_compute in E1. by injection E1 as <-. }
  rewrite Hleft in Hi, Hpos. split; [exact Hi | exact Hpos].
Defined.

(** Expanding [Root, X] in the example catalog builds [itemX]. *)
Lemma expansion_is_breadth_first_witness :
  ∃ it, @buildPlaylistItem exampleEnvironment 3 [KStr "Root"; KStr "X"] storeXY
          = (Some (Some it), storeXY) ∧
    it = itemX.
Proof.
  destruct (@expansion_is_breadth_first exampleEnvironment [KStr "Root"; KStr "X"] 2 3
              storeXY)
    as (it & st' & E & Hr & Hp & Ht & _).
  - reflexivity.
  - intros p Hp. vm_compute in Hp. set_unfold.
    destruct Hp as [->|[->|[->|[]]]]; by eexists.
  - vm_compute. lia.
  - exists it. vm_compute in E. by injection E as <- <-.
Defined.

(** The subtree below [Root, X] is two levels deep and has three nodes. *)
Lemma expansion_of_a_subtree_witness :
  let rt := [KStr "Root"; KStr "X"] in
  @levels exampleEnvironment rt 0 2 = [[]; [KStr "A"]; [KStr "B"]] ∧
  ∃ it, @buildPlaylistItem exampleEnvironment 3 rt storeXY = (Some (Some it), storeXY) ∧
    paths it = [[]; [KStr "A"]; [KStr "B"]] ∧
    tracks it = [[KStr "A"; KNum 0]; [KStr "A"; KNum 1]; [KStr "B"; KNum 0]].
Proof.
  intros rt. split; [reflexivity|].
  destruct (@expansion_of_a_subtree exampleEnvironment rt 2 3 storeXY)
    as (it & st' & E & _ & Hp & _ & Ht & _).
  - reflexivity.
  - intros p Hp. vm_compute in Hp. set_unfold.
    destruct Hp as [->|[->|[->|[]]]]; by eexists.
  - vm_compute. lia.
  - exists it. assert (st' = storeXY) as ->.
    { vm_compute in E. by injection E as _ <-. }
    split; [exact E|]. rewrite Ht, Hp. split; reflexivity.
Defined.

(** There is no collection at [Root, Z]. *)
Lemma expansion_of_a_missing_node_witness :
  ∃ st', @buildPlaylistItem exampleEnvironment 1 [KStr "Root"; KStr "Z"] storeXY = (None, st') ∧
    itemsOf st' = itemsOf storeXY.
Proof.
  destruct (@expansion_of_a_missing_node exampleEnvironment [KStr "Root"; KStr "Z"] [] 0 1
              storeXY) as (st' & E & Hi & _).
  - intros q Hq. by apply elem_of_nil in Hq.
  - by left.
  - reflexivity.
  - vm_compute. lia.
  - by exists st'.
Defined.

(** The view action NEXT on the first track of [itemX]. *)
Lemma callback_keeps_the_position_on_an_item_witness :
  let s := mkEmitting storeXY_playing 0 in
  let payload := mkPayload "VIEW_ACTION" (mkAction "PLAYLIST_NEXT" "" "" 0 []) in
  positioned (store s) ∧
  positioned (store (@callback exampleEnvironment exampleConstants 0 payload s).2) ∧
  positionOf (store (@callback exampleEnvironment exampleConstants 0 payload s).2)
    = Some (0, 1).
Proof.
  intros s payload.
  assert (Hpos : positioned (store s)).
  { intros c [= <-]. by eexists. }
  split; [exact Hpos|]. split; [|reflexivity].
  exact (@callback_keeps_the_position_on_an_item exampleEnvironment exampleConstants
           0 payload s Hpos).
Defined.

(** Appending the leaf [Root, Y] to the playlist of [itemX] and [itemY]. *)
Lemma append_and_play_now_witness :
  let a := mkAction "APPEND_TO_PLAYLIST" "" "" 0 [KStr "Root"; KStr "Y"] in
  ∃ s', @callback exampleEnvironment exampleConstants 1 (mkPayload "VIEW_ACTION" a)
          (mkEmitting storeXY 0) = (Some (Some true), s') ∧
    emitted s' = 1%nat ∧ itemsOf (store s') = [itemX; itemY; itemY].
Proof.
  intros a.
  destruct (proj1 (@append_and_play_now exampleEnvironment exampleConstants 1 1 a
                     (mkEmitting storeXY 0) eq_refl
                     (λ p Hp, ltac:(vm_compute in Hp; set_unfold;
                                    destruct Hp as [->|[]]; by eexists))
                     (le_n 1)
                     ltac:(vm_compute; set_unfold; intros Hin;
                           repeat (destruct Hin as [Hin|Hin]; [discriminate Hin|]);
                           exact Hin))
              eq_refl) as (s' & E & He & Hi & _).
  exists s'. split; [exact E|]. split; [exact He|]. exact Hi.
Defined.

(** On the first track of [itemX] the next track is [Root, X, A, 1]. *)
Lemma getNext_stays_in_the_item_witness :
  let trackForPath := λ p : Path, (mret (Some p) : M (option Path)) in
  ∃ st1, getNext trackForPath storeXY_playing =
           (Some (Some [KStr "Root"; KStr "X"; KStr "A"; KNum 1]), st1).
Proof.
  intros trackForPath.
  destruct (proj1 (getNext_stays_in_the_item trackForPath storeXY_playing _ itemX
                     eq_refl eq_refl)) as (st1 & _ & E).
  exists st1. rewrite E. reflexivity.
Defined.

(** Removing the group [A] of [itemX] by its path below the root. *)
Lemma remove_below_the_root_keeps_the_records_witness :
  ∃ st' it', @remove exampleEnvironment 0 [KStr "A"] storeXY = (Some (Some tt), st') ∧
    itemsOf st' = [it'; itemY] ∧ tracks it' = [[KStr "B"; KNum 0]] ∧
    data it' = data itemX.
Proof.
  destruct (@remove_below_the_root_keeps_the_records exampleEnvironment 0 [KStr "A"]
              storeXY itemX eq_refl eq_refl) as (st' & E & Hi).
  - intros p Hp. simpl in Hp. set_unfold. destruct Hp as [->|[->|[->|[]]]]; reflexivity.
  - reflexivity.
  - discriminate.
  - eexists st', _. split; [exact E|]. split; [exact Hi|]. split; reflexivity.
Defined.

(** Removing the group [A] of [itemX] by its whole path. *)
Lemma remove_by_the_whole_path_drops_no_track_witness :
  ∃ st' it', @remove exampleEnvironment 0 [KStr "Root"; KStr "X"; KStr "A"] storeXY
               = (Some (Some tt), st') ∧
    itemsOf st' = [it'; itemY] ∧ tracks it' = tracks itemX.
Proof.
  destruct (@remove_by_the_whole_path_drops_no_track exampleEnvironment 0 (KStr "Root")
              [KStr "X"; KStr "A"] storeXY itemX eq_refl)
    as (r & st' & E & _ & Hcases).
  - intros t Ht _. simpl in Ht. set_unfold. destruct Ht as [->|[->|[->|[]]]]; reflexivity.
  - intros p Hp Hne. simpl in Hp. set_unfold.
    destruct Hp as [->|[->|[->|[]]]]; [done | reflexivity | reflexivity].
  - assert (r = Some (Some tt)) as ->.
    { vm_compute in E. by injection E as <- _. }
    exists st'. destruct Hcases as [[_ Hgone]|(it' & Hi & _ & Ht & _)].
    + vm_compute in E. injection E as <-. vm_compute in Hgone. discriminate Hgone.
    + exists it'. split; [exact E|]. split; [exact Hi | exact Ht].
Defined.

End PlaylistStoreProps.

(** * Properties of the playlist as the server sends it *)

Module ServerPlaylistProps.
Import PlaylistStore ServerPlaylist.

Section Transforms.
Context `{Environment}.

(** Some transform of [ts] removes the key [key] below [root]. *)
Definition removed (ts : list Transform) (root : Path) (key : Key) : Prop :=
  ∃ t, t ∈ ts ∧ action t = "remove"%string ∧
    pathToKey (path t) = pathToKey (root ++ [key]).

Lemma transform_skip_true ts k :
  transform_skip ts k = true ↔
  ∃ t, t ∈ ts ∧ action t = "remove"%string ∧ pathToKey (path t) = k.
Proof.
  induction ts as [|t ts IH]; simpl.
  - split; [done | intros (t & Ht & _); by apply elem_of_nil in Ht].
  - repeat case_bool_decide; rewrite ?IH; set_unfold; naive_solver.
Qed.

Lemma transform_loop_filter ts root : ∀ keys result,
  transform_loop ts root keys result =
    result ++ filter (λ key, transform_skip ts (pathToKey (root ++ [key])) = false) keys.
Proof.
  induction keys as [|key keys IH]; intros result; simpl.
  - by rewrite app_nil_r.
  - rewrite IH. destruct (transform_skip ts (pathToKey (root ++ [key]))) eqn:Hs.
    + by rewrite filter_cons_False by (rewrite Hs; done).
    + rewrite filter_cons_True by done. by rewrite <- app_assoc.
Qed.

Lemma transform_array (it : Item) (root : Path) (keys : list Key) ts :
  _transforms it = TransformsArray ts →
  ∃ kept, transform it root keys = Some kept ∧
    kept `sublist_of` keys ∧
    (∀ key, key ∈ kept ↔ key ∈ keys ∧ ¬ removed ts root key) ∧
    ((∀ t, t ∈ ts → action t ≠ "remove"%string) → kept = keys) ∧
    transform it root kept = Some kept.
Proof.
  intros Hts. unfold transform. rewrite Hts.
  rewrite !transform_loop_filter. simpl.
  set (keep := λ key, transform_skip ts (pathToKey (root ++ [key])) = false).
  assert (∀ key, keep key ↔ ¬ removed ts root key) as Hkeep.
  { intros key. unfold keep, removed. rewrite <- transform_skip_true.
    by destruct (transform_skip _ _). }
  eexists. split; [done|]. split; [apply sublist_filter|]. split; [|split].
  - intros key. rewrite list_elem_of_filter, Hkeep. tauto.
  - intros Hno. clear Hkeep. induction keys as [|key keys IH]; [done|].
    rewrite filter_cons_True; [by rewrite IH|].
    unfold keep. destruct (transform_skip _ _) eqn:Hs; [|done].
    apply transform_skip_true in Hs as (t & Ht & Ha & _). by destruct (Hno t Ht).
  - rewrite transform_loop_filter. simpl. f_equal. fold keep.
    rewrite list_filter_filter. apply list_filter_iff. tauto.
Qed.

(** X16. [transform] with an array of transforms returns the keys it was
    given without those that a transform with the action ["remove"] names
    by a path with the same key, in their order; transforms with another
    action change nothing, and neither does a second pass. Without
    transforms ([null]) the keys are returned as they are, and with
    [undefined] in their place the call throws unless there is no key. *)
Theorem transform_drops_removed_keys (it : Item) (root : Path) (keys : list Key) :
  (_transforms it = TransformsNull → transform it root keys = Some keys) ∧
  (_transforms it = TransformsUndefined →
     transform it root keys = if keys is [] then Some [] else None) ∧
  (∀ ts, _transforms it = TransformsArray ts →
     ∃ kept, transform it root keys = Some kept ∧
       kept `sublist_of` keys ∧
       (∀ key, key ∈ kept ↔ key ∈ keys ∧ ¬ removed ts root key) ∧
       ((∀ t, t ∈ ts → action t ≠ "remove"%string) → kept = keys) ∧
       transform it root kept = Some kept).
Proof.
  split; [intros Hnull; unfold transform; by rewrite Hnull|].
  split; [intros Hundef; unfold transform; rewrite Hundef; by destruct keys|].
  apply transform_array.
Qed.

Lemma index_fmap {A B : Type} (f : A → B) (l : list A) (i : Z) :
  index (f <$> l) i = f <$> index l i.
Proof. unfold index. case_decide; [apply list_lookup_fmap | done]. Qed.

Lemma foldl_addItem (ds : list ItemData) (p : Playlist) :
  foldl (λ p d, addItem (mkItem (d_path d) (d_transforms d)) p) p ds =
    mkPlaylist (_items p ++ ((λ d, mkItem (d_path d) (d_transforms d)) <$> ds))
      (_cursor p).
Proof.
  revert p. induction ds as [|d ds IH]; intros p; simpl.
  - rewrite app_nil_r. by destruct p.
  - rewrite IH. simpl. by rewrite <- app_assoc.
Qed.

(** X17. A server action of the type PLAYLIST replaces the playlist: the
    store then holds one item for each item sent, in their order, whatever
    it held before, and has called [emitChange]; when the action carries no
    data the callback throws, having emptied the playlist. For an index
    among the items sent, [getItemKeys] returns the keys of the collection
    at the path (the keys of its groups when it has groups, else the
    numbers of its tracks, and none when there is no such collection)
    without those the item's transforms remove; for any other index it
    throws. *)
Theorem getItemKeys_after_a_playlist_action (PLAYLIST : string)
    (ds : option (list ItemData)) (p : Playlist) (i : Z) (pth : Path) :
  let p' := (callback PLAYLIST "SERVER_ACTION" PLAYLIST (Some ds) p).1 in
  (callback PLAYLIST "SERVER_ACTION" PLAYLIST (Some ds) p).2 = Returned true ∧
  (callback PLAYLIST "SERVER_ACTION" PLAYLIST None p).2 = Thrown ∧
  getPlaylist (callback PLAYLIST "SERVER_ACTION" PLAYLIST None p).1 = [] ∧
  getPlaylist p' = (λ d, mkItem (d_path d) (d_transforms d)) <$> default [] ds ∧
  (index (default [] ds) i = None → getItemKeys p' i pth = None) ∧
  (∀ d, index (default [] ds) i = Some d →
     (d_transforms d = TransformsNull → getItemKeys p' i pth = Some (getKeys pth)) ∧
     (∀ ts, d_transforms d = TransformsArray ts →
        ∃ kept, getItemKeys p' i pth = Some kept ∧
          kept `sublist_of` getKeys pth ∧
          ∀ key, key ∈ kept ↔ key ∈ getKeys pth ∧ ¬ removed ts pth key)) ∧
  (getCollection pth = None → getKeys pth = []) ∧
  (∀ c gs, getCollection pth = Some c → Groups c = Some gs →
     getKeys pth = groupKeys gs) ∧
  (∀ c ts, getCollection pth = Some c → Groups c = None → Tracks c = Some ts →
     getKeys pth = trackKeys ts).
Proof.
  intros p'.
  assert (getPlaylist p' = (λ d, mkItem (d_path d) (d_transforms d)) <$> default [] ds)
    as Hitems.
  { unfold p', callback. rewrite !bool_decide_true by done. simpl.
    by rewrite foldl_addItem. }
  split; [unfold callback; by rewrite !bool_decide_true by done|].
  split; [unfold callback; by rewrite !bool_decide_true by done|].
  split; [unfold callback; by rewrite !bool_decide_true by done|].
  split; [done|]. unfold getItemKeys, itemAt. unfold getPlaylist in Hitems.
  rewrite Hitems, index_fmap. split; [by intros ->|]. split; [|split; [|split]].
  - intros d ->. simpl. split.
    + intros Hnull. unfold transform. simpl. by rewrite Hnull.
    + intros ts Hts.
      destruct (transform_array (mkItem (d_path d) (d_transforms d)) pth (getKeys pth) ts)
        as (kept & E & Hsub & Hiff & _); [done|].
      by exists kept.
  - intros Hnone. unfold getKeys. by rewrite Hnone.
  - intros c gs Hc Hgs. unfold getKeys. rewrite Hc, Hgs. done.
  - intros c ts Hc Hgs Hts. unfold getKeys. rewrite Hc, Hgs, Hts. done.
Qed.

End Transforms.

(** A playlist of one item that removes the group [B] below [Root, X]:
    of the keys [A] and [B] of that collection only [A] shows. *)
Lemma getItemKeys_after_a_playlist_action_witness :
  let d := mkItemData [KStr "Root"; KStr "X"]
             (TransformsArray [mkTransform "remove" [KStr "Root"; KStr "X"; KStr "B"]]) in
  let p' := (callback "PLAYLIST" "SERVER_ACTION" "PLAYLIST" (Some (Some [d]))
               newPlaylist).1 in
  @getItemKeys exampleEnvironment p' 0 [KStr "Root"; KStr "X"] = Some [KStr "A"] ∧
  @getItemKeys exampleEnvironment p' 1 [KStr "Root"; KStr "X"] = None.
Proof.
  intros d p'. split; [reflexivity|].
  exact (proj1 (proj2 (proj2 (proj2 (proj2
           (@getItemKeys_after_a_playlist_action exampleEnvironment
              "PLAYLIST" (Some [d]) newPlaylist 1 [KStr "Root"; KStr "X"])))))
         eq_refl).
Defined.

End ServerPlaylistProps.

(** * Properties of the path lists *)

Module PathListStoreProps.
Import PathListStore.

(** X18. A list set under a name is what [getPaths] returns for that
    name, and [null], or an object without groups, in its place makes
    [getPaths] return the empty list; the lists under other names are not
    affected, and reading a list, which may file an empty one under the
    name, changes what no later read returns. Only [undefined] for a list
    makes [setPathList] throw. *)
Theorem getPaths_after_setPathList {Group : Type} (name : string)
    (pathList : PathList Group) (s : gmap string (list Group)) :
  (setPathList name pathList s = None ↔ pathList = ListUndefined) ∧
  (∀ s', setPathList name pathList s = Some s' →
     (getPaths name s').1 =
       (match pathList with
        | ListObject (Some groups) => groups
        | _ => []
        end) ∧
     (∀ other, other ≠ name → (getPaths other s').1 = (getPaths other s).1)) ∧
  (∀ n n', (getPaths n' (getPaths n s).2).1 = (getPaths n' s).1).
Proof.
  split; [|split].
  - destruct pathList as [| |[groups|]]; simpl; split; done.
  - intros s' Hset. unfold getPaths. split.
    + destruct pathList as [| |[groups|]]; simplify_eq/=;
        by rewrite ?lookup_delete_eq, ?lookup_insert_eq.
    + intros other Hother. assert (name ≠ other) as Hne by congruence.
      destruct pathList as [| |[groups|]]; simplify_eq/=;
        rewrite ?lookup_delete_ne, ?lookup_insert_ne by done;
        by destruct (s !! other).
  - intros n n'. unfold getPaths. destruct (s !! n) as [gs|] eqn:Hn; simpl; [done|].
    destruct (decide (n = n')) as [->|Hne].
    + by rewrite lookup_insert_eq, Hn.
    + rewrite lookup_insert_ne by done. by destruct (s !! n').
Qed.

End PathListStoreProps.

(** * Properties of the websocket handler *)

Module WebsocketProps.
Import Websocket.

Section Search.
Context `{Externals}.

(** Two paths that have the same second key. *)
Definition agree (p q : Path) : Prop :=
  ∃ k, p !! 1%nat = Some k ∧ q !! 1%nat = Some k.

Lemma Search_loop_true rp : ∀ i found,
  Search_loop i rp found = Some true ↔
  ∀ j p, rp !! j = Some p → ∃ q, found !! (i + j)%nat = Some q ∧ agree p q.
Proof.
  induction rp as [|p rp IH]; intros i found; simpl.
  - split; [intros _ j p Hj; by rewrite lookup_nil in Hj | done].
  - split.
    + intros Hloop j p' Hj.
      destruct (p !! 1%nat) as [a|] eqn:Ea; [|done]. simpl in Hloop.
      destruct (found !! i) as [q|] eqn:Eq; [|done]. simpl in Hloop.
      destruct (q !! 1%nat) as [b|] eqn:Eb; [|done]. simpl in Hloop.
      case_bool_decide as Hab; [done|]. subst a.
      destruct j as [|j]; simpl in Hj.
      * injection Hj as <-. exists q. rewrite Nat.add_0_r. split; [done|]. by eexists.
      * destruct (proj1 (IH _ _) Hloop j p' Hj) as (q' & Hq' & Hag).
        exists q'. split; [|done]. by rewrite Nat.add_succ_r.
    + intros Hall. destruct (Hall 0%nat p eq_refl) as (q & Hq & k & Hp1 & Hq1).
      rewrite Nat.add_0_r in Hq. rewrite Hp1, Hq. simpl. rewrite Hq1. simpl.
      rewrite bool_decide_false by (intros Hne; by apply Hne).
      apply IH. intros j p' Hj. specialize (Hall (S j) p' Hj).
      by rewrite Nat.add_succ_r in Hall.
Qed.

Lemma Search_loop_None rp : ∀ i found,
  Search_loop i rp found = None ↔
  ∃ j p, rp !! j = Some p ∧
    (p !! 1%nat = None ∨ ∀ q, found !! (i + j)%nat = Some q → q !! 1%nat = None) ∧
    ∀ j' p', (j' < j)%nat → rp !! j' = Some p' →
      ∃ q, found !! (i + j')%nat = Some q ∧ agree p' q.
Proof.
  induction rp as [|p rp IH]; intros i found; simpl.
  - split; [done | intros (j & p & Hj & _); by rewrite lookup_nil in Hj].
  - split.
    + intros Hloop.
      destruct (p !! 1%nat) as [a|] eqn:Ea; simpl in Hloop;
        [| exists 0%nat, p; split; [done|]; split; [by left | intros; lia]].
      destruct (found !! i) as [q|] eqn:Eq; simpl in Hloop;
        [| exists 0%nat, p; split; [done|]; split;
           [right; intros q; rewrite Nat.add_0_r, Eq; done | intros; lia]].
      destruct (q !! 1%nat) as [b|] eqn:Eb; simpl in Hloop;
        [| exists 0%nat, p; split; [done|]; split;
           [right; intros q'; rewrite Nat.add_0_r, Eq; by intros [= <-] | intros; lia]].
      case_bool_decide as Hab; [done|]. subst a.
      apply (proj1 (IH _ _)) in Hloop as (j & p' & Hj & Hbad & Hbefore).
      exists (S j), p'. split; [done|]. split.
      * by rewrite Nat.add_succ_r.
      * intros j' p'' Hlt Hj'. destruct j' as [|j']; simpl in Hj'.
        -- injection Hj' as <-. exists q. rewrite Nat.add_0_r. split; [done|]. by eexists.
        -- rewrite Nat.add_succ_r. apply Hbefore; [lia | done].
    + intros (j & p' & Hj & Hbad & Hbefore). destruct j as [|j]; simpl in Hj.
      * injection Hj as <-. destruct Hbad as [->|Hbad]; [done|].
        destruct (p !! 1%nat); [|done]. simpl. rewrite Nat.add_0_r in Hbad.
        destruct (found !! i) as [q|]; [|done]. simpl. by rewrite (Hbad q eq_refl).
      * destruct (Hbefore 0%nat p) as (q & Hq & k & Hp1 & Hq1); [lia | done |].
        rewrite Nat.add_0_r in Hq. rewrite Hp1, Hq. simpl. rewrite Hq1. simpl.
        rewrite bool_decide_false by (intros Hne; by apply Hne).
        apply IH. exists j, p'. split; [done|]. split.
        -- by rewrite Nat.add_succ_r in Hbad.
        -- intros j' p'' Hlt Hj'. specialize (Hbefore (S j') p'').
           rewrite Nat.add_succ_r in Hbefore. apply Hbefore; [lia | done].
Qed.

Lemma second_key_None (p : Path) : p !! 1%nat = None ↔ (length p < 2)%nat.
Proof. rewrite lookup_ge_None. lia. Qed.

Lemma second_key_Some (p : Path) : (2 ≤ length p)%nat → ∃ k, p !! 1%nat = Some k.
Proof. intros Hp. apply lookup_lt_is_Some. lia. Qed.

Lemma Search_None input w r :
  Search input w r = None ↔ indexOutOfRange (paths r) (Searcher_Search w input).
Proof.
  unfold Search, indexOutOfRange. case_bool_decide as Hlen.
  - destruct (Search_loop 0 (paths r) (Searcher_Search w input)) as [b|] eqn:Eloop; simpl.
    + split; [done|]. intros (_ & i & p & q & Hp & Hq & Hshort & Hbefore).
      assert (Search_loop 0 (paths r) (Searcher_Search w input) = None) as Hnone;
        [|by rewrite Hnone in Eloop].
      apply Search_loop_None. exists i, p. split; [done|]. split.
      * destruct Hshort as [Hs|Hs]; [left; by apply second_key_None|].
        right. intros q'. simpl. rewrite Hq. intros [= <-]. by apply second_key_None.
      * intros j p' Hj Hp'. simpl.
        destruct (lookup_lt_is_Some_2 (Searcher_Search w input) j) as [q' Hq'].
        { rewrite <- Hlen. by apply lookup_lt_Some in Hp'. }
        exists q'. split; [done|]. by eapply Hbefore.
    + split; [|done]. intros _. split; [done|].
      apply Search_loop_None in Eloop as (i & p & Hp & Hbad & Hbefore). simpl in *.
      destruct (lookup_lt_is_Some_2 (Searcher_Search w input) i) as [q Hq].
      { rewrite <- Hlen. by apply lookup_lt_Some in Hp. }
      exists i, p, q. split; [done|]. split; [done|]. split.
      * destruct Hbad as [Hb|Hb]; [left; by apply second_key_None|].
        right. by apply second_key_None, Hb.
      * intros j p' q' Hj Hp' Hq'. destruct (Hbefore j p' Hj Hp') as (q'' & Hq'' & Hag).
        by simplify_eq.
  - simpl. split; [done|]. by intros [? _].
Qed.

Lemma Search_Some input w r :
  secondKeysExist (paths r) (Searcher_Search w input) →
  ∃ b, Search input w r =
         Some (Searcher_Search w input, mkSameSearcher (Searcher_Search w input) b) ∧
       (b = true ↔ sameSecondKeys (paths r) (Searcher_Search w input)).
Proof.
  intros Hex. destruct (Search input w r) as [[found r']|] eqn:ES.
  - unfold Search in ES. unfold sameSecondKeys. case_bool_decide as Hlen.
    + destruct (Search_loop 0 (paths r) (Searcher_Search w input)) as [b|] eqn:Eloop;
        [|done]. simpl in ES. injection ES as <- <-. exists b. split; [done|].
      split.
      * intros ->. split; [done|]. intros i p q Hp Hq.
        destruct (proj1 (Search_loop_true _ _ _) Eloop i p Hp) as (q' & Hq' & Hag).
        simpl in Hq'. by simplify_eq.
      * intros [_ Hall]. destruct b; [done|].
        assert (Search_loop 0 (paths r) (Searcher_Search w input) = Some true) as Ht;
          [|by rewrite Ht in Eloop].
        apply Search_loop_true. intros j p Hp. simpl.
        destruct (lookup_lt_is_Some_2 (Searcher_Search w input) j) as [q Hq].
        { rewrite <- Hlen. by apply lookup_lt_Some in Hp. }
        exists q. split; [done|]. by eapply Hall.
    + simpl in ES. injection ES as <- <-. exists false. split; [done|].
      split; [done|]. by intros [? _].
  - apply Search_None in ES as (Hlen & i & p & q & Hp & Hq & Hshort & _).
    destruct (Hex Hlen) as [Hprev Hfound].
    apply list_elem_of_lookup_2 in Hp, Hq. apply Hprev in Hp. apply Hfound in Hq. lia.
Qed.

(** The first path with fewer than two keys in a list that has one. *)
Lemma first_short_path (l : list Path) :
  (∃ q, q ∈ l ∧ (length q < 2)%nat) →
  ∃ i q, l !! i = Some q ∧ (length q < 2)%nat ∧
    ∀ j q', (j < i)%nat → l !! j = Some q' → (2 ≤ length q')%nat.
Proof.
  induction l as [|p l IH]; intros (q & Hq & Hlen); [by apply elem_of_nil in Hq|].
  destruct (decide (length p < 2)%nat) as [Hp|Hp].
  - exists 0%nat, p. split; [done|]. split; [done|]. intros; lia.
  - destruct IH as (i & q' & Hi & Hq' & Hbefore).
    { apply elem_of_cons in Hq as [->|Hq]; [lia|]. by exists q. }
    exists (S i), q'. split; [done|]. split; [done|].
    intros [|j] q'' Hj Hq''; simpl in Hq''.
    + injection Hq'' as <-. lia.
    + apply (Hbefore j); [lia | done].
Qed.

(** C9. The comparison of [Search] indexes the second key of the stored
    and of the new path at each position it reaches: it returns whenever
    every path of two lists of equal length has at least two keys; it
    panics exactly when, the lengths being equal, it reaches a position
    where one of the two paths has fewer than two keys; and so it does
    when a search whose result holds such a path is made twice in a row. *)
Theorem search_comparison_out_of_range (input : string) (w : World) (r : sameSearcher) :
  let found := Searcher_Search w input in
  (secondKeysExist (paths r) found → is_Some (Search input w r)) ∧
  (Search input w r = None ↔ indexOutOfRange (paths r) found) ∧
  ((∃ q, q ∈ found ∧ (length q < 2)%nat) →
     Search input w (mkSameSearcher found (same r)) = None).
Proof.
  intros found. split; [|split].
  - intros Hex. destruct (Search_Some input w r Hex) as (b & -> & _). by eexists.
  - apply Search_None.
  - intros Hshort. apply Search_None. simpl. split; [done|].
    destruct (first_short_path _ Hshort) as (i & q & Hi & Hq & Hbefore).
    exists i, q, q. repeat split; [done | done | by left |].
    intros j p' q' Hj Hp' Hq'. unfold found in Hp'. rewrite Hp' in Hq'.
    injection Hq' as <-.
    destruct (second_key_Some p') as [k Hk]; [by eapply Hbefore|]. by exists k.
Qed.

(** ** The SEARCH command *)

Lemma getString_VString c f s :
  Data c !! f = Some (VString s) → getString c f = (s, None).
Proof. intros Hf. unfold getString, get. by rewrite Hf. Qed.

Lemma dispatch_SEARCH c h : Action c = "SEARCH"%string → dispatch c h = search c h.
Proof. intros Ha. unfold dispatch. rewrite Ha. reflexivity. Qed.

(** One turn of the loop of [Handle] for a command whose handler returns
    without an error: nothing is sent for no response, and a response is
    handed to [JSON.Send]. *)
Definition afterSend (r : Response) (h : websocketHandler) : Exit + websocketHandler :=
  let '(err, cn) := JSON_Send r (conn h) in
  let h' := mkHandler cn (world h) (searcher h) (playerKey h) (sent h ++ [r]) (logged h) in
  match err with
  | Some err => inl (Broke (if negb (isEOF err) then SendError err else err))
  | None => inr h'
  end.

Lemma Handle_loop_turn fuel h c cn resp h' :
  JSON_Receive (conn h) = (inl c, cn) →
  dispatch c (setConn cn h) = Returned resp None h' →
  Handle_loop (S fuel) h =
    match resp with
    | None => Handle_loop fuel h'
    | Some r =>
        match afterSend r h' with
        | inl e => (e, mkHandler (JSON_Send r (conn h')).2 (world h') (searcher h')
                         (playerKey h') (sent h' ++ [r]) (logged h'))
        | inr h'' => Handle_loop fuel h''
        end
    end.
Proof.
  intros Hrecv Hdisp. simpl. rewrite Hrecv, Hdisp. destruct resp as [r|]; [|done].
  unfold afterSend. destruct (JSON_Send r (conn h')) as [[err|] cn']; done.
Qed.

(** C7 (amended). A SEARCH command whose result, and the result stored by the
    previous query, have a second key in every path they are compared on:
    the handler returns no error, stores the new result as the previous
    one, and returns no response exactly when the two lists have the same
    length and the same second key at every index, whatever the other keys
    are; otherwise the response carries the expanded new result. The loop
    of [Handle] sends nothing in the first case and hands the response to
    [JSON.Send] in the second. *)
Theorem search_suppressed_iff_same_second_keys (c : Command) (h : websocketHandler)
    (input : string) :
  Action c = "SEARCH"%string →
  Data c !! "input"%string = Some (VString input) →
  let prev := paths (searcher h) in
  let found := Searcher_Search (world h) input in
  secondKeysExist prev found →
  ∃ resp h',
    dispatch c h = Returned resp None h' ∧
    paths (searcher h') = found ∧
    conn h' = conn h ∧ world h' = world h ∧ sent h' = sent h ∧
    (resp = None ↔ sameSecondKeys prev found) ∧
    (resp ≠ None →
       resp = Some (mkResponse "SEARCH" (GroupData (lib_ExpandPaths (world h) found)))) ∧
    (∀ fuel h0, JSON_Receive (conn h0) = (inl c, conn h) → setConn (conn h) h0 = h →
       Handle_loop (S fuel) h0 =
         match resp with
         | None => Handle_loop fuel h'
         | Some r =>
             match afterSend r h' with
             | inl e => (e, mkHandler (JSON_Send r (conn h')).2 (world h') (searcher h')
                              (playerKey h') (sent h' ++ [r]) (logged h'))
             | inr h'' => Handle_loop fuel h''
             end
         end).
Proof.
  intros Ha Hin prev found Hex.
  destruct (Search_Some input (world h) (searcher h) Hex) as (b & ES & Hb).
  assert (∃ resp h', dispatch c h = Returned resp None h' ∧
            h' = mkHandler (conn h) (world h) (mkSameSearcher found b) (playerKey h)
                   (sent h) (logged h) ∧
            resp = if b then None
                   else Some (mkResponse "SEARCH" (GroupData (lib_ExpandPaths (world h) found))))
    as (resp & h' & Hd & -> & ->).
  { rewrite (dispatch_SEARCH _ _ Ha). unfold search.
    rewrite (getString_VString _ _ _ Hin), ES. simpl. rewrite Ha.
    destruct b; eauto. }
  eexists _, _. split; [exact Hd|]. simpl.
  split; [done|]. split; [done|]. split; [done|]. split; [done|].
  split; [|split].
  - unfold prev, found. rewrite <- Hb. by destruct b.
  - by destruct b.
  - intros fuel h0 Hrecv Hset. apply (Handle_loop_turn fuel h0 c (conn h)); [done|].
    by rewrite Hset.
Qed.

(** C10. A SEARCH command with an empty result, received while the stored
    result is empty, as it is on a connection that has not searched yet:
    the two lists count as the same, the handler returns neither a
    response nor an error, and the loop of [Handle] goes on to the next
    command without having sent anything. *)
Theorem first_empty_search_is_suppressed (c : Command) (h : websocketHandler)
    (input : string) (cn : Conn) (fuel : nat) :
  paths (searcher h) = [] →
  JSON_Receive (conn h) = (inl c, cn) →
  Action c = "SEARCH"%string →
  Data c !! "input"%string = Some (VString input) →
  Searcher_Search (world h) input = [] →
  let h' := mkHandler cn (world h) (mkSameSearcher [] true) (playerKey h)
              (sent h) (logged h) in
  paths (searcher (newHandler (conn h) (world h))) = [] ∧
  dispatch c (setConn cn h) = Returned None None h' ∧
  Handle_loop (S fuel) h = Handle_loop fuel h'.
Proof.
  intros Hprev Hrecv Ha Hin Hfound h'.
  assert (dispatch c (setConn cn h) = Returned None None h') as Hd.
  { rewrite (dispatch_SEARCH _ _ Ha). unfold search.
    rewrite (getString_VString _ _ _ Hin). unfold Search. simpl.
    rewrite Hprev, Hfound. done. }
  split; [done|]. split; [done|].
  by rewrite (Handle_loop_turn fuel h c cn None h' Hrecv Hd).
Qed.

End Search.

(** Searching ["/"] twice on a new connection: the second comparison
    indexes the one-key path [Root]. *)
Lemma search_comparison_out_of_range_witness :
  ∃ r1, @Search exampleTypes exampleExternals "/" ()
          (searcher (@newHandler exampleTypes [] ())) = Some ([["Root"%string]], r1) ∧
    @Search exampleTypes exampleExternals "/" () r1 = None.
Proof.
  eexists. split; [reflexivity|].
  refine (proj2 (proj2 (@search_comparison_out_of_range exampleTypes exampleExternals
                          "/" () (mkSameSearcher [] false))) _).
  exists ["Root"%string]. split; [by left | simpl; lia].
Defined.

(** The property as the specification words it, for two consecutive
    SEARCH queries with the same input: the second is answered or not as
    the second keys of the two results say, and in all cases its result
    is stored as the previous list. *)
Definition consecutive_searches_as_specified `{Externals}
    (c : Command) (h : websocketHandler) (input : string) : Prop :=
  ∀ resp1 h1, dispatch c h = Returned resp1 None h1 →
    let prev := paths (searcher h1) in
    let found := Searcher_Search (world h1) input in
    ∃ resp2 h2, dispatch c h1 = Returned resp2 None h2 ∧
      paths (searcher h2) = found ∧
      (resp2 = None ↔ sameSecondKeys prev found).

(** Searching ["/"] twice on a new connection: the result [[Root]] is
    answered and stored the first time; the second time the two lists have
    the same length, the only path has no second key, and the handler
    panics instead of returning. *)
Lemma search_short_path_counterexample :
  ¬ @consecutive_searches_as_specified exampleTypes exampleExternals
      (received ("SEARCH"%string, [("input"%string, WString "/")]))
      (@newHandler exampleTypes [] ()) "/".
Proof.
  intros Hspec. destruct (Hspec _ _ eq_refl) as (resp2 & h2 & Hd & _).
  vm_compute in Hd. discriminate Hd.
Qed.

(** The stored result [[Library, a, x]] and the new result [[Root, a]]
    differ in the first key and in length of the paths, and agree on the
    second key: no response. *)
Lemma search_suppressed_iff_same_second_keys_witness :
  let c := received ("SEARCH"%string, [("input"%string, WString "a")]) in
  let h := @mkHandler exampleTypes [] ()
             (mkSameSearcher [["Library"; "a"; "x"]%string] false) "" [] [] in
  secondKeysExist (paths (searcher h))
    (@Searcher_Search _ exampleExternals (world h) "a") ∧
  ∃ h', @dispatch _ exampleExternals c h = Returned None None h' ∧
    paths (searcher h') = [["Root"; "a"]%string].
Proof.
  intros c h.
  assert (secondKeysExist (paths (searcher h))
            (@Searcher_Search _ exampleExternals (world h) "a")) as Hex.
  { intros _. split; intros p Hp; apply list_elem_of_singleton in Hp as ->; simpl; lia. }
  split; [exact Hex|].
  destruct (@search_suppressed_iff_same_second_keys _ exampleExternals c h "a"
              eq_refl eq_refl Hex) as (resp & h' & Hd & Hp & _ & _ & _ & Hsame & _).
  exists h'. split; [|exact Hp].
  rewrite Hd. f_equal. apply Hsame. split; [done|].
  intros [|i] p q Hp' Hq'; [|done]. injection Hp' as <-. injection Hq' as <-.
  by exists "a"%string.
Defined.

(** A new connection whose first message is a SEARCH for the empty input:
    the loop of [Handle] ends at the end of the input with nothing sent. *)
Lemma first_empty_search_is_suppressed_witness :
  let h := @newHandler exampleTypes [("SEARCH"%string, [("input"%string, WString "")])] () in
  ∃ h', @Handle_loop _ exampleExternals 2 h = (Broke EOF, h') ∧ sent h' = [].
Proof.
  intros h.
  destruct (@first_empty_search_is_suppressed _ exampleExternals
              (received ("SEARCH"%string, [("input"%string, WString "")])) h "" [] 1
              eq_refl eq_refl eq_refl eq_refl eq_refl) as (_ & _ & Hloop).
  rewrite Hloop. eexists. split; reflexivity.
Defined.

(** ** Field extraction *)

Section Extraction.
Context `{Externals}.

Lemma getString_error c f : (getString c f).2 = extractionError c f TString.
Proof.
  unfold getString, get, extractionError. by destruct (Data c !! f) as [[]|].
Qed.

Lemma getFloat_error c f : (getFloat c f).2 = extractionError c f TFloat.
Proof.
  unfold getFloat, get, extractionError. by destruct (Data c !! f) as [[]|].
Qed.

Lemma getInt_error c f : (getInt c f).2 = extractionError c f TFloat.
Proof.
  unfold getInt, getFloat, get, extractionError. by destruct (Data c !! f) as [[]|].
Qed.

Lemma getBool_error c f : (getBool c f).2 = extractionError c f TBool.
Proof.
  unfold getBool, get, extractionError. by destruct (Data c !! f) as [[]|].
Qed.

Lemma getPath_error c f : (getPath c f).2 = extractionError c f TPath.
Proof.
  unfold getPath, get, extractionError. destruct (Data c !! f) as [v|]; [|done].
  by destruct (PathFromJSONInterface v).
Qed.

Lemma getString_isString c f v s :
  getString c f = (v, None) → isString (Data c !! f) s = bool_decide (v = s).
Proof.
  unfold getString, get, isString. destruct (Data c !! f) as [[]|]; try done.
  by intros [= ->].
Qed.

(** Case analysis on the result of every getter called on [c] in the goal,
    keeping its error as the [extractionError] of the field. *)
Ltac getter_cases c :=
  repeat match goal with
  | |- context [ getString c ?f ] =>
      let E := fresh "E" in let HE := fresh "HE" in
      pose proof (getString_error c f) as HE;
      destruct (getString c f) as [? [?|]] eqn:E; simpl in HE;
      try rewrite (getString_isString c f _ _ E); simpl
  | |- context [ getPath c ?f ] =>
      let HE := fresh "HE" in
      pose proof (getPath_error c f) as HE;
      destruct (getPath c f) as [? [?|]]; simpl in HE; simpl
  | |- context [ getBool c ?f ] =>
      let HE := fresh "HE" in
      pose proof (getBool_error c f) as HE;
      destruct (getBool c f) as [? [?|]]; simpl in HE; simpl
  end.

Ltac handler_error c :=
  getter_cases c; repeat case_bool_decide; simpl;
  repeat match goal with
  | HE : _ = extractionError c _ _ |- _ => rewrite <- HE; clear HE
  end;
  simpl; try done; intros; by simplify_eq.

Lemma returns_first_error c h err :
  firstError c = Some err → dispatch c h = Returned None (Some err) h.
Proof.
  unfold firstError, checkedFields, dispatch.
  repeat (case_bool_decide; [|]); simpl.
  - unfold key. handler_error c.
  - unfold player. handler_error c.
  - unfold recordPlay. handler_error c.
  - unfold setFavourite. handler_error c.
  - unfold setChecklist. handler_error c.
  - unfold playlist. handler_error c.
  - unfold cursor. handler_error c.
  - unfold collectionList. handler_error c.
  - unfold search. handler_error c.
  - unfold filterList. handler_error c.
  - unfold filterPaths. handler_error c.
  - unfold fetchPathList. handler_error c.
  - done.
Qed.

Lemma getters_exact c f :
  (∀ s, getString c f = (s, None) ↔ Data c !! f = Some (VString s)) ∧
  (∀ x, getFloat c f = (x, None) ↔ Data c !! f = Some (VFloat x)) ∧
  (∀ b, getBool c f = (b, None) ↔ Data c !! f = Some (VBool b)) ∧
  (∀ n, getInt c f = (n, None) ↔
     ∃ x, Data c !! f = Some (VFloat x) ∧ n = float64_to_int x) ∧
  (∀ p, getPath c f = (p, None) ↔
     ∃ v, Data c !! f = Some v ∧ PathFromJSONInterface v = (p, None)).
Proof.
  unfold getString, getFloat, getBool, getInt, getFloat, getPath, get.
  destruct (Data c !! f) as [v|].
  - split; [|split; [|split; [|split]]].
    + intros s. destruct v; split; intros Hv; by simplify_eq.
    + intros x. destruct v; split; intros Hv; by simplify_eq.
    + intros b. destruct v; split; intros Hv; by simplify_eq.
    + intros n. split.
      * destruct v; intros Hv; simplify_eq. by eexists.
      * intros (x & [= ->] & ->). done.
    + intros p. split.
      * destruct (PathFromJSONInterface v) as [p' [e|]] eqn:Ev; intros Hv; simplify_eq/=.
        by exists v.
      * intros (v' & [= <-] & ->). done.
  - repeat split; try done; try (by intros (? & ? & ?)).
Qed.

Lemma extractionError_descriptive c f ty err :
  extractionError c f ty = Some err →
  (Data c !! f = None ∧ err = ExpectedInDataMap f) ∨
  (∃ v, Data c !! f = Some v ∧
     match ty with
     | TString => (∀ s, v ≠ VString s) ∧ err = ExpectedType f "string" (typeName v)
     | TFloat => (∀ x, v ≠ VFloat x) ∧ err = ExpectedType f "float64" (typeName v)
     | TBool => (∀ b, v ≠ VBool b) ∧ err = ExpectedType f "bool" (typeName v)
     | TPath => ∃ e, (PathFromJSONInterface v).2 = Some e ∧ err = External e
     end).
Proof.
  unfold extractionError. destruct (Data c !! f) as [v|]; [|naive_solver].
  intros Herr. right. exists v. split; [done|].
  destruct ty, v; simplify_eq/=; try done;
    try (destruct (PathFromJSONInterface _) as [? [?|]]; naive_solver).
Qed.

Lemma extractionError_not_EOF c f ty err :
  extractionError c f ty = Some err → isEOF err = false.
Proof.
  intros [[_ ->]|(v & _ & Hv)]%extractionError_descriptive; [done|].
  destruct ty; naive_solver.
Qed.

Lemma firstError_extraction c err :
  firstError c = Some err →
  ∃ f ty, (f, ty) ∈ checkedFields c ∧ extractionError c f ty = Some err.
Proof.
  unfold firstError. intros Hhead.
  assert (err ∈ omap (λ '(f, ty), extractionError c f ty) (checkedFields c)) as Hin.
  { destruct (omap _ _); [done|]. injection Hhead as ->. by left. }
  apply list_elem_of_omap in Hin as ([f ty] & Hin & Herr). eauto.
Qed.

Lemma Handle_loop_error fuel h c cn resp err h' :
  JSON_Receive (conn h) = (inl c, cn) →
  dispatch c (setConn cn h) = Returned resp (Some err) h' →
  Handle_loop (S fuel) h = (Broke err, h').
Proof. intros Hrecv Hdisp. simpl. rewrite Hrecv, Hdisp. by destruct resp. Qed.

(** Only SEARCH touches the stored result: every other command leaves the
    searcher of the handler as it was. *)
Lemma dispatch_keeps_searcher c h resp err h' :
  Action c ≠ "SEARCH"%string →
  dispatch c h = Returned resp err h' → searcher h' = searcher h.
Proof.
  intros Hne. unfold dispatch.
  repeat (case_bool_decide; [|]); try done;
    unfold key, player, recordPlay, setFavourite, setChecklist, playlist, cursor,
      collectionList, filterList, filterPaths, fetchPathList, fromExt;
    repeat match goal with
    | |- context [ getString c ?f ] => destruct (getString c f) as [? [?|]]
    | |- context [ getPath c ?f ] => destruct (getPath c f) as [? [?|]]
    | |- context [ getBool c ?f ] => destruct (getBool c f) as [? [?|]]
    | |- context [ getInt c ?f ] => destruct (getInt c f) as [? ?]
    end;
    repeat case_bool_decide;
    repeat match goal with
    | |- context [ match ?x with _ => _ end ] => destruct x
    end;
    by intros [= <- <- <-].
Qed.

(** C8 (amended). Extraction gives the field's own value or an error that
    names the field and, for a field of the wrong type, the type expected
    and the type found; a number is the only value [getInt] accepts, and
    it converts it to an integer. Every handler returns the extraction
    error of the first field of [checkedFields] that is missing or
    mistyped, having changed nothing, and the loop of [Handle] then breaks
    with that error, which [Handle] logs. The errors of three extractions
    are discarded instead: ["index"] in the PLAYLIST handler, and ["path"]
    and ["index"] in the CURSOR handler, where a field that fails to
    extract counts as index 0 and as whatever path the failed extraction
    hands back. *)
Theorem extraction_errors_returned_or_discarded (c : Command) (h : websocketHandler) :
  (∀ f,
     (∀ s, getString c f = (s, None) ↔ Data c !! f = Some (VString s)) ∧
     (∀ b, getBool c f = (b, None) ↔ Data c !! f = Some (VBool b)) ∧
     (∀ n, getInt c f = (n, None) ↔
        ∃ x, Data c !! f = Some (VFloat x) ∧ n = float64_to_int x) ∧
     (getString c f).2 = extractionError c f TString ∧
     (getFloat c f).2 = extractionError c f TFloat ∧
     (getInt c f).2 = extractionError c f TFloat ∧
     (getBool c f).2 = extractionError c f TBool ∧
     (getPath c f).2 = extractionError c f TPath ∧
     (Data c !! f = None →
        ∀ ty, extractionError c f ty = Some (ExpectedInDataMap f)) ∧
     (∀ v, Data c !! f = Some v →
        ((∀ s, v ≠ VString s) →
           extractionError c f TString = Some (ExpectedType f "string" (typeName v))) ∧
        ((∀ x, v ≠ VFloat x) →
           extractionError c f TFloat = Some (ExpectedType f "float64" (typeName v))) ∧
        ((∀ b, v ≠ VBool b) →
           extractionError c f TBool = Some (ExpectedType f "bool" (typeName v))))) ∧
  (∀ err, firstError c = Some err →
     (∃ f ty, (f, ty) ∈ checkedFields c ∧ extractionError c f ty = Some err) ∧
     dispatch c h = Returned None (Some err) h ∧
     ∀ fuel h0, JSON_Receive (conn h0) = (inl c, conn h) → setConn (conn h) h0 = h →
       Handle_loop (S fuel) h0 = (Broke err, h) ∧
       logged (Handle (S fuel) h0).2 = logged h ++ [err]) ∧
  (∀ name action path,
     Action c = "PLAYLIST"%string →
     getString c "name" = (name, None) → getString c "action" = (action, None) →
     action ≠ "FETCH"%string → getPath c "path" = (path, None) →
     (extractionError c "index" TFloat ≠ None → (getInt c "index").1 = 0) ∧
     dispatch c h =
       match playlist_Apply name action path (getInt c "index").1 (world h) with
       | (Some err, w) => Returned None (Some (External err)) (setWorld w h)
       | (None, w) =>
           Returned (Some (mkResponse "PLAYLIST" (PlaylistData (playlists_Get name w))))
             None (setWorld w h)
       end) ∧
  (∀ name action,
     Action c = "CURSOR"%string →
     getString c "name" = (name, None) → getString c "action" = (action, None) →
     action ≠ "FETCH"%string →
     (extractionError c "index" TFloat ≠ None → (getInt c "index").1 = 0) ∧
     (Data c !! "path"%string = None → (getPath c "path").1 = []) ∧
     dispatch c h =
       match cursor_Apply name action (getPath c "path").1 (getInt c "index").1 (world h) with
       | (Some err, w) => Returned None (Some (External err)) (setWorld w h)
       | (None, w) =>
           Returned (Some (mkResponse "CURSOR" (CursorData (cursors_Get name w))))
             None (setWorld w h)
       end).
Proof.
  split; [|split; [|split]].
  - intros f. destruct (getters_exact c f) as (Hs & _ & Hb & Hi & _).
    split; [done|]. split; [done|]. split; [done|].
    split; [apply getString_error|]. split; [apply getFloat_error|].
    split; [apply getInt_error|]. split; [apply getBool_error|].
    split; [apply getPath_error|]. unfold extractionError. split.
    + intros ->. by intros [].
    + intros v ->. repeat split; intros Hv; destruct v; try done; by edestruct Hv.
  - intros err Herr. split; [by apply firstError_extraction|].
    pose proof (returns_first_error c h err Herr) as Hd. split; [done|].
    intros fuel h0 Hrecv Hset.
    assert (Handle_loop (S fuel) h0 = (Broke err, h)) as Hloop.
    { apply (Handle_loop_error fuel h0 c (conn h) None); [done | by rewrite Hset]. }
    split; [done|]. unfold Handle. rewrite Hloop.
    destruct (firstError_extraction c err Herr) as (f & ty & _ & Hf).
    by rewrite (extractionError_not_EOF _ _ _ _ Hf).
  - intros name action path Ha Hname Haction Hfetch Hpath. split.
    + rewrite <- getInt_error. unfold getInt.
      by destruct (getFloat c "index") as [x [e|]].
    + unfold dispatch. rewrite Ha. simpl. unfold playlist.
      rewrite Hname, Haction, Hpath, Ha. rewrite bool_decide_true by done.
      destruct (getInt c "index") as [i e]. simpl.
      by destruct (playlist_Apply name action path i (world h)) as [[e'|] w].
  - intros name action Ha Hname Haction Hfetch. split; [|split].
    + rewrite <- getInt_error. unfold getInt.
      by destruct (getFloat c "index") as [x [e|]].
    + intros Hnone. unfold getPath, get. by rewrite Hnone.
    + unfold dispatch. rewrite Ha. simpl. unfold cursor.
      rewrite Hname, Haction, Ha. rewrite bool_decide_true by done.
      destruct (getPath c "path") as [p e]. destruct (getInt c "index") as [i e']. simpl.
      by destruct (cursor_Apply name action p i (world h)) as [[e''|] w].
Qed.

End Extraction.

(** The property as the specification words it, for the PLAYLIST handler:
    whichever of the fields it extracts is missing or mistyped, the
    handler returns an error. *)
Definition playlistFields : list (string * FieldType) :=
  [("name"%string, TString); ("action"%string, TString);
   ("path"%string, TPath); ("index"%string, TFloat)].

Definition extraction_failure_returned_as_specified `{Externals}
    (c : Command) (h : websocketHandler) : Prop :=
  ∀ f ty err, (f, ty) ∈ playlistFields → extractionError c f ty = Some err →
    ∃ err' h', dispatch c h = Returned None (Some err') h'.

(** A PLAYLIST command whose ["index"] is the string ["3"]: the extraction
    of the index fails, the handler goes on with index 0 and returns a
    response. *)
Lemma playlist_index_counterexample :
  ¬ @extraction_failure_returned_as_specified exampleTypes exampleExternals
      (received ("PLAYLIST"%string,
                 [("name"%string, WString "queue"); ("action"%string, WString "NEXT");
                  ("path"%string, WStrings ["Root"; "a"]%string);
                  ("index"%string, WString "3")]))
      (@newHandler exampleTypes [] ()).
Proof.
  intros Hspec.
  destruct (Hspec "index"%string TFloat
              (ExpectedType "index" "float64" "string")) as (err' & h' & Hd).
  - set_unfold. tauto.
  - reflexivity.
  - vm_compute in Hd. discriminate Hd.
Qed.

(** A PLAYLIST command without ["name"]: the loop of [Handle] breaks with
    the error that names the field. *)
Lemma extraction_errors_returned_or_discarded_witness :
  let h0 := @newHandler exampleTypes [("PLAYLIST"%string, [("action"%string, WString "NEXT")])] () in
  @Handle_loop _ exampleExternals 1 h0 =
    (Broke (ExpectedInDataMap "name"), @newHandler exampleTypes [] ()).
Proof.
  intros h0.
  refine (proj1 (proj2 (proj2 (proj1 (proj2
    (@extraction_errors_returned_or_discarded _ exampleExternals
       (received ("PLAYLIST"%string, [("action"%string, WString "NEXT")]))
       (@newHandler exampleTypes [] ())))
    (ExpectedInDataMap "name") eq_refl)) 0%nat h0 eq_refl eq_refl)).
Defined.

(** ** The protocol, command by command *)

Section Protocol.
Context `{Externals}.

(** The actions the [switch] of [Handle] has a case for. *)
Definition handledActions : list string :=
  ["KEY"; "PLAYER"; "RECORD_PLAY"; "SET_FAVOURITE"; "SET_CHECKLIST"; "PLAYLIST";
   "CURSOR"; "FETCH"; "SEARCH"; "FILTER_LIST"; "FILTER_PATHS"; "FETCH_PATHLIST"]%string.

(** Case analysis on the result of every getter, and of every other call
    the handlers branch on, in a goal about [dispatch c h]. *)
Ltac handler_cases c :=
  unfold key, player, recordPlay, setFavourite, setChecklist, playlist, cursor,
    collectionList, filterList, filterPaths, fetchPathList, search, fromExt;
  repeat match goal with
  | |- context [ getString c ?f ] => destruct (getString c f) as [? [?|]]
  | |- context [ getPath c ?f ] => destruct (getPath c f) as [? [?|]]
  | |- context [ getBool c ?f ] => destruct (getBool c f) as [? [?|]]
  | |- context [ getInt c ?f ] => destruct (getInt c f) as [? ?]
  end;
  repeat case_bool_decide;
  repeat match goal with
  | |- context [ match ?x with _ => _ end ] => destruct x
  end.

Lemma dispatch_cases (P : Outcome → Prop) c h :
  (Action c = "KEY"%string → P (key c h)) →
  (Action c = "PLAYER"%string → P (player c h)) →
  (Action c = "RECORD_PLAY"%string → P (recordPlay c h)) →
  (Action c = "SET_FAVOURITE"%string → P (setFavourite c h)) →
  (Action c = "SET_CHECKLIST"%string → P (setChecklist c h)) →
  (Action c = "PLAYLIST"%string → P (playlist c h)) →
  (Action c = "CURSOR"%string → P (cursor c h)) →
  (Action c = "FETCH"%string → P (collectionList c h)) →
  (Action c = "SEARCH"%string → P (search c h)) →
  (Action c = "FILTER_LIST"%string → P (filterList c h)) →
  (Action c = "FILTER_PATHS"%string → P (filterPaths c h)) →
  (Action c = "FETCH_PATHLIST"%string → P (fetchPathList c h)) →
  (Action c ∉ handledActions → P (Returned None (Some (UnknownAction (Action c))) h)) →
  P (dispatch c h).
Proof.
  intros ? ? ? ? ? ? ? ? ? ? ? ? Hother. unfold dispatch.
  repeat (case_bool_decide; [by auto|]).
  apply Hother. unfold handledActions. set_unfold. naive_solver.
Qed.

(** X19. A handler that returns a response returns no error with it, and
    the response carries the action of the command it answers; KEY,
    RECORD_PLAY, SET_FAVOURITE and SET_CHECKLIST never return a response,
    and neither does a command with an action the switch has no case for. *)
Theorem response_echoes_action (c : Command) (h h' : websocketHandler)
    (resp : option Response) (err : option error) :
  dispatch c h = Returned resp err h' →
  (∀ r, resp = Some r → RAction r = Action c ∧ err = None) ∧
  (Action c ∈ ["KEY"; "RECORD_PLAY"; "SET_FAVOURITE"; "SET_CHECKLIST"]%string →
     resp = None) ∧
  (Action c ∉ handledActions → resp = None ∧ err = Some (UnknownAction (Action c))).
Proof.
  pattern (dispatch c h). apply dispatch_cases; intros Ha;
    [ handler_cases c; intros [= <- <- <-];
      (split; [by intros r [= <-] |]);
      (split; [| intros Hno; exfalso; apply Hno; rewrite Ha;
                 unfold handledActions; set_unfold; tauto]);
      try done; rewrite Ha; set_unfold; naive_solver ..
    | intros [= <- <- <-]; done ].
Qed.

(** X20. A handler sends and logs nothing itself and keeps the connection
    it was given; only KEY changes the player key of the connection, and
    only SEARCH changes the stored search result. A handler that returns
    the error of a failed field extraction has changed nothing at all. *)
Theorem dispatch_frame (c : Command) (h h' : websocketHandler)
    (resp : option Response) (err : option error) :
  dispatch c h = Returned resp err h' →
  conn h' = conn h ∧ sent h' = sent h ∧ logged h' = logged h ∧
  (Action c ≠ "KEY"%string → playerKey h' = playerKey h) ∧
  (Action c ≠ "SEARCH"%string → searcher h' = searcher h) ∧
  (Action c ≠ "SEARCH"%string → paths (searcher h') = paths (searcher h)) ∧
  (∀ f, err = Some (ExpectedInDataMap f) → h' = h) ∧
  (∀ f want got, err = Some (ExpectedType f want got) → h' = h).
Proof.
  pattern (dispatch c h). apply dispatch_cases; intros Ha;
    [ handler_cases c; intros [= <- <- <-]; simpl; rewrite ?Ha;
      repeat split;
      first [ done | intros; congruence
            | intros; match goal with
                      | Hext : External <$> ?x = _ |- _ => by destruct x
                      end ] ..
    | intros [= <- <- <-]; repeat split; first [done | intros; congruence] ].
Qed.

(** The loop of [Handle] logs nothing, and each of its turns hands at most
    one response to [JSON.Send]. *)
Lemma Handle_loop_sent_logged : ∀ fuel h,
  logged (Handle_loop fuel h).2 = logged h ∧
  ∃ rs, sent (Handle_loop fuel h).2 = sent h ++ rs ∧ (length rs ≤ fuel)%nat.
Proof.
  induction fuel as [|fuel IH]; intros h; simpl.
  - split; [done|]. exists []. by rewrite app_nil_r.
  - destruct (JSON_Receive (conn h)) as [[c|e] cn]; simpl.
    + destruct (dispatch c (setConn cn h)) as [resp err h'|] eqn:Hd.
      * apply dispatch_frame in Hd as (_ & Hs & Hl & _). simpl in Hs, Hl.
        destruct err as [err|]; [|destruct resp as [r|]].
        -- destruct resp; simpl; (split; [done|]); exists []; rewrite app_nil_r;
             (split; [done | simpl; lia]).
        -- destruct (JSON_Send r (conn h')) as [[err|] cn'] eqn:Hsend; simpl.
           ++ split; [done|]. exists [r]. rewrite Hs. split; [done | simpl; lia].
           ++ destruct (IH (mkHandler cn' (world h') (searcher h') (playerKey h')
                              (sent h' ++ [r]) (logged h'))) as (Hl' & rs & Hs' & Hn).
              simpl in Hl', Hs'. split; [congruence|].
              exists (r :: rs). rewrite Hs', Hs, <- app_assoc. split; [done | simpl; lia].
        -- destruct (IH h') as (Hl' & rs & Hs' & Hn). split; [congruence|].
           exists rs. rewrite Hs', Hs. split; [done | simpl; lia].
      * simpl. split; [done|]. exists []. rewrite app_nil_r. split; [done | simpl; lia].
    + split; [done|]. exists []. rewrite app_nil_r. split; [done | simpl; lia].
Qed.

(** X21. However many commands the loop of [Handle] serves, it hands at
    most one response per command to [JSON.Send] and logs nothing while
    it runs; when it ends, the error it ended with is logged, once, unless
    that error is [io.EOF]. *)
Theorem Handle_logs_the_final_error (fuel : nat) (h : websocketHandler) :
  (∃ rs, sent (Handle fuel h).2 = sent h ++ rs ∧ (length rs ≤ fuel)%nat) ∧
  logged (Handle_loop fuel h).2 = logged h ∧
  logged (Handle fuel h).2 =
    logged h ++ match (Handle fuel h).1 with
                | Broke err => if isEOF err then [] else [err]
                | _ => []
                end.
Proof.
  destruct (Handle_loop_sent_logged fuel h) as (Hl & rs & Hs & Hn).
  unfold Handle. destruct (Handle_loop fuel h) as [e h'] eqn:Hloop. simpl in Hl, Hs.
  destruct e as [err| |]; simpl.
  - destruct (isEOF err); simpl; rewrite ?app_nil_r, Hl; eauto.
  - rewrite app_nil_r. eauto.
  - rewrite app_nil_r. eauto.
Qed.

(** X22. A command whose action the switch has no case for ends the loop
    at once: nothing is sent, the error naming the action is logged, and
    the deferred call runs. ["CTRL"], the action of the messages the server
    itself pushes to a player, is such an action. *)
Theorem unknown_action_ends_the_loop (c : Command) (h0 : websocketHandler)
    (cn : Conn) (fuel : nat) :
  JSON_Receive (conn h0) = (inl c, cn) →
  Action c ∉ handledActions →
  ("CTRL"%string ∉ handledActions) ∧
  dispatch c (setConn cn h0) =
    Returned None (Some (UnknownAction (Action c))) (setConn cn h0) ∧
  Handle (S fuel) h0 =
    (Broke (UnknownAction (Action c)),
     mkHandler cn (players_Remove (playerKey h0) (world h0)) (searcher h0)
       (playerKey h0) (sent h0) (logged h0 ++ [UnknownAction (Action c)])).
Proof.
  intros Hrecv Hno.
  assert (dispatch c (setConn cn h0) =
            Returned None (Some (UnknownAction (Action c))) (setConn cn h0)) as Hd.
  { pattern (dispatch c (setConn cn h0)). apply dispatch_cases; try done;
      intros Ha; exfalso; apply Hno; rewrite Ha; unfold handledActions;
      set_unfold; tauto. }
  split; [unfold handledActions; set_unfold; naive_solver|]. split; [done|].
  unfold Handle. simpl. by rewrite Hrecv, Hd.
Qed.

(** X23. The deferred [h.players.Remove(h.playerKey)] was given the key
    the handler had when [Handle] was entered. On a connection that
    registers a player with a KEY command and is then closed, [Remove] is
    called at the end with the key from before the command (the empty key
    on a new connection), not with the key the command registered. *)
Theorem deregistration_uses_the_initial_key (c : Command) (h0 : websocketHandler)
    (k : string) (cn1 cn2 : Conn) (e : error) (fuel : nat) :
  JSON_Receive (conn h0) = (inl c, cn1) →
  Action c = "KEY"%string →
  Data c !! "key"%string = Some (VString k) →
  JSON_Receive cn1 = (inr e, cn2) →
  let w1 := players_Remove (playerKey h0) (world h0) in
  let w2 := if bool_decide (k ≠ ""%string) then players_Add k cn1 w1 else w1 in
  ∃ h', Handle (S (S fuel)) h0 = (Broke (if isEOF e then e else ReceiveError e), h') ∧
    playerKey h' = k ∧
    world h' = players_Remove (playerKey h0) w2 ∧
    sent h' = sent h0 ∧ conn h' = cn2.
Proof.
  intros Hrecv Ha Hk Hclose w1 w2.
  assert (dispatch c (setConn cn1 h0) =
            Returned None None (mkHandler cn1 w2 (searcher h0) k (sent h0) (logged h0)))
    as Hd.
  { unfold dispatch. rewrite Ha. simpl. unfold key.
    by rewrite (getString_VString _ _ _ Hk). }
  unfold Handle. simpl. rewrite Hrecv, Hd. simpl. rewrite Hclose. simpl.
  destruct (isEOF e) eqn:He; simpl; rewrite ?He; simpl; eexists; split; done.
Qed.

(** ** Path lists *)

Lemma filter_sublist {A : Type} (f : A → bool) (l : list A) :
  List.filter f l `sublist_of` l.
Proof.
  induction l as [|x l IH]; simpl; [done|].
  destruct (f x); [by apply sublist_skip | by apply sublist_cons].
Qed.

Lemma elem_of_rootKeys (l : list Path) (exp : gset string) (x : string) :
  x ∈ foldl (λ exp p, if bool_decide (1 < length p)%nat
                      then {[Sprintf_v (take 2 p)]} ∪ exp else exp) exp l ↔
  x ∈ exp ∨ ∃ q, q ∈ l ∧ (1 < length q)%nat ∧ Sprintf_v (take 2 q) = x.
Proof.
  revert exp. induction l as [|p l IH]; intros exp; simpl.
  - split; [by left | intros [?|(q & Hq & _)]; [done | by apply elem_of_nil in Hq]].
  - rewrite IH. case_bool_decide as Hp; set_unfold; naive_solver.
Qed.

Lemma filterByRootLister_elem_of (l found : list Path) (p : Path) :
  p ∈ filterByRootLister l found ↔
  p ∈ found ∧ ∃ q, q ∈ l ∧ (1 < length q)%nat ∧ Sprintf_v (take 2 q) = Sprintf_v p.
Proof.
  unfold filterByRootLister.
  rewrite list_elem_of_In, filter_In, <- list_elem_of_In, bool_decide_eq_true.
  rewrite elem_of_rootKeys. set_unfold. naive_solver.
Qed.

(** X24. [filterByRootLister] keeps, in their order, the paths that print
    like the first two keys of some listed path of two keys or more, and
    nothing else: a listed path of one key selects nothing, and a listed
    path of more than two keys selects its ancestor of two keys. Where
    printing tells the paths apart, every path kept has exactly two keys
    and is a prefix of a listed path. *)
Theorem filterByRootLister_first_two_keys (l found : list Path) :
  filterByRootLister l found `sublist_of` found ∧
  (∀ p, p ∈ filterByRootLister l found ↔
     p ∈ found ∧
     ∃ q, q ∈ l ∧ (1 < length q)%nat ∧ Sprintf_v (take 2 q) = Sprintf_v p) ∧
  ((∀ q p, q ∈ l → p ∈ found → Sprintf_v (take 2 q) = Sprintf_v p → take 2 q = p) →
   ∀ p, p ∈ filterByRootLister l found →
     length p = 2%nat ∧ ∃ q, q ∈ l ∧ p `prefix_of` q).
Proof.
  split; [apply filter_sublist|]. split; [apply filterByRootLister_elem_of|].
  intros Hinj p Hp. apply filterByRootLister_elem_of in Hp as (Hp & q & Hq & Hlen & Hpr).
  apply (Hinj q p Hq Hp) in Hpr. subst p. split.
  - rewrite length_take. lia.
  - exists q. split; [done|]. apply prefix_take.
Qed.

(** X25. FETCH_PATHLIST with a name that is a string never fails. For
    ["recent"] it answers with the expansion of the recent paths of the
    library; for ["favourite"] and ["checklist"] with the expansion of
    those paths of the root collection that print like the first two keys
    of a favourite, or of a checklist entry, of two keys or more, in the
    order of the collection; and for any other name with the expansion of
    no path at all, under the name it was asked for. *)
Theorem fetchPathList_never_fails (c : Command) (h : websocketHandler) (name : string) :
  Action c = "FETCH_PATHLIST"%string →
  Data c !! "name"%string = Some (VString name) →
  let w := world h in
  let rootPaths := CollectionPaths (lib_collections w "Root") ["Root"%string] in
  ∃ found,
    dispatch c h =
      Returned (Some (mkResponse "FETCH_PATHLIST"
                        (PathListData name (lib_ExpandPaths w found))))
        None h ∧
    (name = "recent"%string → found = lib_recent w) ∧
    (name = "favourite"%string →
       found `sublist_of` rootPaths ∧
       ∀ p, p ∈ found ↔
         p ∈ rootPaths ∧
         ∃ q, q ∈ favourites_List w ∧ (1 < length q)%nat ∧
           Sprintf_v (take 2 q) = Sprintf_v p) ∧
    (name = "checklist"%string →
       found `sublist_of` rootPaths ∧
       ∀ p, p ∈ found ↔
         p ∈ rootPaths ∧
         ∃ q, q ∈ checklist_List w ∧ (1 < length q)%nat ∧
           Sprintf_v (take 2 q) = Sprintf_v p) ∧
    (name ∉ ["recent"; "favourite"; "checklist"]%string → found = []).
Proof.
  intros Ha Hname w rootPaths. unfold dispatch. rewrite Ha. simpl. unfold fetchPathList.
  rewrite (getString_VString _ _ _ Hname), Ha. fold w. fold rootPaths.
  eexists. split; [done|].
  destruct (decide (name = "recent"%string)) as [->|Hr].
  { split; [done|]. split; [done|]. split; [done|].
    intros Hno; exfalso; apply Hno; set_unfold; tauto. }
  rewrite (bool_decide_false _ Hr). split; [done|].
  destruct (decide (name = "favourite"%string)) as [->|Hf].
  { split; [|split; [done|]; intros Hno; exfalso; apply Hno; set_unfold; tauto].
    intros _. split; [apply filter_sublist | apply filterByRootLister_elem_of]. }
  rewrite (bool_decide_false _ Hf). split; [done|].
  destruct (decide (name = "checklist"%string)) as [->|Hc].
  { split; [|intros Hno; exfalso; apply Hno; set_unfold; tauto]. intros _.
    split; [apply filter_sublist | apply filterByRootLister_elem_of]. }
  rewrite (bool_decide_false _ Hc). by split.
Qed.

(** X26. A SEARCH command served twice in a row is never answered the
    second time: the result is compared with itself, so either every path
    of it has a second key and the response is suppressed, or some path has
    fewer than two keys and the comparison panics. *)
Theorem repeated_search_is_never_answered (c : Command) (h h1 : websocketHandler)
    (resp : option Response) :
  Action c = "SEARCH"%string →
  dispatch c h = Returned resp None h1 →
  let found := paths (searcher h1) in
  ((∃ q, q ∈ found ∧ (length q < 2)%nat) → dispatch c h1 = Panicked) ∧
  ((∀ q, q ∈ found → (2 ≤ length q)%nat) →
     dispatch c h1 =
       Returned None None
         (mkHandler (conn h1) (world h1) (mkSameSearcher found true) (playerKey h1)
            (sent h1) (logged h1))).
Proof.
  intros Ha. rewrite !(dispatch_SEARCH _ _ Ha). unfold search.
  destruct (getString c "input") as [input [e|]]; [done|].
  destruct (Search input (world h) (searcher h)) as [[fnd r]|] eqn:ES; [|done].
  assert (fnd = Searcher_Search (world h) input ∧ paths r = fnd) as [Hf Hr].
  { unfold Search in ES. destruct (if bool_decide _ then _ else _); simplify_eq/=. done. }
  intros Hd.
  assert (h1 = mkHandler (conn h) (world h) r (playerKey h) (sent h) (logged h)) as ->.
  { destruct (same r); by simplify_eq/=. }
  clear Hd. simpl. rewrite Hr. split.
  - intros Hshort.
    assert (Search input (world h) r = None) as ->; [|done].
    apply Search_None. rewrite Hr, <- Hf. split; [done|].
    destruct (first_short_path _ Hshort) as (i & q & Hi & Hq & Hbefore).
    exists i, q, q. repeat split; [done | done | by left |].
    intros j p' q' Hj Hp' Hq'. rewrite Hp' in Hq'. injection Hq' as <-.
    destruct (second_key_Some p') as [k Hk]; [by eapply Hbefore|]. by exists k.
  - intros Hlong.
    destruct (Search_Some input (world h) r) as (b & -> & Hb).
    { rewrite Hr, <- Hf. intros _. done. }
    rewrite <- Hf. assert (b = true) as ->; [|done].
    apply Hb. rewrite Hr, <- Hf. split; [done|].
    intros i p q Hp Hq. rewrite Hp in Hq. injection Hq as <-.
    destruct (second_key_Some p) as [k Hk]; [|by exists k].
    apply Hlong. by eapply list_elem_of_lookup_2.
Qed.

(** X27. FILTER_PATHS looks the filter up before it looks at the path: an
    unknown filter name is the error returned even for a path of the wrong
    length. For a known filter a path that is not exactly one key long is
    an error; with one key, the answer is built from the first item of the
    filter that has the key for a name, under the path made of the filter
    name and the key, and no item of that name is an error. *)
Theorem filterPaths_first_item_of_the_name (c : Command) (h : websocketHandler)
    (path : Path) (filterName : string) :
  Action c = "FILTER_PATHS"%string →
  getPath c "path" = (path, None) →
  Data c !! "name"%string = Some (VString filterName) →
  (lib_filters (world h) filterName = None →
     dispatch c h = Returned None (Some (InvalidFilterName filterName)) h) ∧
  (∀ items, lib_filters (world h) filterName = Some items →
     (length path ≠ 1%nat →
        dispatch c h = Returned None (Some (InvalidPath path)) h) ∧
     (∀ name, path = [name] →
        ((∀ x, x ∈ items → FilterItem_Name x ≠ name) →
           dispatch c h = Returned None (Some (InvalidFilterItem name)) h) ∧
        (∀ n x, items !! n = Some x → FilterItem_Name x = name →
           (∀ m y, (m < n)%nat → items !! m = Some y → FilterItem_Name y ≠ name) →
           dispatch c h =
             Returned
               (Some (mkResponse "FILTER_PATHS"
                        (FilterPathsData [filterName; name]
                           (lib_ExpandPaths (world h) (FilterItem_Paths x)))))
               None h))).
Proof.
  intros Ha Hpath Hname.
  assert (dispatch c h = filterPaths c h) as ->.
  { unfold dispatch. by rewrite Ha. }
  unfold filterPaths. rewrite Hpath, (getString_VString _ _ _ Hname). split.
  - by intros ->.
  - intros items ->. split.
    + intros Hlen. by destruct path as [|k [|k' path]].
    + intros name ->. split.
      * intros Hno.
        assert (List.find (λ y, bool_decide (FilterItem_Name y = name)) items = None)
          as ->; [|done].
        induction items as [|y items IH]; [done|]. simpl.
        rewrite bool_decide_false by (apply Hno; by left).
        apply IH. intros x Hx. apply Hno. by right.
      * intros n x Hn Hx Hfirst. rewrite Ha.
        assert (List.find (λ y, bool_decide (FilterItem_Name y = name)) items = Some x)
          as ->; [|done].
        revert n Hn Hfirst. induction items as [|y items IH]; intros n Hn Hfirst; [done|].
        simpl. destruct n as [|n]; simpl in Hn.
        -- injection Hn as ->. by rewrite bool_decide_true.
        -- rewrite bool_decide_false by (apply (Hfirst 0%nat); [lia | done]).
           apply (IH n Hn). intros m z Hm Hz. apply (Hfirst (S m)); [lia | done].
Qed.

End Protocol.

(** PLAYER with the action ["LIST"] is answered under the action
    ["PLAYER"]. *)
Lemma response_echoes_action_witness :
  let c := received ("PLAYER"%string, [("action"%string, WString "LIST")]) in
  let h := @newHandler exampleTypes [] () in
  ∃ r, @dispatch _ exampleExternals c h = Returned (Some r) None h ∧
    RAction r = "PLAYER"%string.
Proof.
  intros c h. eexists. split; [reflexivity|].
  exact (proj1 (proj1 (@response_echoes_action _ exampleExternals c h h _ _ eq_refl)
                  _ eq_refl)).
Defined.

(** KEY with the key ["a"] changes the player key and leaves the stored
    search result alone. *)
Lemma dispatch_frame_witness :
  let c := received ("KEY"%string, [("key"%string, WString "a")]) in
  let h := @newHandler exampleTypes [] () in
  ∃ h', @dispatch _ exampleExternals c h = Returned None None h' ∧
    playerKey h' = "a"%string ∧ searcher h' = searcher h.
Proof.
  intros c h. eexists. split; [reflexivity|]. split; [reflexivity|].
  refine (proj1 (proj2 (proj2 (proj2 (proj2
            (@dispatch_frame _ exampleExternals c h _ _ _ eq_refl))))) _).
  discriminate.
Defined.

(** A client that sends a ["CTRL"] message is disconnected. *)
Lemma unknown_action_ends_the_loop_witness :
  let h0 := @newHandler exampleTypes [("CTRL"%string, [])] () in
  @Handle _ exampleExternals 1 h0 =
    (Broke (UnknownAction "CTRL"),
     @mkHandler exampleTypes [] () (mkSameSearcher [] false) "" []
       [UnknownAction "CTRL"]).
Proof.
  intros h0.
  refine (proj2 (proj2 (@unknown_action_ends_the_loop _ exampleExternals
                          (received ("CTRL"%string, [])) h0 [] 0 eq_refl _))).
  unfold handledActions. set_unfold. intros Hin.
  repeat (destruct Hin as [Hin|Hin]; [discriminate Hin|]). exact Hin.
Defined.

(** A new connection that registers the key ["a"] and is closed. *)
Lemma deregistration_uses_the_initial_key_witness :
  let h0 := @newHandler exampleTypes [("KEY"%string, [("key"%string, WString "a")])] () in
  ∃ h', @Handle _ exampleExternals 2 h0 = (Broke EOF, h') ∧
    playerKey h0 = ""%string ∧ playerKey h' = "a"%string.
Proof.
  intros h0.
  destruct (@deregistration_uses_the_initial_key _ exampleExternals
              (received ("KEY"%string, [("key"%string, WString "a")])) h0 "a" [] []
              EOF 0 eq_refl eq_refl eq_refl eq_refl) as (h' & E & Hk & _).
  exists h'. split; [exact E|]. split; [reflexivity | exact Hk].
Defined.

(** The list ["pinned"] does not exist and is answered empty. *)
Lemma fetchPathList_never_fails_witness :
  let c := received ("FETCH_PATHLIST"%string, [("name"%string, WString "pinned")]) in
  let h := @newHandler exampleTypes [] () in
  @dispatch _ exampleExternals c h =
    Returned (Some (mkResponse "FETCH_PATHLIST"
                      (PathListData "pinned" ([] : @group exampleTypes)))) None h.
Proof.
  intros c h.
  destruct (@fetchPathList_never_fails _ exampleExternals c h "pinned" eq_refl eq_refl)
    as (found & E & _ & _ & _ & Hnone).
  rewrite E. rewrite Hnone; [reflexivity|].
  set_unfold. intros Hin.
  repeat (destruct Hin as [Hin|Hin]; [discriminate Hin|]). exact Hin.
Defined.

(** The filter ["genre"] has no items: asking it for ["a"] is an error. *)
Lemma filterPaths_first_item_of_the_name_witness :
  let c := received ("FILTER_PATHS"%string,
             [("path"%string, WStrings ["a"%string]); ("name"%string, WString "genre")]) in
  let h := @newHandler exampleTypes [] () in
  @dispatch _ exampleExternals c h = Returned None (Some (InvalidFilterItem "a")) h.
Proof.
  intros c h.
  refine (proj1 (proj2 (proj2 (@filterPaths_first_item_of_the_name _ exampleExternals
                                 c h ["a"%string] "genre" eq_refl eq_refl eq_refl)
                          [] eq_refl) "a"%string eq_refl) _).
  intros x Hx. by apply elem_of_nil in Hx.
Defined.

(** Searching ["a"] twice on a new connection: a response, then none. *)
Lemma repeated_search_is_never_answered_witness :
  let c := received ("SEARCH"%string, [("input"%string, WString "a")]) in
  let h := @newHandler exampleTypes [] () in
  ∃ r h1 h2, @dispatch _ exampleExternals c h = Returned (Some r) None h1 ∧
    @dispatch _ exampleExternals c h1 = Returned None None h2.
Proof.
  intros c h. eexists _, _, _. split; [reflexivity|].
  refine (proj2 (@repeated_search_is_never_answered _ exampleExternals c h _ _
                   eq_refl eq_refl) _).
  intros q Hq. apply list_elem_of_singleton in Hq. rewrite Hq. simpl. lia.
Defined.

End WebsocketProps.
